(** * Structured-text line breaking of the GUI [TextBlock] control

    A shallow embedding of the structured-text layout code of
    [TextBlock] (the width adapter, run fusion, the default word splitter and
    the three line-breaking policies) together with the properties the
    specification states about them.

    Conventions of the embedding.
    - A JavaScript string is the list of its UTF-16 code units;
      [Array.from] groups a surrogate pair into one character.
    - A JavaScript number is either a finite value or one of the three
      non-finite values.  A finite value is kept by its numerator over
      2^1074 (every finite binary64 value is an integer multiple of
      2^-1074).  Addition rounds to the nearest value of 53 significant
      bits, ties to even, and overflows to an infinity, as binary64 does;
      comparisons are exact.  The sign of a zero is not kept: none of the
      operations the layout code applies to a width ([+], [>], [===],
      [||], [!]) tells the two zeros apart.
    - An optional field ([field?: T]) is an [option].
    - Objects are mutated in place by the source.  An array is modelled as
      the list of the records it holds and the mutation of an element as the
      replacement of that element, which is what the source does as long as
      no object sits in two slots of one array; the arrays the layout code
      builds itself (the words, the fragments of a run cut at its newlines)
      hold fresh [Object.assign] copies.
    - The canvas context is threaded explicitly; it records the calls it
      receives.
    - The two [while] loops of the Ellipsis policy and the [regexp.exec]
      loop of the word splitter are defined by well-founded recursion; the
      lemmas that stand between the definitions are the ones their
      termination needs. *)

From Stdlib Require Import String Ascii.
From Stdlib Require Import ZArith NArith Bool Lia Arith List.
From Equations Require Import Equations.
Import ListNotations.

(* ===================================================================== *)
(** * Strings *)
(* ===================================================================== *)

(** A UTF-16 code unit. *)
Definition char := N.

Definition jsstring := list char.

(** Reading an ASCII literal as a JavaScript string. *)
Definition str (s : string) : jsstring :=
  List.map N_of_ascii (list_ascii_of_string s).

Definition SPACE : char := 32%N.
Definition NEWLINE : char := 10%N.

(** The one-character string ["…"] (U+2026). *)
Definition ELLIPSIS : jsstring := [8230%N].

Definition is_space (c : char) : bool := N.eqb c SPACE.

(** [WhiteSpace] and [LineTerminator] code points, as [trimStart] strips. *)
Definition is_white_space (c : char) : bool :=
  (N.leb 9 c && N.leb c 13) || N.eqb c 32 || N.eqb c 160 || N.eqb c 5760
  || (N.leb 8192 c && N.leb c 8202) || N.eqb c 8232 || N.eqb c 8233
  || N.eqb c 8239 || N.eqb c 8287 || N.eqb c 12288 || N.eqb c 65279.

(** [s.trimStart()] *)
Fixpoint trimStart (s : jsstring) : jsstring :=
  match s with
  | [] => []
  | c :: s' => if is_white_space c then trimStart s' else s
  end.

(** [s.includes("\n")] *)
Definition includes_newline (s : jsstring) : bool :=
  existsb (N.eqb NEWLINE) s.

(** [s.split("\n")]: always at least one segment. *)
Fixpoint split_newline (s : jsstring) : list jsstring :=
  match s with
  | [] => [[]]
  | c :: s' =>
      if N.eqb c NEWLINE then [] :: split_newline s'
      else match split_newline s' with
           | [] => [[c]]
           | seg :: segs => (c :: seg) :: segs
           end
  end.

(** [s.slice(from, to)] for [0 <= from] and [0 <= to]. *)
Definition slice (s : jsstring) (from to : nat) : jsstring :=
  firstn (to - from) (skipn from s).

(** [a.join("")] *)
Definition join (a : list jsstring) : jsstring := concat a.

Definition is_high_surrogate (c : char) : bool :=
  N.leb 55296 c && N.leb c 56319.
Definition is_low_surrogate (c : char) : bool :=
  N.leb 56320 c && N.leb c 57343.

(** [Array.from(s)]: the string iterator yields code points, a surrogate
    pair as one element. *)
Fixpoint array_from (s : jsstring) : list jsstring :=
  match s with
  | [] => []
  | c :: s' =>
      match s' with
      | d :: s'' =>
          if is_high_surrogate c && is_low_surrogate d
          then [c; d] :: array_from s''
          else [c] :: array_from s'
      | [] => [[c]]
      end
  end.

(* ===================================================================== *)
(** * Numbers *)
(* ===================================================================== *)

(** [Fin z] is the finite number [z * 2^-1074]. *)
Inductive number : Type :=
| Fin (z : Z)
| PosInf
| NegInf
| NaN.

Definition is_finite (x : number) : bool :=
  match x with Fin _ => true | _ => false end.

(** The number [m * 2^e], for [-1074 <= e], and the integer [n]. *)
Definition binary64 (m e : Z) : number := Fin (m * 2 ^ (e + 1074)).

Definition of_int (n : Z) : number := binary64 n 0.

(** Rounding of the exact numerator [s] to binary64: below 2^53 every
    numerator is a value (the subnormal numbers and the first binade);
    above, the numerator keeps its 53 leading bits, rounded to the nearest,
    ties going to the even one; a result of 2^1024 or more is infinite. *)
Definition round64 (s : Z) : number :=
  let a := Z.abs s in
  if (a <? 2 ^ 53)%Z then Fin s
  else
    let k := (Z.log2 a - 52)%Z in
    let q := (a / 2 ^ k)%Z in
    let r := (a mod 2 ^ k)%Z in
    let up :=
      if (2 * r <? 2 ^ k)%Z then false
      else if (2 ^ k <? 2 * r)%Z then true
      else Z.odd q in
    let m := ((if up then q + 1 else q) * 2 ^ k)%Z in
    if (2 ^ 2098 <=? m)%Z then (if (s <? 0)%Z then NegInf else PosInf)
    else Fin (Z.sgn s * m).

(** [a + b]: a zero operand gives the other one, two finite values their
    rounded sum. *)
Definition nadd (a b : number) : number :=
  match a, b with
  | Fin x, Fin y =>
      if Z.eqb x 0 then b
      else if Z.eqb y 0 then a
      else round64 (x + y)
  | NaN, _ | _, NaN => NaN
  | PosInf, NegInf | NegInf, PosInf => NaN
  | PosInf, _ | _, PosInf => PosInf
  | NegInf, _ | _, NegInf => NegInf
  end.

(** [a > b] *)
Definition ngt (a b : number) : bool :=
  match a, b with
  | Fin x, Fin y => Z.ltb y x
  | NaN, _ | _, NaN => false
  | PosInf, PosInf => false
  | PosInf, _ => true
  | _, PosInf => false
  | NegInf, _ => false
  | Fin _, NegInf => true
  end.

(** [a <= b] *)
Definition nle (a b : number) : bool :=
  match a, b with
  | Fin x, Fin y => Z.leb x y
  | NaN, _ | _, NaN => false
  | _, PosInf => true
  | PosInf, _ => false
  | NegInf, _ => true
  | Fin _, NegInf => false
  end.

(** [a === b] on numbers: [NaN] differs from itself. *)
Definition number_strict_eq (a b : number) : bool :=
  match a, b with
  | Fin x, Fin y => Z.eqb x y
  | PosInf, PosInf => true
  | NegInf, NegInf => true
  | _, _ => false
  end.

(** Truthiness of a number: [0] and [NaN] are falsy. *)
Definition number_truthy (a : number) : bool :=
  match a with
  | Fin z => negb (Z.eqb z 0)
  | NaN => false
  | _ => true
  end.

(** [w || 0] for an optional number. *)
Definition or_zero (w : option number) : number :=
  match w with
  | Some x => if number_truthy x then x else Fin 0
  | None => Fin 0
  end.

(** [acc + w] where [w] may be [undefined]: a number plus [undefined] is
    [NaN]. *)
Definition nadd_opt (acc : number) (w : option number) : number :=
  match w with
  | Some x => nadd acc x
  | None => NaN
  end.

(* ===================================================================== *)
(** * Data model *)
(* ===================================================================== *)

Fixpoint jsstring_eqb (a b : jsstring) : bool :=
  match a, b with
  | [], [] => true
  | x :: a', y :: b' => N.eqb x y && jsstring_eqb a' b'
  | _, _ => false
  end.

(** [string | ICanvasGradient]: a gradient is an object, compared by
    identity. *)
Inductive Color : Type :=
| ColorString (s : jsstring)
| ColorGradient (ref : nat).

Definition color_strict_eq (a b : Color) : bool :=
  match a, b with
  | ColorString s, ColorString t => jsstring_eqb s t
  | ColorGradient r, ColorGradient r' => Nat.eqb r r'
  | _, _ => false
  end.

(** [a === b] on optional fields: two absent fields are equal. *)
Definition opt_strict_eq {A} (eqb : A -> A -> bool) (a b : option A) : bool :=
  match a, b with
  | None, None => true
  | Some x, Some y => eqb x y
  | _, _ => false
  end.

Record StructuredTextPart : Type := mkPart {
  text : jsstring;
  color : option Color;
  underline : option bool;
  lineThrough : option bool;
  fontStyle : option jsstring;
  fontWeight : option jsstring;
  outlineWidth : option number;
  outlineColor : option jsstring;
  shadowColor : option jsstring;
  shadowBlur : option number;
  shadowOffsetX : option number;
  shadowOffsetY : option number;
  (* Computed part width *)
  width : option number
}.

Definition StructuredText := list StructuredTextPart.

Record StructuredTextLine : Type := mkLine {
  parts : StructuredText;
  (* Computed line width *)
  lineWidth : option number
}.

Definition StructuredTextLines := list StructuredTextLine.

(** [part.text = t] *)
Definition set_text (part : StructuredTextPart) (t : jsstring) :=
  mkPart t (color part) (underline part) (lineThrough part) (fontStyle part)
    (fontWeight part) (outlineWidth part) (outlineColor part)
    (shadowColor part) (shadowBlur part) (shadowOffsetX part)
    (shadowOffsetY part) (width part).

(** [part.width = w] and, with [None], [delete part.width] *)
Definition set_width (part : StructuredTextPart) (w : option number) :=
  mkPart (text part) (color part) (underline part) (lineThrough part)
    (fontStyle part) (fontWeight part) (outlineWidth part)
    (outlineColor part) (shadowColor part) (shadowBlur part)
    (shadowOffsetX part) (shadowOffsetY part) w.

(** A run that only has a text. *)
Definition plain (t : jsstring) : StructuredTextPart :=
  mkPart t None None None None None None None None None None None None.

Record TextPartAttributes : Type := mkAttr {
  attr_color : Color;
  attr_underline : bool;
  attr_lineThrough : bool;
  attr_fontStyle : jsstring;
  attr_fontWeight : jsstring;
  attr_outlineWidth : number;
  attr_outlineColor : jsstring;
  attr_shadowColor : jsstring;
  attr_shadowBlur : number;
  attr_shadowOffsetX : number;
  attr_shadowOffsetY : number
}.

Inductive TextWrapping : Type :=
| Clip
| WordWrap
| Ellipsis.

(** The [Style] object a control may carry. *)
Record Style : Type := mkStyle {
  style_fontStyle : option jsstring;
  style_fontWeight : option jsstring
}.

(** The fields of the text block (its own and those of [Control]) the
    layout code reads. *)
Record TextBlock : Type := mkTextBlock {
  _structuredText : StructuredText;
  _textWrapping : TextWrapping;
  wordSplittingFunction : option (jsstring -> list jsstring);
  block_color : Color;
  _outlineWidth : number;
  _outlineColor : jsstring;
  _underline : bool;
  _lineThrough : bool;
  block_shadowColor : jsstring;
  block_shadowBlur : number;
  block_shadowOffsetX : number;
  block_shadowOffsetY : number;
  _style : option Style;
  _fontStyle : jsstring;
  _fontWeight : jsstring;
  fontSize : jsstring;
  _fontFamily : jsstring
}.

(** [a ?? b] *)
Definition nullish {A} (a : option A) (b : A) : A :=
  match a with Some x => x | None => b end.

(** [a ?? b] where [b] may itself be absent. *)
Definition nullish_opt {A} (a b : option A) : option A :=
  match a with Some x => Some x | None => b end.

(* Compute an attribute object from a text's part, inheriting from this *)
Definition _inheritAttributes (this : TextBlock) (part : StructuredTextPart)
  : TextPartAttributes :=
  {| attr_color := nullish (color part) (block_color this);
     attr_outlineWidth := nullish (outlineWidth part) (_outlineWidth this);
     attr_outlineColor := nullish (outlineColor part) (_outlineColor this);
     attr_shadowColor := nullish (shadowColor part) (block_shadowColor this);
     attr_shadowBlur := nullish (shadowBlur part) (block_shadowBlur this);
     attr_shadowOffsetX :=
       nullish (shadowOffsetX part) (block_shadowOffsetX this);
     attr_shadowOffsetY :=
       nullish (shadowOffsetY part) (block_shadowOffsetY this);
     attr_underline := nullish (underline part) (_underline this);
     attr_lineThrough := nullish (lineThrough part) (_lineThrough this);
     attr_fontStyle :=
       nullish
         (nullish_opt (fontStyle part)
            (match _style this with
             | Some s => style_fontStyle s
             | None => None
             end))
         (_fontStyle this);
     attr_fontWeight :=
       nullish
         (nullish_opt (fontWeight part)
            (match _style this with
             | Some s => style_fontWeight s
             | None => None
             end))
         (_fontWeight this) |}.

(* ===================================================================== *)
(** * The canvas context *)
(* ===================================================================== *)

Inductive ContextCall : Type :=
| CallSave
| CallRestore
| CallMeasureText (font_ text_ : jsstring).

(** The part of the context state the measuring code touches: the current
    font, the stack of saved states, and the calls received so far. *)
Record Context : Type := mkContext {
  font : jsstring;
  saved : list jsstring;
  calls : list ContextCall
}.

(** [context.save()] *)
Definition save (context : Context) : Context :=
  mkContext (font context) (font context :: saved context)
    (calls context ++ [CallSave]).

(** [context.restore()]: does nothing to the state on an empty stack. *)
Definition restore (context : Context) : Context :=
  match saved context with
  | [] => mkContext (font context) [] (calls context ++ [CallRestore])
  | f :: st => mkContext f st (calls context ++ [CallRestore])
  end.

Definition set_font (context : Context) (f : jsstring) : Context :=
  mkContext f (saved context) (calls context).

Definition is_save (c : ContextCall) : bool :=
  match c with CallSave => true | _ => false end.
Definition is_restore (c : ContextCall) : bool :=
  match c with CallRestore => true | _ => false end.

Definition count_save (context : Context) : nat :=
  length (filter is_save (calls context)).
Definition count_restore (context : Context) : nat :=
  length (filter is_restore (calls context)).

(* ===================================================================== *)
(** * Run fusion *)
(* ===================================================================== *)

(** The condition under which the loop of [_fuseStructuredTextParts] merges
    [part] into the run inserted last: strict equality of the eleven stored
    override fields. *)
Definition same_attributes (last part : StructuredTextPart) : bool :=
  opt_strict_eq color_strict_eq (color last) (color part)
  && opt_strict_eq number_strict_eq (outlineWidth last) (outlineWidth part)
  && opt_strict_eq jsstring_eqb (outlineColor last) (outlineColor part)
  && opt_strict_eq jsstring_eqb (shadowColor last) (shadowColor part)
  && opt_strict_eq number_strict_eq (shadowBlur last) (shadowBlur part)
  && opt_strict_eq number_strict_eq (shadowOffsetX last) (shadowOffsetX part)
  && opt_strict_eq number_strict_eq (shadowOffsetY last) (shadowOffsetY part)
  && opt_strict_eq Bool.eqb (underline last) (underline part)
  && opt_strict_eq Bool.eqb (lineThrough last) (lineThrough part)
  && opt_strict_eq jsstring_eqb (fontStyle last) (fontStyle part)
  && opt_strict_eq jsstring_eqb (fontWeight last) (fontWeight part).

(** [lastInserted.text += part.text ;
     lastInserted.width = ( lastInserted.width || 0 ) + ( part.width || 0 )] *)
Definition fuse_into (lastInserted part : StructuredTextPart)
  : StructuredTextPart :=
  set_width (set_text lastInserted (text lastInserted ++ text part))
    (Some (nadd (or_zero (width lastInserted)) (or_zero (width part)))).

(** The [for] loop of [_fuseStructuredTextParts], over the runs from index 1
    on.  [output] is the output array without its last element, which is
    [lastInserted] (the object the loop keeps mutating). *)
Fixpoint fuse_loop (last lastInserted : StructuredTextPart)
    (output : StructuredText) (rest : StructuredText) : StructuredText :=
  match rest with
  | [] => output ++ [lastInserted]
  | part :: rest' =>
      if same_attributes last part
      then fuse_loop part (fuse_into lastInserted part) output rest'
      else fuse_loop part part (output ++ [lastInserted]) rest'
  end.

(* Join consecutive parts sharing the exact same attributes. *)
Definition _fuseStructuredTextParts (structuredText : StructuredText)
  : StructuredText :=
  if Nat.leb (length structuredText) 1 then structuredText
  else
    match structuredText with
    | [] => structuredText
    | last :: rest => fuse_loop last last [] rest
    end.

(* ===================================================================== *)
(** * The default word splitter *)
(* ===================================================================== *)

(** Index of the first space of [s], counted from [offset]. *)
Fixpoint find_space (s : jsstring) (offset : nat) : option nat :=
  match s with
  | [] => None
  | c :: s' => if is_space c then Some offset else find_space s' (S offset)
  end.

(** Number of leading spaces of [s]. *)
Fixpoint count_spaces (s : jsstring) : nat :=
  match s with
  | [] => 0
  | c :: s' => if is_space c then S (count_spaces s') else 0
  end.

(** [regexp.exec( str )] for [regexp = / +/g]: the search starts at
    [regexp.lastIndex]; a match gives [match.index] and the new
    [regexp.lastIndex] (the end of the maximal run of spaces found). *)
Definition regexp_exec (str_ : jsstring) (regexpLastIndex : nat)
  : option (nat * nat) :=
  match find_space (skipn regexpLastIndex str_) regexpLastIndex with
  | None => None
  | Some index => Some (index, index + count_spaces (skipn index str_))
  end.

Lemma find_space_bounds s offset index :
  find_space s offset = Some index ->
  offset <= index < offset + length s
  /\ count_spaces (skipn (index - offset) s) >= 1.
Proof.
  revert offset. induction s as [|c s IH]; simpl; intros offset H.
  - discriminate.
  - destruct (is_space c) eqn:E.
    + inversion H; subst. rewrite Nat.sub_diag. simpl. rewrite E. lia.
    + apply IH in H. destruct H as [H1 H2].
      replace (index - offset) with (S (index - S offset)) by lia.
      simpl. split; [lia | exact H2].
Qed.

Lemma count_spaces_le s : count_spaces s <= length s.
Proof. induction s as [|c s IH]; simpl; [lia|]. destruct (is_space c); lia. Qed.

Lemma regexp_exec_bounds str_ k index k' :
  regexp_exec str_ k = Some (index, k') ->
  k <= index /\ index < k' /\ k' <= length str_.
Proof.
  unfold regexp_exec. intros H.
  destruct (find_space (skipn k str_) k) as [i|] eqn:E; [|discriminate].
  inversion H; subst; clear H.
  apply find_space_bounds in E. destruct E as [[H1 H2] H3].
  rewrite length_skipn in H2.
  replace (skipn (index - k) (skipn k str_)) with (skipn index str_) in H3.
  2:{ rewrite skipn_skipn. f_equal. lia. }
  pose proof (count_spaces_le (skipn index str_)) as H4.
  rewrite length_skipn in H4. lia.
Qed.

(** A value together with the equation that names it. *)
Definition inspect {A} (a : A) : {b : A | a = b} := exist _ a eq_refl.

(** The [while ( match = regexp.exec( str ) )] loop.  The state is
    [regexp.lastIndex], [lastIndex] and [splitted]; the result is the final
    [lastIndex] and [splitted]. *)
Equations? split_loop (str_ : jsstring) (regexpLastIndex lastIndex : nat)
    (splitted : list jsstring) : nat * list jsstring
    by wf (length str_ - regexpLastIndex) lt :=
  split_loop str_ regexpLastIndex lastIndex splitted
    with inspect (regexp_exec str_ regexpLastIndex) := {
    | exist _ (Some (index, regexpLastIndex')) _ =>
        split_loop str_ regexpLastIndex' index
          (if Nat.ltb lastIndex index
           then splitted ++ [slice str_ lastIndex index]
           else splitted)
    | exist _ None _ => (lastIndex, splitted) }.
Proof.
  apply regexp_exec_bounds in e. lia.
Qed.

(* This splitting function does not exlude the splitter, it keeps it on the
   right-side of the split. *)
Definition _defaultWordSplittingFunction (str_ : jsstring) : list jsstring :=
  let '(lastIndex, splitted) := split_loop str_ 0 0 [] in
  if Nat.ltb lastIndex (length str_)
  then splitted ++ [slice str_ lastIndex (length str_)]
  else splitted.

(* ===================================================================== *)
(** * The width adapter and the line-breaking policies *)
(* ===================================================================== *)

Section Layout.

(** The measurement service: [context.measureText( text ).width] under
    the font the context currently has. *)
Variable measureText : jsstring -> jsstring -> number.

Variable this : TextBlock.

(* Like ._setContextAttributes(), but only set up attributes that cares
   for measuring text *)
Definition _setContextAttributesForMeasure (context : Context)
    (attr : TextPartAttributes) : Context :=
  set_font context
    (attr_fontStyle attr ++ [SPACE] ++ attr_fontWeight attr ++ [SPACE]
     ++ fontSize this ++ [SPACE] ++ _fontFamily this).

(** [context.measureText( t ).width], with the call recorded. *)
Definition context_measureText (context : Context) (t : jsstring)
  : Context * number :=
  (mkContext (font context) (saved context)
     (calls context ++ [CallMeasureText (font context) t]),
   measureText (font context) t).

(** The callback given to [reduce] in [_structuredTextWidth].  It mutates
    [part] and the context, so both are returned with the new
    accumulator. *)
Definition width_callback (contextSaved : bool) (context : Context)
    (width_ : number) (part : StructuredTextPart)
  : Context * StructuredTextPart * number :=
  match width part with
  | None =>
      let context1 := if negb contextSaved then save context else context in
      let attr := _inheritAttributes this part in
      let context2 := _setContextAttributesForMeasure context1 attr in
      let '(context3, textMetrics_width) :=
        context_measureText context2 (text part) in
      let part' := set_width part (Some textMetrics_width) in
      (context3, part', nadd_opt width_ (width part'))
  | Some _ => (context, part, nadd_opt width_ (width part))
  end.

(** [structuredText.reduce( callback , width_ )] *)
Fixpoint width_reduce (contextSaved : bool) (context : Context)
    (structuredText : StructuredText) (width_ : number)
  : Context * StructuredText * number :=
  match structuredText with
  | [] => (context, [], width_)
  | part :: rest =>
      let '(context1, part', width1) :=
        width_callback contextSaved context width_ part in
      let '(context2, rest', width2) :=
        width_reduce contextSaved context1 rest width1 in
      (context2, part' :: rest', width2)
  end.

(* Set the width of each parts and return the total width *)
Definition _structuredTextWidth (structuredText : StructuredText)
    (context : Context) : Context * StructuredText * number :=
  (* [contextSaved] is declared [false] and never assigned. *)
  let contextSaved := false in
  let '(context1, structuredText', _width) :=
    width_reduce contextSaved context structuredText (Fin 0) in
  let context2 := if contextSaved then restore context1 else context1 in
  (context2, structuredText', _width).

(** ** Clip *)

Definition _parseStructuredTextLine (line : StructuredText)
    (context : Context) : Context * StructuredTextLine :=
  let '(context1, line1, lineWidth_) := _structuredTextWidth line context in
  (context1, {| parts := line1; lineWidth := Some lineWidth_ |}).

(** ** Ellipsis *)

(** [_part = line[ line.length - 1 ]] followed by an update of [_part]. *)
Definition update_last (f : StructuredTextPart -> StructuredTextPart)
    (line : StructuredText) : StructuredText :=
  match rev line with
  | [] => []
  | _part :: before => rev before ++ [f _part]
  end.

Lemma removelast_shorter {A} (l : list A) :
  l <> [] -> length (removelast l) < length l.
Proof.
  intros H. destruct (exists_last H) as [l' [a ->]].
  rewrite removelast_last, length_app. simpl. lia.
Qed.

(** The inner loop
    [while ( characters.length && lineWidth > width )]. *)
Equations? ellipsis_characters (width_ : number)
    (characters : list jsstring) (line : StructuredText)
    (lineWidth_ : number) (context : Context)
  : Context * StructuredText * number
  by wf (length characters) lt :=
  ellipsis_characters width_ characters line lineWidth_ context
    with inspect (negb (Nat.eqb (length characters) 0)
                  && ngt lineWidth_ width_) := {
    | exist _ true _ =>
        let characters1 := removelast characters in
        let line1 :=
          update_last
            (fun _part =>
               set_width (set_text _part (join characters1 ++ ELLIPSIS))
                 None)
            line in
        let '(context1, line2, lineWidth1) :=
          _structuredTextWidth line1 context in
        ellipsis_characters width_ characters1 line2 lineWidth1 context1
    | exist _ false _ => (context, line, lineWidth_) }.
Proof.
  apply removelast_shorter. intros ->. discriminate.
Qed.

Lemma update_last_length f line :
  length (update_last f line) = length line.
Proof.
  unfold update_last. rewrite <- (length_rev line).
  destruct (rev line); simpl; [reflexivity|].
  rewrite length_app, length_rev. simpl. lia.
Qed.

Lemma width_reduce_length contextSaved structuredText :
  forall context width_,
    length (snd (fst (width_reduce contextSaved context structuredText
                        width_)))
    = length structuredText.
Proof.
  induction structuredText as [|part rest IH]; intros context width_;
    simpl; [reflexivity|].
  destruct (width_callback contextSaved context width_ part)
    as [[context1 part'] width1].
  specialize (IH context1 width1).
  destruct (width_reduce contextSaved context1 rest width1)
    as [[context2 rest'] width2].
  simpl in *. congruence.
Qed.

Lemma _structuredTextWidth_length structuredText context :
  length (snd (fst (_structuredTextWidth structuredText context)))
  = length structuredText.
Proof.
  unfold _structuredTextWidth.
  pose proof (width_reduce_length false structuredText context (Fin 0))
    as H.
  destruct (width_reduce false context structuredText (Fin 0))
    as [[context1 structuredText'] _width].
  exact H.
Qed.

Lemma ellipsis_characters_length width_ characters line lineWidth_ context :
  length (snd (fst (ellipsis_characters width_ characters line lineWidth_
                      context)))
  = length line.
Proof.
  funelim (ellipsis_characters width_ characters line lineWidth_ context);
    [|reflexivity].
  match goal with
  | |- context [_structuredTextWidth ?l ?c] =>
      pose proof (_structuredTextWidth_length l c) as Hlen;
      destruct (_structuredTextWidth l c) as [[context1 line2] lineWidth1]
  end.
  simpl in Hlen.
  match goal with IH : Context * StructuredText -> _ |- _ =>
    rewrite (IH (context1, line2)) end.
  rewrite Hlen. apply update_last_length.
Qed.

(** The outer loop [while ( line.length && lineWidth > width )].  When the
    inner loop ends with [lineWidth > width] false, nothing is popped and
    the test of the outer loop fails at once. *)
Equations? ellipsis_loop (width_ : number) (line : StructuredText)
    (lineWidth_ : number) (context : Context)
  : Context * StructuredText * number
  by wf (length line) lt :=
  ellipsis_loop width_ line lineWidth_ context
    with inspect (negb (Nat.eqb (length line) 0)
                  && ngt lineWidth_ width_) := {
    | exist _ false _ => (context, line, lineWidth_)
    | exist _ true _
        with inspect
               (ellipsis_characters width_
                  (array_from (text (last line (plain []))))
                  line lineWidth_ context) := {
        | exist _ (context1, line1, lineWidth1) _
            with inspect (ngt lineWidth1 width_) := {
            | exist _ true _ =>
                ellipsis_loop width_ (removelast line1) lineWidth1 context1
            | exist _ false _ => (context1, line1, lineWidth1) } } }.
Proof.
  pose proof (ellipsis_characters_length width_
                (array_from (text (last line (plain []))))
                line lineWidth_ context) as Hlen.
  rewrite e0 in Hlen. simpl in Hlen. rewrite <- Hlen.
  apply removelast_shorter. intros ->. simpl in Hlen.
  rewrite <- Hlen in e. discriminate.
Qed.

Definition _parseStructuredTextLineEllipsis (line : StructuredText)
    (width_ : number) (context : Context) : Context * StructuredTextLine :=
  let '(context1, line1, lineWidth1) :=
    _structuredTextWidth line context in
  let '(context2, line2, lineWidth2) :=
    ellipsis_loop width_ line1 lineWidth1 context1 in
  (context2, {| parts := line2; lineWidth := Some lineWidth2 |}).

(** ** WordWrap *)

(** The two nested [for] loops that split each part of the line: every
    word is a copy of its part with [text] replaced. *)
Definition split_words (line : StructuredText) : StructuredText :=
  let wordSplittingFunction_ :=
    match wordSplittingFunction this with
    | Some f => f
    | None => _defaultWordSplittingFunction
    end in
  flat_map
    (fun _part =>
       List.map (fun wordText => set_text _part wordText)
         (wordSplittingFunction_ (text _part)))
    line.

(** The variables of the main loop of
    [_parseStructuredTextLineWordWrap]. *)
Record WordWrapState : Type := mkWW {
  ww_lines : StructuredTextLines;
  ww_lastTestWidth : number;
  ww_testWidth : number;
  ww_testLine : StructuredText;
  ww_context : Context
}.

(** The body of [for ( _word of words )].  After the call of
    [_structuredTextWidth] the word, with its width now cached, is the
    last element of the measured [testLine]. *)
Definition wordwrap_step (width_ : number) (st : WordWrapState)
    (_word : StructuredTextPart) : WordWrapState :=
  let testLine := ww_testLine st ++ [_word] in
  let lastTestWidth := ww_testWidth st in
  let '(context1, testLine1, testWidth) :=
    _structuredTextWidth testLine (ww_context st) in
  if ngt testWidth width_ && Nat.ltb 1 (length testLine1) then
    let _word1 := last testLine1 _word in
    let testLine2 := removelast testLine1 in
    let lines :=
      ww_lines st
      ++ [ {| parts := _fuseStructuredTextParts testLine2;
              lineWidth := Some lastTestWidth |} ] in
    (* Create a new line with the current word as the first word.
       We have to left-trim it because it mays contain a space. *)
    let _word2 := set_text _word1 (trimStart (text _word1)) in
    let _word3 := set_width _word2 None in
    let testLine3 := [_word3] in
    let '(context2, testLine4, testWidth1) :=
      _structuredTextWidth testLine3 context1 in
    mkWW lines lastTestWidth testWidth1 testLine4 context2
  else
    mkWW (ww_lines st) lastTestWidth testWidth testLine1 context1.

(** The main loop over the words and the final [lines.push]. *)
Definition wordwrap_words (words : StructuredText) (width_ : number)
    (context : Context) : Context * StructuredTextLines :=
  let st := fold_left (wordwrap_step width_) words
              (mkWW [] (Fin 0) (Fin 0) [] context) in
  (ww_context st,
   ww_lines st
   ++ [ {| parts := _fuseStructuredTextParts (ww_testLine st);
           lineWidth := Some (ww_testWidth st) |} ]).

Definition _parseStructuredTextLineWordWrap (line : StructuredText)
    (width_ : number) (context : Context) : Context * StructuredTextLines :=
  let words := split_words line in
  wordwrap_words words width_ context.

(** ** The line breaker *)

(** The newline pre-pass.  [_lines] is [done ++ [_currentLine]]: the
    array of line groups, whose last element is the group being filled. *)
Definition push_fragment (_part : StructuredTextPart)
    (st : list StructuredText * StructuredText) (_splitted : jsstring)
  : list StructuredText * StructuredText :=
  let '(done, _currentLine) := st in
  let _newPart := set_text _part _splitted in
  (* Create a new line *)
  (done ++ [_currentLine ++ [_newPart]], []).

Definition push_part (st : list StructuredText * StructuredText)
    (_part : StructuredTextPart) : list StructuredText * StructuredText :=
  if includes_newline (text _part)
  then fold_left (push_fragment _part) (split_newline (text _part)) st
  else let '(done, _currentLine) := st in (done, _currentLine ++ [_part]).

Definition newline_groups (structuredText : StructuredText)
  : list StructuredText :=
  let '(done, _currentLine) := fold_left push_part structuredText ([], []) in
  done ++ [_currentLine].

Definition _breakStructuredTextLines (refWidth : number) (context : Context)
  : Context * StructuredTextLines :=
  let _lines := newline_groups (_structuredText this) in
  match _textWrapping this with
  | Ellipsis =>
      fold_left
        (fun (acc : Context * StructuredTextLines) _line =>
           let '(context1, lines) := acc in
           let '(context2, l) :=
             _parseStructuredTextLineEllipsis _line refWidth context1 in
           (context2, lines ++ [l]))
        _lines (context, [])
  | WordWrap =>
      fold_left
        (fun (acc : Context * StructuredTextLines) _line =>
           let '(context1, lines) := acc in
           let '(context2, ls) :=
             _parseStructuredTextLineWordWrap _line refWidth context1 in
           (context2, lines ++ ls))
        _lines (context, [])
  | Clip =>
      fold_left
        (fun (acc : Context * StructuredTextLines) _line =>
           let '(context1, lines) := acc in
           let '(context2, l) := _parseStructuredTextLine _line context1 in
           (context2, lines ++ [l]))
        _lines (context, [])
  end.

End Layout.

(** A block with no overrides, and a measure that gives every code unit a
    width of 10, for the examples.  The examples write their widths as
    small numerators: the layout code only adds and compares widths, and
    sums this small do not round. *)
Definition example_block (structuredText : StructuredText)
    (mode : TextWrapping) : TextBlock :=
  mkTextBlock structuredText mode None (ColorString (str "black")) (Fin 0)
    (str "white") false false (str "black") (Fin 0) (Fin 0) (Fin 0) None
    (str "normal") (str "normal") (str "18px") (str "Arial").

Definition measure10 (font_ text_ : jsstring) : number :=
  Fin (10 * Z.of_nat (length text_)).

Definition context0 : Context := mkContext (str "10px sans-serif") [] [].

Definition line_texts (l : StructuredTextLine) : list jsstring :=
  List.map text (parts l).

(* ===================================================================== *)
(** * Auxiliary definitions used in the statements *)
(* ===================================================================== *)

(** The font description under which [part] is measured. *)
Definition font_of (this : TextBlock) (part : StructuredTextPart) : jsstring :=
  let attr := _inheritAttributes this part in
  attr_fontStyle attr ++ [SPACE] ++ attr_fontWeight attr ++ [SPACE]
  ++ fontSize this ++ [SPACE] ++ _fontFamily this.

(** What the width adapter leaves of [part]: a cached width is kept, an
    absent one is replaced by the result of the measurement service. *)
Definition measured (measureText : jsstring -> jsstring -> number)
    (this : TextBlock) (part : StructuredTextPart) : StructuredTextPart :=
  match width part with
  | Some _ => part
  | None =>
      set_width part (Some (measureText (font_of this part) (text part)))
  end.

(** Left-to-right sum of the widths stored on the runs, from [acc]. *)
Definition sum_widths_from (acc : number) (l : StructuredText) : number :=
  fold_left (fun a p => nadd_opt a (width p)) l acc.

Definition sum_widths (l : StructuredText) : number :=
  sum_widths_from (Fin 0) l.

(** Concatenation of the texts of the runs. *)
Definition concat_text (l : StructuredText) : jsstring :=
  concat (List.map text l).

(** Number of runs without a cached width. *)
Definition count_unmeasured (l : StructuredText) : nat :=
  length (filter (fun p => match width p with None => true | _ => false end)
            l).

(** A run carries a concrete cached width. *)
Definition has_finite_width (p : StructuredTextPart) : Prop :=
  exists z, width p = Some (Fin z).

(** A cached width, when there is one, is finite. *)
Definition finite_if_cached (p : StructuredTextPart) : Prop :=
  match width p with
  | Some w => is_finite w = true
  | None => True
  end.

(** ** For the width adapter and run fusion *)

(** A measurement service whose every answer is [NaN]. *)
Definition measureNaN (font_ text_ : jsstring) : number := NaN.

(** The numerator of the finite width of a run, [0] when there is none. *)
Definition width_z (p : StructuredTextPart) : Z :=
  match width p with
  | Some (Fin z) => z
  | _ => 0%Z
  end.

Definition sum_z (l : StructuredText) : Z :=
  fold_right Z.add 0%Z (List.map width_z l).

(** The width of the run is finite and a whole multiple of [2^j] (as a
    numerator: of 2^(j-1074)). *)
Definition on_grid (j : Z) (p : StructuredTextPart) : bool :=
  match width p with
  | Some (Fin z) => Z.eqb (z mod 2 ^ j) 0
  | _ => false
  end.

Definition sum_abs (l : StructuredText) : Z :=
  fold_right Z.add 0%Z (List.map (fun p => Z.abs (width_z p)) l).

(** Widths whose additions never round, however they are grouped: all are
    whole multiples of one power of two, 2^(j-1074), and their absolute
    values sum to at most 2^53 of these.  Widths in whole pixels that sum
    to at most 2^53 are the case [j = 1074]. *)
Definition exact_widths (j : Z) (l : StructuredText) : bool :=
  Z.leb 0 j && Z.leb j 2044 && forallb (on_grid j) l
  && Z.leb (sum_abs l) (2 ^ (53 + j)).

(** The eleven override fields the fusion loop compares. *)
Definition attributes_of (p : StructuredTextPart) :=
  (color p, outlineWidth p, outlineColor p, shadowColor p, shadowBlur p,
   shadowOffsetX p, shadowOffsetY p, underline p, lineThrough p,
   fontStyle p, fontWeight p).

Definition red (t : jsstring) (w : Z) : StructuredTextPart :=
  mkPart t (Some (ColorString (str "red"))) None None None None None None
    None None None None (Some (Fin w)).

Definition blue (t : jsstring) (w : Z) : StructuredTextPart :=
  mkPart t (Some (ColorString (str "blue"))) None None None None None None
    None None None None (Some (Fin w)).

(** ** For the word splitter *)

(** Shape of the tokens. *)
Definition all_spaces (s : jsstring) : bool := forallb is_space s.
Definition no_space (s : jsstring) : bool :=
  forallb (fun c => negb (is_space c)) s.

(** A run of spaces followed by characters that are not spaces. *)
Definition token_shape (t : jsstring) : bool :=
  no_space (skipn (count_spaces t) t).

Definition starts_with_space (t : jsstring) : bool :=
  match t with
  | c :: _ => is_space c
  | [] => false
  end.

(** The token has a character that is not a space. *)
Definition has_word (t : jsstring) : bool :=
  Nat.ltb (count_spaces t) (length t).

(** A token pushed inside the loop. *)
Definition loop_token (t : jsstring) : Prop :=
  t <> [] /\ token_shape t = true /\ has_word t = true.

(** ** For the line breaker *)

(** The run [{text: "hello\nworld"}]. *)
Definition hello_world : StructuredTextPart :=
  plain (str "hello" ++ [NEWLINE] ++ str "world").

(** The run has a cached width. *)
Definition is_measured (p : StructuredTextPart) : Prop := width p <> None.

(** A word that starts a line after the first: left-trimmed. *)
Definition trim_word (w : StructuredTextPart) : StructuredTextPart :=
  set_text w (trimStart (text w)).

Definition trim_head (chunk : StructuredText) : StructuredText :=
  match chunk with
  | [] => []
  | w :: ws => trim_word w :: ws
  end.

(** The words of the successive lines as the lines show them: the first
    word of every line but the first is left-trimmed. *)
Definition trim_heads (chunks : list StructuredText) : list StructuredText :=
  match chunks with
  | [] => []
  | c :: cs => c :: List.map trim_head cs
  end.

(** The recorded width of the line does not exceed the target. *)
Definition fits (refWidth : number) (l : StructuredTextLine) : Prop :=
  exists w, lineWidth l = Some w /\ nle w refWidth = true.



(** The word that starts a new line, once re-measured. *)
Definition restarted (measureText : jsstring -> jsstring -> number)
    (this : TextBlock) (_word : StructuredTextPart) : StructuredTextPart :=
  measured measureText this
    (set_width
       (set_text (measured measureText this _word)
          (trimStart (text (measured measureText this _word))))
       None).

(** The chunk being filled, as the candidate line shows it. *)
Definition current_shown (done : list StructuredText) (cur : StructuredText)
  : StructuredText :=
  match done with
  | [] => cur
  | _ :: _ => trim_head cur
  end.

Definition same_text (l : StructuredTextLine) (chunk : StructuredText)
  : Prop :=
  concat_text (parts l) = concat_text chunk.




(** The first run of [line] still has the text and the font of [p0]. *)
Definition head_like (this : TextBlock) (p0 : StructuredTextPart)
    (line : StructuredText) : Prop :=
  exists p rest,
    line = p :: rest /\ text p = text p0
    /\ font_of this p = font_of this p0.

(** ** For the further properties *)

(** No two neighbours of [l] would be merged by the fusion loop. *)
Fixpoint adjacent_differ (l : StructuredText) : bool :=
  match l with
  | [] => true
  | p :: rest =>
      match rest with
      | [] => true
      | q :: _ => negb (same_attributes p q) && adjacent_differ rest
      end
  end.

(** [s] without its newlines. *)
Definition remove_newlines (s : jsstring) : jsstring :=
  filter (fun c => negb (N.eqb c NEWLINE)) s.

(** The run [p] with the text [t], measured afresh. *)
Definition truncated (measureText : jsstring -> jsstring -> number)
    (this : TextBlock) (p : StructuredTextPart) (t : jsstring)
  : StructuredTextPart :=
  set_width (set_text p t) (Some (measureText (font_of this p) t)).

(** The text of all the groups, one after the other. *)
Definition groups_text (groups : list StructuredText) : jsstring :=
  concat (List.map concat_text groups).

(** The text of the run has no newline. *)
Definition clean_run (p : StructuredTextPart) : Prop :=
  includes_newline (text p) = false.

(** A line whose runs are the fusion of words that all have a finite
    width, the recorded width being the left-to-right sum of the widths of
    these words. *)
Definition coherent_line (l : StructuredTextLine) : Prop :=
  exists ws,
    Forall has_finite_width ws
    /\ parts l = _fuseStructuredTextParts ws
    /\ lineWidth l = Some (sum_widths ws).

(* ===================================================================== *)
(** * The plain-text path of the line breaker *)
(* ===================================================================== *)

(** [s.split(sep)] for a separator of one code unit: always at least one
    segment. *)
Fixpoint split_char (sep : char) (s : jsstring) : list jsstring :=
  match s with
  | [] => [[]]
  | c :: s' =>
      if N.eqb c sep then [] :: split_char sep s'
      else match split_char sep s' with
           | [] => [[c]]
           | seg :: segs => (c :: seg) :: segs
           end
  end.

(** [Math.abs( a )] *)
Definition nabs (a : number) : number :=
  match a with
  | Fin z => Fin (Z.abs z)
  | NaN => NaN
  | _ => PosInf
  end.

(** A line of the plain-text path: [{ text: line, width: lineWidth }]. *)
Record PlainLine : Type := mkPlainLine {
  plain_text : jsstring;
  plain_width : number
}.

(** The variables of the loop of [_parseLineWordWrap]. *)
Record PlainWrapState : Type := mkPW {
  pw_lines : list PlainLine;
  pw_line : jsstring;
  pw_lineWidth : number;
  pw_n : nat
}.

Lemma shorter_by_one (line : jsstring) :
  2 < length line ->
  length (firstn (length line - 2) line ++ ELLIPSIS) < length line.
Proof.
  intros H. rewrite length_app, length_firstn. simpl. lia.
Qed.

Section PlainText.

(** The measurement service as this path reads it:
    [context.measureText( text )] under the font of the context, giving
    [actualBoundingBoxLeft] and [actualBoundingBoxRight].  The call does
    not change the context. *)
Variable measureBox : jsstring -> jsstring -> number * number.

Variable this : TextBlock.

(** Whether the environment has [Array.from]. *)
Variable Array_from_available : bool.

(** [textMetrics = context.measureText( line )] followed by
    [Math.abs( textMetrics.actualBoundingBoxLeft )
     + Math.abs( textMetrics.actualBoundingBoxRight )]. *)
Definition measure_line (context : Context) (line : jsstring) : number :=
  let '(actualBoundingBoxLeft, actualBoundingBoxRight) :=
    measureBox (font context) line in
  nadd (nabs actualBoundingBoxLeft) (nabs actualBoundingBoxRight).

Definition _parseLine (line : jsstring) (context : Context) : PlainLine :=
  let lineWidth_ := measure_line context line in
  {| plain_text := line; plain_width := lineWidth_ |}.

(** The loop [while ( characters.length && lineWidth > width )] of
    [_parseLineEllipsis]; the marker it appends is three full stops. *)
Equations? plain_ellipsis_characters (width_ : number) (context : Context)
    (characters : list jsstring) (line : jsstring) (lineWidth_ : number)
  : jsstring * number
  by wf (length characters) lt :=
  plain_ellipsis_characters width_ context characters line lineWidth_
    with inspect (negb (Nat.eqb (length characters) 0)
                  && ngt lineWidth_ width_) := {
    | exist _ true _ =>
        let characters1 := removelast characters in
        let line1 := join characters1 ++ str "..." in
        let lineWidth1 := measure_line context line1 in
        plain_ellipsis_characters width_ context characters1 line1
          lineWidth1
    | exist _ false _ => (line, lineWidth_) }.
Proof.
  apply removelast_shorter. intros ->. discriminate.
Qed.

(** The loop [while ( line.length > 2 && lineWidth > width )] used when
    [Array.from] is missing. *)
Equations? plain_ellipsis_legacy (width_ : number) (context : Context)
    (line : jsstring) (lineWidth_ : number) : jsstring * number
  by wf (length line) lt :=
  plain_ellipsis_legacy width_ context line lineWidth_
    with inspect (Nat.ltb 2 (length line) && ngt lineWidth_ width_) := {
    | exist _ true _ =>
        let line1 := firstn (length line - 2) line ++ ELLIPSIS in
        let lineWidth1 := measure_line context line1 in
        plain_ellipsis_legacy width_ context line1 lineWidth1
    | exist _ false _ => (line, lineWidth_) }.
Proof.
  apply shorter_by_one. apply andb_true_iff in e. destruct e as [e _].
  now apply Nat.ltb_lt in e.
Qed.

Definition _parseLineEllipsis (line : jsstring) (width_ : number)
    (context : Context) : PlainLine :=
  let lineWidth_ := measure_line context line in
  let line1 := if ngt lineWidth_ width_ then line ++ ELLIPSIS else line in
  (* unicode support. split('') does not work with unicode! *)
  let '(line2, lineWidth2) :=
    if Array_from_available
    then plain_ellipsis_characters width_ context (array_from line1) line1
           lineWidth_
    else (* no array.from, use the old method *)
      plain_ellipsis_legacy width_ context line1 lineWidth_ in
  {| plain_text := line2; plain_width := lineWidth2 |}.

(** The body of [for (var n = 0; n < words.length; n++)], [word] being
    [words[n]]. *)
Definition plain_wordwrap_step (width_ : number) (context : Context)
    (st : PlainWrapState) (word : jsstring) : PlainWrapState :=
  let n := pw_n st in
  let testLine :=
    if Nat.ltb 0 n then pw_line st ++ [SPACE] ++ word else word in
  let testWidth := measure_line context testLine in
  if ngt testWidth width_ && Nat.ltb 0 n then
    let lines :=
      pw_lines st
      ++ [ {| plain_text := pw_line st; plain_width := pw_lineWidth st |} ] in
    mkPW lines word (measure_line context word) (S n)
  else
    mkPW (pw_lines st) testLine testWidth (S n).

(** The words of a plain line: [this.wordSplittingFunction( line )] when
    the function is set, [line.split( " " )] otherwise. *)
Definition plain_words (line : jsstring) : list jsstring :=
  match wordSplittingFunction this with
  | Some f => f line
  | None => split_char SPACE line
  end.

Definition _parseLineWordWrap (line : jsstring) (width_ : number)
    (context : Context) : list PlainLine :=
  let words := plain_words line in
  let lineWidth_ := measure_line context line in
  let st := fold_left (plain_wordwrap_step width_ context) words
              (mkPW [] line lineWidth_ 0) in
  pw_lines st
  ++ [ {| plain_text := pw_line st; plain_width := pw_lineWidth st |} ].

(** The measurement service of the structured path. *)
Variable measureText : jsstring -> jsstring -> number.

(** [_breakLines].  [_text] and [_useStructuredText] are the two fields of
    [this] that the record [TextBlock] does not carry.  The result is the
    array of plain lines, or the array of structured lines. *)
Definition _breakLines (_text : jsstring) (_useStructuredText : bool)
    (refWidth : number) (context : Context)
  : Context * (list PlainLine + StructuredTextLines) :=
  if _useStructuredText then
    let '(context1, lines) :=
      _breakStructuredTextLines measureText this refWidth context in
    (context1, inr lines)
  else
    let _lines := split_newline _text in
    match _textWrapping this with
    | Ellipsis =>
        (context,
         inl (List.map (fun _line => _parseLineEllipsis _line refWidth context)
                _lines))
    | WordWrap =>
        (context,
         inl (flat_map
                (fun _line => _parseLineWordWrap _line refWidth context)
                _lines))
    | Clip =>
        (context, inl (List.map (fun _line => _parseLine _line context) _lines))
    end.

End PlainText.

(** [a.join(sep)] *)
Fixpoint join_sep (sep : jsstring) (a : list jsstring) : jsstring :=
  match a with
  | [] => []
  | x :: rest =>
      match rest with
      | [] => x
      | _ :: _ => x ++ sep ++ join_sep sep rest
      end
  end.

(** A measurement service for the examples of the plain-text path: ten
    units per code unit, all to the right of the origin. *)
Definition box10 (font_ text_ : jsstring) : number * number :=
  (Fin 0, Fin (10 * Z.of_nat (length text_))).

(** A line of the plain path whose recorded width is the width of its
    text, and which fits unless it is one of [words]. *)
Definition plain_line_holds
    (measureBox : jsstring -> jsstring -> number * number)
    (words : list jsstring) (width_ : number)
    (context : Context) (l : PlainLine) : Prop :=
  plain_width l = measure_line measureBox context (plain_text l)
  /\ (ngt (plain_width l) width_ = false \/ In (plain_text l) words).

(* ===================================================================== *)
(** * Painting a line of runs *)
(* ===================================================================== *)

(** [- a] and [a - b] *)
Definition nneg (a : number) : number :=
  match a with
  | Fin z => Fin (- z)
  | PosInf => NegInf
  | NegInf => PosInf
  | NaN => NaN
  end.

Definition nsub (a b : number) : number := nadd a (nneg b).

(** What the painting code does to the context, in the order it does it:
    the assignments to its properties and the calls of its drawing
    methods.  What a canvas makes of them is not modelled. *)
Inductive CanvasOp : Type :=
| SetFillStyle (c : Color)
| SetFont (f : jsstring)
| SetShadowColor (s : jsstring)
| SetShadowBlur (n : number)
| SetShadowOffsetX (n : number)
| SetShadowOffsetY (n : number)
| SetLineWidth (n : number)
| SetStrokeStyle (s : jsstring)
| SetLineJoin (s : jsstring)
| SetMiterLimit (n : number)
| StrokeRect (x_ y_ w_ h_ : number)
| StrokeText (t : jsstring) (x_ y_ : number)
| FillRect (x_ y_ w_ h_ : number)
| FillText (t : jsstring) (x_ y_ : number).

(** [this._textHorizontalAlignment], compared with the three constants of
    [Control]; any other value is [OtherAlignment]. *)
Inductive HorizontalAlignment : Type :=
| HORIZONTAL_ALIGNMENT_LEFT
| HORIZONTAL_ALIGNMENT_RIGHT
| HORIZONTAL_ALIGNMENT_CENTER
| OtherAlignment.

(** Truthiness of a string and of an optional number. *)
Definition string_truthy (s : jsstring) : bool :=
  match s with [] => false | _ :: _ => true end.

Definition width_truthy (w : option number) : bool :=
  match w with
  | Some n => number_truthy n
  | None => false
  end.

Section Painting.

Variable this : TextBlock.

(** [this._currentMeasure.left], [this._currentMeasure.width] and
    [this._textHorizontalAlignment]. *)
Variable _currentMeasure_left : number.
Variable _currentMeasure_width : number.
Variable _textHorizontalAlignment : HorizontalAlignment.

(** The values of [Math.round( this.fontSizeInPixels * 0.025 )] and of
    [- this.fontSizeInPixels / 3], and the operation [a / 2]: the
    multiplication, the division and [Math.round] are not part of this
    embedding, and [fontSizeInPixels] belongs to [Control]. *)
Variable halfThickness : number.
Variable lineThroughYOffset : number.
Variable half : number -> number.

(* It's like ._applyStates(), but for each line parts *)
Definition _setContextAttributes (attr : TextPartAttributes)
  : list CanvasOp :=
  [ SetFillStyle (attr_color attr);
    SetFont
      (attr_fontStyle attr ++ [SPACE] ++ attr_fontWeight attr ++ [SPACE]
       ++ fontSize this ++ [SPACE] ++ _fontFamily this) ]
  ++ (if number_truthy (attr_shadowBlur attr)
         || number_truthy (attr_shadowOffsetX attr)
         || number_truthy (attr_shadowOffsetY attr)
      then
        (if string_truthy (attr_shadowColor attr)
         then [SetShadowColor (attr_shadowColor attr)] else [])
        ++ [ SetShadowBlur (attr_shadowBlur attr);
             SetShadowOffsetX (attr_shadowOffsetX attr);
             SetShadowOffsetY (attr_shadowOffsetY attr) ]
      else [SetShadowBlur (Fin 0)])
  ++ (if number_truthy (attr_outlineWidth attr)
      then [ SetLineWidth (attr_outlineWidth attr);
             SetStrokeStyle (attr_outlineColor attr);
             SetLineJoin (str "miter");
             SetMiterLimit (of_int 2) ]
      else [SetLineWidth (Fin 0)]).

(** One turn of the loop [for ( let part of structuredText )] of
    [_drawStructuredText]: the operations issued and the new [x]. *)
Definition draw_part (y_ : number) (x_ : number) (part : StructuredTextPart)
  : list CanvasOp * number :=
  match width part with
  | Some part_width =>
      if negb (number_truthy part_width) then ([], x_)
      else
        let attr := _inheritAttributes this part in
        let underlineYOffset := of_int 3 in
        let underline_y :=
          nsub (nadd y_ underlineYOffset) halfThickness in
        let lineThrough_y :=
          nsub (nadd y_ lineThroughYOffset) halfThickness in
        let rect_x := nsub (nadd _currentMeasure_left x_) halfThickness in
        let rect_h := nadd halfThickness halfThickness in
        (_setContextAttributes attr
         ++ (if number_truthy (attr_outlineWidth attr) then
               (if attr_underline attr
                then [StrokeRect rect_x underline_y part_width rect_h]
                else [])
               ++ [StrokeText (text part) (nadd _currentMeasure_left x_) y_]
               ++ (if attr_lineThrough attr
                   then [StrokeRect rect_x lineThrough_y part_width rect_h]
                   else [])
             else [])
         ++ (if attr_underline attr
             then [FillRect rect_x underline_y part_width rect_h] else [])
         ++ [FillText (text part) (nadd _currentMeasure_left x_) y_]
         ++ (if attr_lineThrough attr
             then [FillRect rect_x lineThrough_y part_width rect_h] else []),
         nadd x_ part_width)
  | None => ([], x_)
  end.

Fixpoint draw_parts (y_ : number) (x_ : number)
    (structuredText : StructuredText) : list CanvasOp :=
  match structuredText with
  | [] => []
  | part :: rest =>
      let '(ops, x1) := draw_part y_ x_ part in
      ops ++ draw_parts y_ x1 rest
  end.

(** The value of [x] after the [switch]. *)
Definition draw_origin (textWidth : number) : number :=
  match _textHorizontalAlignment with
  | HORIZONTAL_ALIGNMENT_LEFT => Fin 0
  | HORIZONTAL_ALIGNMENT_RIGHT => nsub _currentMeasure_width textWidth
  | HORIZONTAL_ALIGNMENT_CENTER =>
      half (nsub _currentMeasure_width textWidth)
  | OtherAlignment => Fin 0
  end.

(** [_drawStructuredText]: the operations issued on the context. *)
Definition _drawStructuredText (structuredText : StructuredText)
    (textWidth : number) (y_ : number) : list CanvasOp :=
  draw_parts y_ (draw_origin textWidth) structuredText.

End Painting.

(** The [fillText] calls among the operations: text and position. *)
Definition fill_texts (ops : list CanvasOp)
  : list (jsstring * number * number) :=
  flat_map
    (fun op => match op with FillText t x_ y_ => [(t, x_, y_)] | _ => [] end)
    ops.

Definition is_stroke (op : CanvasOp) : bool :=
  match op with
  | StrokeRect _ _ _ _ | StrokeText _ _ _ => true
  | _ => false
  end.

(** The runs the painter does not skip. *)
Definition painted (l : StructuredText) : StructuredText :=
  filter (fun p => width_truthy (width p)) l.

(** Where the texts of the runs [l] go when the first one starts at [x_]:
    each run starts where the one before it ends. *)
Fixpoint placed (left_ y_ x_ : number) (l : StructuredText)
  : list (jsstring * number * number) :=
  match l with
  | [] => []
  | p :: rest =>
      (text p, nadd left_ x_, y_)
      :: placed left_ y_ (nadd_opt x_ (width p)) rest
  end.

(* ===================================================================== *)
(** * The metrics of a run *)
(* ===================================================================== *)

Module StructuredTextMetrics.

Record t : Type := mk {
  (* This property is always defined on creation *)
  width : number;
  (* If computed is true, then the following properties are computed *)
  computed : bool;
  x : number;
  baselineY : number;
  height : number
}.

(** [new StructuredTextMetrics( width )] *)
Definition constructor (width_ : number) : t :=
  {| width := if number_truthy width_ then width_ else Fin 0;
     computed := false;
     x := Fin 0;
     baselineY := Fin 0;
     height := Fin 0 |}.

(** [this.fuseWithRightPart( metrics )]: the result is the new [this]. *)
Definition fuseWithRightPart (this metrics : t) : t :=
  (* widths are summed *)
  let width1 := nadd (width this) (width metrics) in
  if negb (computed this) || negb (computed metrics) then
    mk width1 false (x this) (baselineY this) (height this)
  else
    (* .x and .baselineY does not change, while .height is maximized *)
    mk width1 (computed this) (x this) (baselineY this)
      (if ngt (height metrics) (height this) then height metrics
       else height this).

End StructuredTextMetrics.

(* ===================================================================== *)
(** * The width adapter *)
(* ===================================================================== *)

Section WidthAdapter.

Variable measureText : jsstring -> jsstring -> number.
Variable this : TextBlock.

Lemma width_callback_spec contextSaved context acc part :
  exists context',
    width_callback measureText this contextSaved context acc part
    = (context', measured measureText this part,
       nadd_opt acc (width (measured measureText this part)))
    /\ count_restore context' = count_restore context
    /\ (contextSaved = false ->
        count_save context'
        = count_save context + count_unmeasured [part]
        /\ length (saved context')
           = length (saved context) + count_unmeasured [part]).
Proof.
  unfold width_callback, measured, count_unmeasured, font_of.
  destruct (width part) eqn:E; simpl.
  - exists context. rewrite E. split; [reflexivity|].
    repeat split; intros; simpl; lia.
  - eexists. split; [reflexivity|].
    unfold count_restore, count_save. simpl.
    destruct contextSaved; simpl;
      rewrite ?filter_app, ?length_app; simpl;
      repeat split; intros; try discriminate; try lia;
      rewrite E; simpl; lia.
Qed.

Lemma width_reduce_spec contextSaved structuredText :
  forall context acc,
  exists context',
    width_reduce measureText this contextSaved context structuredText acc
    = (context', List.map (measured measureText this) structuredText,
       sum_widths_from acc
         (List.map (measured measureText this) structuredText))
    /\ count_restore context' = count_restore context
    /\ (contextSaved = false ->
        count_save context'
        = count_save context + count_unmeasured structuredText
        /\ length (saved context')
           = length (saved context) + count_unmeasured structuredText).
Proof.
  induction structuredText as [|part rest IH]; intros context acc.
  - exists context. simpl. unfold count_unmeasured. simpl.
    split; [reflexivity|]. repeat split; lia.
  - simpl.
    destruct (width_callback_spec contextSaved context acc part)
      as (context1 & -> & Hr1 & Hs1).
    destruct (IH context1
                (nadd_opt acc (width (measured measureText this part))))
      as (context2 & -> & Hr2 & Hs2).
    exists context2. split; [reflexivity|]. split; [congruence|].
    intros Hcs. specialize (Hs1 Hcs). specialize (Hs2 Hcs).
    unfold count_unmeasured in *. simpl in *.
    destruct (width part); simpl in *; lia.
Qed.

Lemma _structuredTextWidth_spec structuredText context :
  exists context',
    _structuredTextWidth measureText this structuredText context
    = (context', List.map (measured measureText this) structuredText,
       sum_widths (List.map (measured measureText this) structuredText))
    /\ count_restore context' = count_restore context
    /\ count_save context'
       = count_save context + count_unmeasured structuredText
    /\ length (saved context')
       = length (saved context) + count_unmeasured structuredText.
Proof.
  unfold _structuredTextWidth.
  destruct (width_reduce_spec false structuredText context (Fin 0))
    as (context1 & -> & Hr & Hs).
  exists context1. destruct (Hs eq_refl). auto.
Qed.

End WidthAdapter.

(** ** Sums of finite widths

    The sum of two finite numbers can round and can overflow to an
    infinity, but it is never [NaN]. *)

Lemma nadd_0_l x : nadd (Fin 0) x = x.
Proof. destruct x; reflexivity. Qed.

(** Binary64 addition at work: 0.1 + 0.2 is 0.30000000000000004; a tie
    goes to the even neighbour (2^53 + 1 is 2^53 and 2^53 + 3 is 2^53 + 4);
    the largest finite number added to itself is infinite; and the
    grouping of a sum matters. *)
Example nadd_rounds :
  nadd (binary64 3602879701896397 (-55)) (binary64 3602879701896397 (-54))
  = binary64 1351079888211149 (-52)
  /\ nadd (of_int (2 ^ 53)) (of_int 1) = of_int (2 ^ 53)
  /\ nadd (of_int (2 ^ 53)) (of_int 3) = of_int (2 ^ 53 + 4)
  /\ nadd (binary64 (2 ^ 53 - 1) 971) (binary64 (2 ^ 53 - 1) 971) = PosInf
  /\ nadd (nadd (of_int (2 ^ 53)) (of_int 1)) (of_int 1)
     <> nadd (of_int (2 ^ 53)) (nadd (of_int 1) (of_int 1)).
Proof. vm_compute. repeat split; try reflexivity; discriminate. Qed.

Lemma round64_not_NaN s : round64 s <> NaN.
Proof.
  unfold round64. cbv zeta.
  repeat match goal with
         | |- context [if ?b then _ else _] => destruct b
         end; discriminate.
Qed.

Lemma nadd_finite_not_NaN a z : a <> NaN -> nadd a (Fin z) <> NaN.
Proof.
  destruct a as [x| | |]; simpl; intros H; try congruence.
  destruct (x =? 0)%Z; [discriminate|].
  destruct (z =? 0)%Z; [discriminate|]. apply round64_not_NaN.
Qed.

Lemma sum_widths_from_not_NaN l :
  Forall has_finite_width l ->
  forall a, a <> NaN -> sum_widths_from a l <> NaN.
Proof.
  induction 1 as [|p l [z Hz] Hl IH]; intros a Ha; [exact Ha|].
  unfold sum_widths_from. cbn [fold_left]. rewrite Hz. cbn [nadd_opt].
  apply IH. now apply nadd_finite_not_NaN.
Qed.

Lemma sum_widths_not_NaN l :
  Forall has_finite_width l -> sum_widths l <> NaN.
Proof. intros H. apply sum_widths_from_not_NaN; [assumption|discriminate]. Qed.

Lemma measured_finite measureText this p :
  (forall f t, is_finite (measureText f t) = true) ->
  finite_if_cached p ->
  has_finite_width (measured measureText this p).
Proof.
  intros Hm Hp. unfold measured, finite_if_cached, has_finite_width in *.
  destruct (width p) as [w|] eqn:E.
  - rewrite E. destruct w; try discriminate. eauto.
  - simpl. specialize (Hm (font_of this p) (text p)).
    destruct (measureText (font_of this p) (text p)); try discriminate.
    eauto.
Qed.

Lemma measured_all_finite measureText this l :
  (forall f t, is_finite (measureText f t) = true) ->
  Forall finite_if_cached l ->
  Forall has_finite_width (List.map (measured measureText this) l).
Proof.
  intros Hm H. induction H; simpl; constructor; auto using measured_finite.
Qed.

(** C10, evaluated where it fails: measuring two runs without a cached width
    calls [context.save()] twice and [context.restore()] never, and leaves
    two more states on the stack of the context. *)
Theorem structuredTextWidth_save_never_restored :
  let '(context1, _, _) :=
    _structuredTextWidth measure10 (example_block [] Clip)
      [plain (str "ab"); plain (str "c")] context0 in
  count_save context1 = 2
  /\ count_restore context1 = 0
  /\ length (saved context1) = 2 + length (saved context0).
Proof. vm_compute. repeat split. Qed.

(** The general form of the same fact: every run without a cached width
    costs one [save], and [restore] is never called. *)
Lemma structuredTextWidth_save_count measureText this structuredText context :
  let '(context1, _, _) :=
    _structuredTextWidth measureText this structuredText context in
  count_save context1 = count_save context + count_unmeasured structuredText
  /\ count_restore context1 = count_restore context.
Proof.
  destruct (_structuredTextWidth_spec measureText this structuredText context)
    as (context1 & -> & Hr & Hs & _). auto.
Qed.

(** C2 as stated fails: when the measurement service answers [NaN], the
    width stored on the run is [NaN], not zero, and the total is not
    finite. *)
Lemma structuredTextWidth_keeps_NaN :
  let '(_, structuredText1, total) :=
    _structuredTextWidth measureNaN (example_block [] Clip)
      [plain (str "ab")] context0 in
  List.map width structuredText1 <> [Some (Fin 0)]
  /\ is_finite total <> true.
Proof. vm_compute. split; discriminate. Qed.

(** C2, amended: the adapter stores on each unmeasured run exactly what the
    measurement service returns, whatever that value is, and returns the
    left-to-right sum of the stored widths; when every cached width and
    every measurement result is finite that total is never [NaN], though
    it can overflow to an infinity. *)
Theorem structuredTextWidth_stores_measurement
    measureText this structuredText context :
  let '(_, structuredText1, total) :=
    _structuredTextWidth measureText this structuredText context in
  structuredText1 = List.map (measured measureText this) structuredText
  /\ total = sum_widths structuredText1
  /\ ((forall f t, is_finite (measureText f t) = true) ->
      Forall finite_if_cached structuredText ->
      total <> NaN).
Proof.
  destruct (_structuredTextWidth_spec measureText this structuredText context)
    as (context1 & -> & _).
  split; [reflexivity|]. split; [reflexivity|].
  intros Hm Hc. apply sum_widths_not_NaN.
  now apply measured_all_finite.
Qed.

Lemma structuredTextWidth_stores_measurement_witness :
  snd (_structuredTextWidth measure10 (example_block [] Clip)
         [plain (str "ab"); set_width (plain (str "c")) (Some (Fin 7))]
         context0)
  <> NaN.
Proof.
  pose proof (structuredTextWidth_stores_measurement measure10
                (example_block [] Clip)
                [plain (str "ab"); set_width (plain (str "c")) (Some (Fin 7))]
                context0) as H.
  destruct (_structuredTextWidth measure10 (example_block [] Clip)
              [plain (str "ab"); set_width (plain (str "c")) (Some (Fin 7))]
              context0) as [[c l] total].
  destruct H as (_ & _ & H). simpl. apply H.
  - intros f t. reflexivity.
  - repeat constructor.
Defined.

(** The total of finite widths can be infinite: two cached widths of
    2^1023 each. *)
Example structuredTextWidth_overflows :
  snd (_structuredTextWidth measure10 (example_block [] Clip)
         [set_width (plain (str "a")) (Some (binary64 1 1023));
          set_width (plain (str "b")) (Some (binary64 1 1023))]
         context0)
  = PosInf.
Proof. vm_compute. reflexivity. Qed.

(* ===================================================================== *)
(** * The empty input *)
(* ===================================================================== *)

(** C9: for the empty run sequence every policy produces exactly one line,
    with no run and width 0. *)
Theorem breakStructuredTextLines_empty measureText this refWidth context :
  _structuredText this = [] ->
  snd (_breakStructuredTextLines measureText this refWidth context)
  = [ {| parts := []; lineWidth := Some (Fin 0) |} ].
Proof.
  intros H. unfold _breakStructuredTextLines. rewrite H.
  destruct (_textWrapping this); simpl.
  - reflexivity.
  - reflexivity.
  - unfold _parseStructuredTextLineEllipsis. simpl.
    simp ellipsis_loop. reflexivity.
Qed.

Lemma breakStructuredTextLines_empty_witness :
  snd (_breakStructuredTextLines measure10 (example_block [] Ellipsis)
         (Fin 100) context0)
  = [ {| parts := []; lineWidth := Some (Fin 0) |} ].
Proof. apply breakStructuredTextLines_empty. reflexivity. Defined.

(* ===================================================================== *)
(** * Run fusion *)
(* ===================================================================== *)

Lemma jsstring_eqb_eq a : forall b, jsstring_eqb a b = true -> a = b.
Proof.
  induction a as [|x a IH]; destruct b as [|y b]; simpl; intros H;
    try discriminate; [reflexivity|].
  apply andb_true_iff in H. destruct H as [H1 H2].
  apply N.eqb_eq in H1. apply IH in H2. congruence.
Qed.

Lemma number_strict_eq_eq a b : number_strict_eq a b = true -> a = b.
Proof.
  destruct a, b; simpl; intros H; try discriminate; try reflexivity.
  apply Z.eqb_eq in H. congruence.
Qed.

Lemma color_strict_eq_eq a b : color_strict_eq a b = true -> a = b.
Proof.
  destruct a, b; simpl; intros H; try discriminate.
  - apply jsstring_eqb_eq in H. congruence.
  - apply Nat.eqb_eq in H. congruence.
Qed.

Lemma opt_strict_eq_eq {A} (eqb : A -> A -> bool) a b :
  (forall x y, eqb x y = true -> x = y) ->
  opt_strict_eq eqb a b = true -> a = b.
Proof.
  intros Heq. destruct a, b; simpl; intros H; try discriminate;
    [f_equal; auto | reflexivity].
Qed.

Lemma same_attributes_eq p q :
  same_attributes p q = true -> attributes_of p = attributes_of q.
Proof.
  unfold same_attributes, attributes_of. intros H.
  repeat (apply andb_true_iff in H; destruct H as [H ?]).
  repeat match goal with
  | H : opt_strict_eq color_strict_eq _ _ = true |- _ =>
      apply (opt_strict_eq_eq _ _ _ color_strict_eq_eq) in H
  | H : opt_strict_eq number_strict_eq _ _ = true |- _ =>
      apply (opt_strict_eq_eq _ _ _ number_strict_eq_eq) in H
  | H : opt_strict_eq jsstring_eqb _ _ = true |- _ =>
      apply (opt_strict_eq_eq _ _ _ jsstring_eqb_eq) in H
  | H : opt_strict_eq Bool.eqb _ _ = true |- _ =>
      apply (opt_strict_eq_eq _ _ _ Bool.eqb_prop) in H
  end.
  congruence.
Qed.

Lemma same_attributes_ext p p' r :
  attributes_of p = attributes_of p' ->
  same_attributes p r = same_attributes p' r.
Proof.
  unfold attributes_of, same_attributes. intros H.
  inversion H. congruence.
Qed.

Lemma attributes_of_fuse_into p q :
  attributes_of (fuse_into p q) = attributes_of p.
Proof. reflexivity. Qed.

Lemma fuse_loop_output last lastInserted output rest :
  fuse_loop last lastInserted output rest
  = output ++ fuse_loop last lastInserted [] rest.
Proof.
  revert last lastInserted output.
  induction rest as [|part rest IH]; intros last lastInserted output; simpl.
  - reflexivity.
  - destruct (same_attributes last part).
    + apply IH.
    + rewrite (IH part part (output ++ [lastInserted])).
      rewrite (IH part part [lastInserted]).
      now rewrite <- app_assoc.
Qed.

Lemma fuse_loop_last last last' lastInserted output rest :
  attributes_of last = attributes_of last' ->
  fuse_loop last lastInserted output rest
  = fuse_loop last' lastInserted output rest.
Proof.
  intros H. destruct rest as [|part rest]; simpl; [reflexivity|].
  now rewrite (same_attributes_ext _ _ part H).
Qed.

Lemma fuse_cons p rest :
  _fuseStructuredTextParts (p :: rest) = fuse_loop p p [] rest.
Proof. destruct rest; reflexivity. Qed.

(** The loop, read as a recursion on the input. *)
Lemma fuse_loop_step p q rest :
  fuse_loop p p [] (q :: rest)
  = if same_attributes p q
    then fuse_loop (fuse_into p q) (fuse_into p q) [] rest
    else p :: fuse_loop q q [] rest.
Proof.
  simpl. destruct (same_attributes p q) eqn:E.
  - apply fuse_loop_last. apply same_attributes_eq in E.
    rewrite attributes_of_fuse_into. congruence.
  - now rewrite fuse_loop_output.
Qed.

Lemma fuse_loop_text rest :
  forall p, concat_text (fuse_loop p p [] rest) = text p ++ concat_text rest.
Proof.
  induction rest as [|q rest IH]; intros p.
  - unfold concat_text. simpl. reflexivity.
  - rewrite fuse_loop_step. destruct (same_attributes p q).
    + rewrite IH. unfold concat_text. simpl. now rewrite <- app_assoc.
    + unfold concat_text in *. simpl. now rewrite <- IH.
Qed.

Lemma fuse_text l :
  concat_text (_fuseStructuredTextParts l) = concat_text l.
Proof.
  destruct l as [|p rest]; [reflexivity|].
  rewrite fuse_cons. apply fuse_loop_text.
Qed.

(** ** Additions that do not round *)

Lemma pow2_divides_grid j a :
  (0 <= j)%Z -> (a mod 2 ^ j = 0)%Z -> (2 ^ 53 <= a <= 2 ^ (53 + j))%Z ->
  exists c, a = (c * 2 ^ (Z.log2 a - 52))%Z.
Proof.
  intros Hj Hmod [Hlo Hhi].
  assert (Ha : (0 < a)%Z) by (pose proof (Z.pow_pos_nonneg 2 53); lia).
  destruct (Z.log2_spec a Ha) as [HL1 HL2].
  assert (H53 : (53 <= Z.log2 a)%Z).
  { rewrite <- (Z.log2_pow2 53) by lia. now apply Z.log2_le_mono. }
  assert (Hup : (Z.log2 a <= 53 + j)%Z).
  { rewrite <- (Z.log2_pow2 (53 + j)) by lia. now apply Z.log2_le_mono. }
  apply Z.mod_divide in Hmod; [|apply Z.pow_nonzero; lia].
  destruct Hmod as [d Hd].
  destruct (Z.le_gt_cases (Z.log2 a - 52) j) as [Hk|Hk].
  - exists (d * 2 ^ (j - (Z.log2 a - 52)))%Z.
    rewrite <- Z.mul_assoc, <- Z.pow_add_r by lia.
    replace (j - (Z.log2 a - 52) + (Z.log2 a - 52))%Z with j by lia.
    exact Hd.
  - assert (HL : Z.log2 a = (53 + j)%Z) by lia.
    rewrite HL in HL1. assert (a = 2 ^ (53 + j))%Z by lia.
    exists (2 ^ 52)%Z. rewrite <- Z.pow_add_r by lia.
    rewrite HL. replace (52 + (53 + j - 52))%Z with (53 + j)%Z by lia.
    assumption.
Qed.

(** A numerator on the grid of [2^j] that is at most 2^53 steps of it has
    at most 53 significant bits: rounding leaves it as it is. *)
Lemma round64_exact j s :
  (0 <= j <= 2044)%Z -> (s mod 2 ^ j = 0)%Z -> (Z.abs s <= 2 ^ (53 + j))%Z ->
  round64 s = Fin s.
Proof.
  intros Hj Hmod Hle. unfold round64. cbv zeta.
  destruct (Z.abs s <? 2 ^ 53)%Z eqn:Hsmall; [reflexivity|].
  apply Z.ltb_ge in Hsmall.
  assert (Hmod' : (Z.abs s mod 2 ^ j = 0)%Z).
  { apply Z.mod_divide; [apply Z.pow_nonzero; lia|].
    apply Z.divide_abs_r. apply Z.mod_divide; [apply Z.pow_nonzero; lia|].
    assumption. }
  destruct (pow2_divides_grid j (Z.abs s)) as [c Hc]; [lia|assumption|lia|].
  assert (H53 : (53 <= Z.log2 (Z.abs s))%Z).
  { rewrite <- (Z.log2_pow2 53) by lia. now apply Z.log2_le_mono. }
  set (k := (Z.log2 (Z.abs s) - 52)%Z) in *.
  assert (Hpk : (0 < 2 ^ k)%Z) by (apply Z.pow_pos_nonneg; lia).
  assert (Hr : (Z.abs s mod 2 ^ k = 0)%Z).
  { rewrite Hc. apply Z.mod_mul. lia. }
  assert (Hq : (Z.abs s / 2 ^ k * 2 ^ k = Z.abs s)%Z).
  { rewrite Hc at 1. rewrite Z.div_mul by lia. now rewrite <- Hc. }
  rewrite Hr.
  destruct (2 * 0 <? 2 ^ k)%Z eqn:E1; [|apply Z.ltb_ge in E1; lia].
  rewrite Hq.
  assert (Hbig : (2 ^ (53 + j) < 2 ^ 2098)%Z)
    by (apply Z.pow_lt_mono_r; lia).
  destruct (2 ^ 2098 <=? Z.abs s)%Z eqn:E2; [apply Z.leb_le in E2; lia|].
  f_equal. destruct s; simpl; lia.
Qed.

Lemma nadd_exact j x y :
  (0 <= j <= 2044)%Z -> (x mod 2 ^ j = 0)%Z -> (y mod 2 ^ j = 0)%Z ->
  (Z.abs (x + y) <= 2 ^ (53 + j))%Z ->
  nadd (Fin x) (Fin y) = Fin (x + y).
Proof.
  intros Hj Hx Hy Hle. simpl.
  destruct (x =? 0)%Z eqn:Ex; [apply Z.eqb_eq in Ex; now subst|].
  destruct (y =? 0)%Z eqn:Ey;
    [apply Z.eqb_eq in Ey; subst; now rewrite Z.add_0_r|].
  apply (round64_exact j); try assumption.
  rewrite Z.add_mod, Hx, Hy by (apply Z.pow_nonzero; lia).
  apply Z.mod_0_l. apply Z.pow_nonzero; lia.
Qed.

Lemma on_grid_spec j p :
  on_grid j p = true ->
  exists z, width p = Some (Fin z) /\ (z mod 2 ^ j = 0)%Z /\ width_z p = z.
Proof.
  unfold on_grid, width_z. destruct (width p) as [[z| | |]|]; try discriminate.
  intros H. apply Z.eqb_eq in H. eauto.
Qed.

Lemma sum_abs_nonneg l : (0 <= sum_abs l)%Z.
Proof. induction l; unfold sum_abs in *; simpl; lia. Qed.

Lemma sum_widths_from_exact j l :
  (0 <= j <= 2044)%Z ->
  Forall (fun p => on_grid j p = true) l ->
  forall a, (a mod 2 ^ j = 0)%Z ->
            (Z.abs a + sum_abs l <= 2 ^ (53 + j))%Z ->
            sum_widths_from (Fin a) l = Fin (a + sum_z l).
Proof.
  intros Hj. induction 1 as [|p l Hp Hl IH]; intros a Ha Hle.
  - unfold sum_widths_from, sum_z. simpl. f_equal. lia.
  - destruct (on_grid_spec j p Hp) as (z & Hw & Hz & Hwz).
    pose proof (sum_abs_nonneg l) as Hpos.
    change (sum_abs (p :: l)) with (Z.abs (width_z p) + sum_abs l)%Z in Hle.
    change (sum_z (p :: l)) with (width_z p + sum_z l)%Z.
    rewrite Hwz in *.
    unfold sum_widths_from. cbn [fold_left]. rewrite Hw. cbn [nadd_opt].
    rewrite (nadd_exact j) by (assumption || lia).
    fold (sum_widths_from (Fin (a + z)) l). rewrite IH.
    + f_equal. lia.
    + rewrite Z.add_mod, Ha, Hz by (apply Z.pow_nonzero; lia).
      apply Z.mod_0_l. apply Z.pow_nonzero; lia.
    + lia.
Qed.

Lemma or_zero_Fin z : or_zero (Some (Fin z)) = Fin z.
Proof.
  simpl. destruct (z =? 0)%Z eqn:E; [|reflexivity].
  apply Z.eqb_eq in E. now subst.
Qed.

Lemma fuse_into_exact j p q :
  (0 <= j <= 2044)%Z ->
  on_grid j p = true -> on_grid j q = true ->
  (Z.abs (width_z p) + Z.abs (width_z q) <= 2 ^ (53 + j))%Z ->
  on_grid j (fuse_into p q) = true
  /\ width_z (fuse_into p q) = (width_z p + width_z q)%Z.
Proof.
  intros Hj Hp Hq Hle.
  destruct (on_grid_spec j p Hp) as (a & Ha & Hma & Hza).
  destruct (on_grid_spec j q Hq) as (b & Hb & Hmb & Hzb).
  rewrite Hza, Hzb in *.
  assert (Hw : width (fuse_into p q) = Some (Fin (a + b))).
  { unfold fuse_into. cbn [width]. rewrite Ha, Hb, !or_zero_Fin.
    rewrite (nadd_exact j) by (assumption || lia). reflexivity. }
  unfold on_grid, width_z. rewrite Hw. split; [|reflexivity].
  apply Z.eqb_eq.
  rewrite Z.add_mod, Hma, Hmb by (apply Z.pow_nonzero; lia).
  apply Z.mod_0_l. apply Z.pow_nonzero; lia.
Qed.

Lemma fuse_loop_exact j rest :
  (0 <= j <= 2044)%Z ->
  forall p,
    on_grid j p = true ->
    Forall (fun q => on_grid j q = true) rest ->
    (Z.abs (width_z p) + sum_abs rest <= 2 ^ (53 + j))%Z ->
    Forall (fun q => on_grid j q = true) (fuse_loop p p [] rest)
    /\ sum_z (fuse_loop p p [] rest) = (width_z p + sum_z rest)%Z
    /\ (sum_abs (fuse_loop p p [] rest)
        <= Z.abs (width_z p) + sum_abs rest)%Z.
Proof.
  intros Hj. induction rest as [|q rest IH]; intros p Hp Hrest Hle.
  - cbn [fuse_loop app]. split; [repeat constructor; assumption|].
    unfold sum_z, sum_abs. simpl. lia.
  - inversion Hrest as [|? ? Hq Hrest']; subst.
    pose proof (sum_abs_nonneg rest) as Hpos.
    assert (Hcons : sum_abs (q :: rest)
                    = (Z.abs (width_z q) + sum_abs rest)%Z) by reflexivity.
    assert (Hconz : sum_z (q :: rest) = (width_z q + sum_z rest)%Z)
      by reflexivity.
    rewrite Hcons in *. rewrite Hconz.
    rewrite fuse_loop_step. destruct (same_attributes p q).
    + destruct (fuse_into_exact j p q Hj Hp Hq) as [Hf Hz]; [lia|].
      destruct (IH _ Hf Hrest') as (H1 & H2 & H3); [rewrite Hz; lia|].
      split; [assumption|]. rewrite H2, Hz. split; lia.
    + destruct (IH _ Hq Hrest') as (H1 & H2 & H3); [lia|].
      split; [constructor; assumption|].
      change (sum_z (p :: fuse_loop q q [] rest))
        with (width_z p + sum_z (fuse_loop q q [] rest))%Z.
      change (sum_abs (p :: fuse_loop q q [] rest))
        with (Z.abs (width_z p) + sum_abs (fuse_loop q q [] rest))%Z.
      split; lia.
Qed.

Lemma exact_widths_spec j l :
  exact_widths j l = true ->
  (0 <= j <= 2044)%Z
  /\ Forall (fun p => on_grid j p = true) l
  /\ (sum_abs l <= 2 ^ (53 + j))%Z.
Proof.
  unfold exact_widths. rewrite !andb_true_iff, !Z.leb_le, forallb_forall.
  intros [[[H1 H2] H3] H4]. split; [lia|]. split; [|assumption].
  now apply Forall_forall.
Qed.

(** When no addition rounds, fusion regroups the same exact sum. *)
Lemma fuse_exact j l :
  exact_widths j l = true ->
  exact_widths j (_fuseStructuredTextParts l) = true
  /\ sum_widths (_fuseStructuredTextParts l) = sum_widths l.
Proof.
  intros H. destruct (exact_widths_spec j l H) as (Hj & Hgrid & Hle).
  assert (Hsum : forall l', Forall (fun p => on_grid j p = true) l' ->
                            (sum_abs l' <= 2 ^ (53 + j))%Z ->
                            sum_widths l' = Fin (sum_z l')).
  { intros l' Hg Hb. unfold sum_widths.
    rewrite (sum_widths_from_exact j) by (assumption || simpl; lia
                                          || (apply Z.mod_0_l;
                                              apply Z.pow_nonzero; lia)).
    reflexivity. }
  destruct l as [|p rest]; [split; [assumption|reflexivity]|].
  inversion Hgrid as [|? ? Hp Hrest]; subst. rewrite fuse_cons.
  destruct (fuse_loop_exact j rest Hj p Hp Hrest) as (H1 & H2 & H3).
  { exact Hle. }
  change (sum_abs (p :: rest)) with (Z.abs (width_z p) + sum_abs rest)%Z
    in Hle.
  split.
  - unfold exact_widths. rewrite !andb_true_iff, !Z.leb_le, forallb_forall.
    repeat split; try lia. now apply Forall_forall.
  - rewrite (Hsum _ H1) by lia. rewrite (Hsum _ Hgrid) by exact Hle.
    f_equal. exact H2.
Qed.

(** C3 as stated fails.  With the cached widths 0.1, 0.2 and 0.3, the last
    two runs merging, the widths of the input sum to 0.6000000000000001 and
    those of the output to 0.6: fusion adds the same widths in another
    grouping, and binary64 addition rounds.  And a cached width [NaN] is
    read as 0 when its run is merged, while it makes the sum of the input
    [NaN]. *)
Lemma fuse_changes_total_width :
  (let l :=
     [ set_width (red (str "A") 0) (Some (binary64 3602879701896397 (-55)));
       set_width (blue (str "B") 0) (Some (binary64 3602879701896397 (-54)));
       set_width (blue (str "C") 0) (Some (binary64 5404319552844595 (-54)))
     ] in
   sum_widths l = binary64 1351079888211149 (-51)
   /\ sum_widths (_fuseStructuredTextParts l)
      = binary64 5404319552844595 (-53)
   /\ sum_widths (_fuseStructuredTextParts l) <> sum_widths l)
  /\ (let l := [set_width (red (str "A") 0) (Some NaN); red (str "B") 5] in
      sum_widths l = NaN
      /\ sum_widths (_fuseStructuredTextParts l) = Fin 5).
Proof. vm_compute. repeat split; discriminate. Qed.

(** C3, amended: fusion preserves the concatenation of the texts of any
    input, and it preserves the sum of the widths when no addition of them
    rounds: when the cached widths are finite whole multiples of one power
    of two, from 2^-1074 to 2^970, whose absolute values sum to at most
    2^53 of these (widths in whole pixels, say). *)
Theorem fuse_preserves_width_and_text (structuredText : StructuredText) :
  concat_text (_fuseStructuredTextParts structuredText)
  = concat_text structuredText
  /\ forall j,
       exact_widths j structuredText = true ->
       sum_widths (_fuseStructuredTextParts structuredText)
       = sum_widths structuredText.
Proof.
  split; [apply fuse_text|].
  intros j H. now destruct (fuse_exact j structuredText H).
Qed.

Lemma fuse_preserves_width_and_text_witness :
  let l :=
    [ set_width (red (str "AB") 0) (Some (of_int 20));
      set_width (red (str "CD") 0) (Some (of_int 21));
      set_width (blue (str "E") 0) (Some (of_int 9)) ] in
  sum_widths (_fuseStructuredTextParts l) = sum_widths l.
Proof.
  intros l.
  apply (proj2 (fuse_preserves_width_and_text l) 1074%Z).
  vm_compute. reflexivity.
Defined.

Example fuse_example :
  _fuseStructuredTextParts
    [red (str "AB") 20; red (str "CD") 21; blue (str "E") 9]
  = [red (str "ABCD") 41; blue (str "E") 9].
Proof. reflexivity. Qed.

(** C4: fusion returns an input of length 0 or 1 unchanged; on a longer
    input it merges the first two runs (texts concatenated, widths summed)
    exactly when [same_attributes] holds, which is the strict equality of
    the eleven stored override fields, and otherwise keeps the first run
    and goes on from the second; the concatenated text, hence the order of
    the runs and every non-empty text, is preserved. *)
Theorem fuse_merges_iff_same_attributes :
  _fuseStructuredTextParts [] = []
  /\ (forall p, _fuseStructuredTextParts [p] = [p])
  /\ (forall p q rest,
        _fuseStructuredTextParts (p :: q :: rest)
        = if same_attributes p q
          then _fuseStructuredTextParts (fuse_into p q :: rest)
          else p :: _fuseStructuredTextParts (q :: rest))
  /\ (forall p q,
        text (fuse_into p q) = text p ++ text q
        /\ width (fuse_into p q)
           = Some (nadd (or_zero (width p)) (or_zero (width q)))
        /\ attributes_of (fuse_into p q) = attributes_of p)
  /\ (forall p q,
        same_attributes p q = true <->
        opt_strict_eq color_strict_eq (color p) (color q) = true
        /\ opt_strict_eq number_strict_eq (outlineWidth p) (outlineWidth q)
           = true
        /\ opt_strict_eq jsstring_eqb (outlineColor p) (outlineColor q) = true
        /\ opt_strict_eq jsstring_eqb (shadowColor p) (shadowColor q) = true
        /\ opt_strict_eq number_strict_eq (shadowBlur p) (shadowBlur q) = true
        /\ opt_strict_eq number_strict_eq (shadowOffsetX p) (shadowOffsetX q)
           = true
        /\ opt_strict_eq number_strict_eq (shadowOffsetY p) (shadowOffsetY q)
           = true
        /\ opt_strict_eq Bool.eqb (underline p) (underline q) = true
        /\ opt_strict_eq Bool.eqb (lineThrough p) (lineThrough q) = true
        /\ opt_strict_eq jsstring_eqb (fontStyle p) (fontStyle q) = true
        /\ opt_strict_eq jsstring_eqb (fontWeight p) (fontWeight q) = true)
  /\ (forall l,
        concat_text (_fuseStructuredTextParts l) = concat_text l).
Proof.
  split; [reflexivity|]. split; [reflexivity|]. split.
  { intros p q rest. rewrite !fuse_cons. apply fuse_loop_step. }
  split.
  { intros p q. repeat split. }
  split.
  { intros p q. unfold same_attributes. rewrite !andb_true_iff. tauto. }
  exact fuse_text.
Qed.

(* ===================================================================== *)
(** * The default word splitter *)
(* ===================================================================== *)

Example split_example :
  _defaultWordSplittingFunction (str "ab  cd e ")
  = [str "ab"; str "  cd"; str " e"; str " "].
Proof. vm_compute. reflexivity. Qed.

Lemma firstn_slice s : forall from to,
  from <= to -> firstn from s ++ slice s from to = firstn to s.
Proof.
  unfold slice. induction s as [|c s IH]; intros from to H.
  - now rewrite skipn_nil, !firstn_nil.
  - destruct from as [|from]; simpl.
    + now rewrite Nat.sub_0_r.
    + destruct to as [|to]; [lia|]. simpl. f_equal. apply IH. lia.
Qed.

Lemma split_loop_concat str_ regexpLastIndex lastIndex splitted :
  lastIndex <= regexpLastIndex ->
  concat splitted = firstn lastIndex str_ ->
  let '(lastIndex', splitted') :=
    split_loop str_ regexpLastIndex lastIndex splitted in
  concat splitted' = firstn lastIndex' str_.
Proof.
  funelim (split_loop str_ regexpLastIndex lastIndex splitted);
    intros Hle Hcat.
  - pose proof (regexp_exec_bounds _ _ _ _ e) as Hb.
    match goal with IH : _ -> _ -> _ |- _ => apply IH end; [lia|].
    destruct (Nat.ltb_spec lastIndex index).
    + rewrite concat_app, Hcat. simpl. rewrite app_nil_r.
      apply firstn_slice. lia.
    + replace index with lastIndex by lia. exact Hcat.
  - exact Hcat.
Qed.

Lemma defaultWordSplittingFunction_concat str_ :
  concat (_defaultWordSplittingFunction str_) = str_.
Proof.
  unfold _defaultWordSplittingFunction.
  match goal with
  | |- context [split_loop ?s ?k ?i ?l] =>
      pose proof (split_loop_concat s k i l (le_n 0) eq_refl) as H;
      destruct (split_loop s k i l) as [lastIndex splitted]
  end.
  destruct (Nat.ltb_spec lastIndex (length str_)).
  - rewrite concat_app, H. simpl. rewrite app_nil_r.
    rewrite firstn_slice by lia. apply firstn_all.
  - rewrite H. apply firstn_all2. lia.
Qed.

Lemma find_space_split s : forall offset index,
  find_space s offset = Some index ->
  exists w rest,
    s = w ++ rest /\ no_space w = true /\ index = offset + length w
    /\ 1 <= count_spaces rest.
Proof.
  induction s as [|c s IH]; simpl; intros offset index H; [discriminate|].
  destruct (is_space c) eqn:E.
  - inversion H; subst. exists [], (c :: s). simpl. rewrite E.
    repeat split; lia.
  - apply IH in H. destruct H as (w & rest & -> & Hw & -> & Hc).
    exists (c :: w), rest. simpl. rewrite E, Hw. repeat split; simpl; lia.
Qed.

Lemma find_space_none s : forall offset,
  find_space s offset = None -> no_space s = true.
Proof.
  induction s as [|c s IH]; simpl; intros offset H; [reflexivity|].
  destruct (is_space c); [discriminate|]. simpl. eauto.
Qed.

Lemma count_spaces_split s :
  all_spaces (firstn (count_spaces s) s) = true
  /\ count_spaces (skipn (count_spaces s) s) = 0.
Proof.
  induction s as [|c s [IH1 IH2]]; simpl; [auto|].
  destruct (is_space c) eqn:E; simpl; rewrite ?E; auto.
Qed.

Lemma count_spaces_app sp w :
  all_spaces sp = true -> count_spaces w = 0 ->
  count_spaces (sp ++ w) = length sp.
Proof.
  induction sp as [|c sp IH]; simpl; intros H Hw; [assumption|].
  apply andb_true_iff in H. destruct H as [-> H]. f_equal. auto.
Qed.

Lemma no_space_count w : no_space w = true -> count_spaces w = 0.
Proof.
  destruct w as [|c w]; simpl; [reflexivity|].
  destruct (is_space c); simpl; [discriminate | reflexivity].
Qed.

Lemma token_shape_app sp w :
  all_spaces sp = true -> no_space w = true ->
  token_shape (sp ++ w) = true
  /\ count_spaces (sp ++ w) = length sp.
Proof.
  intros Hs Hw. pose proof (count_spaces_app _ _ Hs (no_space_count _ Hw)) as H.
  unfold token_shape. rewrite H. split; [|reflexivity].
  now rewrite skipn_app, skipn_all, Nat.sub_diag.
Qed.

Lemma regexp_exec_some str_ k index k' :
  regexp_exec str_ k = Some (index, k') ->
  exists w sp rest,
    skipn k str_ = w ++ sp ++ rest
    /\ no_space w = true /\ all_spaces sp = true /\ sp <> []
    /\ count_spaces rest = 0
    /\ index = k + length w /\ k' = index + length sp.
Proof.
  unfold regexp_exec. intros H.
  destruct (find_space (skipn k str_) k) as [i|] eqn:E; [|discriminate].
  inversion H; subst; clear H.
  apply find_space_split in E.
  destruct E as (w & rest0 & Hsplit & Hw & -> & Hc).
  assert (Hrest : skipn (k + length w) str_ = rest0).
  { rewrite Nat.add_comm, <- skipn_skipn, Hsplit.
    now rewrite skipn_app, skipn_all, Nat.sub_diag. }
  rewrite Hrest. destruct (count_spaces_split rest0) as [Hsp Hr].
  exists w, (firstn (count_spaces rest0) rest0),
         (skipn (count_spaces rest0) rest0).
  rewrite firstn_skipn. repeat split; auto.
  - intros Hnil. apply (f_equal (@length char)) in Hnil.
    rewrite length_firstn in Hnil. simpl in Hnil.
    pose proof (count_spaces_le rest0). lia.
  - rewrite length_firstn. pose proof (count_spaces_le rest0). lia.
Qed.

Lemma regexp_exec_none str_ k :
  regexp_exec str_ k = None -> no_space (skipn k str_) = true.
Proof.
  unfold regexp_exec. intros H.
  destruct (find_space (skipn k str_) k) eqn:E; [discriminate|].
  eapply find_space_none; eauto.
Qed.

Lemma skipn_two_prefixes {A} (a b c : list A) :
  skipn (length a + length b) (a ++ b ++ c) = c.
Proof.
  rewrite app_assoc, <- length_app.
  now rewrite skipn_app, skipn_all, Nat.sub_diag.
Qed.

Lemma slice_middle (pre t rest : jsstring) :
  slice (pre ++ t ++ rest) (length pre) (length pre + length t) = t.
Proof.
  unfold slice. replace (length pre + length t - length pre) with (length t)
    by lia.
  rewrite skipn_app, skipn_all, Nat.sub_diag. simpl.
  now rewrite firstn_app, firstn_all, Nat.sub_diag, firstn_0, app_nil_r.
Qed.

Lemma starts_with_space_app sp w :
  all_spaces sp = true -> sp <> [] -> starts_with_space (sp ++ w) = true.
Proof.
  destruct sp as [|c sp]; simpl; intros H Hn; [congruence|].
  now apply andb_true_iff in H.
Qed.

Lemma loop_token_app mid w :
  all_spaces mid = true -> no_space w = true -> w <> [] ->
  loop_token (mid ++ w).
Proof.
  intros Hm Hw Hn. destruct (token_shape_app _ _ Hm Hw) as [Hs Hc].
  repeat split; auto.
  - intros H. apply app_eq_nil in H. tauto.
  - unfold has_word. rewrite Hc, length_app. apply Nat.ltb_lt.
    destruct w; [congruence|simpl; lia].
Qed.

Lemma split_loop_shape str_ k lastIndex splitted :
  forall pre mid suf,
    str_ = pre ++ mid ++ suf ->
    lastIndex = length pre ->
    k = length pre + length mid ->
    all_spaces mid = true ->
    (mid <> [] -> count_spaces suf = 0) ->
    (mid = [] -> pre = []) ->
    exists toks mid' suf',
      split_loop str_ k lastIndex splitted
      = (length pre + length (concat toks), splitted ++ toks)
      /\ str_ = (pre ++ concat toks) ++ mid' ++ suf'
      /\ all_spaces mid' = true /\ no_space suf' = true
      /\ Forall loop_token toks
      /\ (mid <> [] ->
          Forall (fun t => starts_with_space t = true) toks /\ mid' <> [])
      /\ Forall (fun t => starts_with_space t = true) (tl toks)
      /\ (toks <> [] -> mid' <> []).
Proof.
  funelim (split_loop str_ k lastIndex splitted);
    intros pre mid suf Hstr Hlast Hk Hmid Hsuf Hfirst.
  - (* a match *)
    destruct (regexp_exec_some _ _ _ _ e)
      as (w & sp & rest & Hskip & Hw & Hsp & Hspn & Hrest & Hindex & Hk').
    assert (Hsufeq : suf = w ++ sp ++ rest).
    { rewrite <- Hskip, Hk, Hstr. now rewrite skipn_two_prefixes. }
    assert (Hwn : mid <> [] -> w <> []).
    { intros Hm Hwnil. specialize (Hsuf Hm).
      subst w. simpl in Hsufeq. subst suf.
      destruct sp as [|c sp]; [congruence|]. simpl in Hsp, Hsuf.
      apply andb_true_iff in Hsp. destruct Hsp as [Hc _].
      rewrite Hc in Hsuf. discriminate. }
    assert (Hslice : slice str_ lastIndex index = mid ++ w).
    { rewrite Hstr, Hsufeq, Hlast, Hindex, Hk.
      replace (pre ++ mid ++ w ++ sp ++ rest)
        with (pre ++ (mid ++ w) ++ sp ++ rest)
        by now rewrite <- !app_assoc.
      rewrite <- Nat.add_assoc, <- length_app. apply slice_middle. }
    destruct (Nat.ltb_spec lastIndex index) as [Hlt|Hge].
    + (* the token [mid ++ w] is pushed *)
      assert (Hw' : w <> []).
      { destruct mid as [|c mid]; [|apply Hwn; discriminate].
        intros ->. simpl in *. lia. }
      match goal with
      | IH : forall pre mid suf, _ |- _ =>
          destruct (IH (pre ++ mid ++ w) sp rest)
            as (toks & mid' & suf' & Heq & Hstr' & Hm' & Hs' & Htoks
                & Hsw & _ & _)
      end.
      * rewrite Hstr, Hsufeq. now rewrite <- !app_assoc.
      * rewrite Hindex, Hk, !length_app. lia.
      * rewrite Hk', Hindex, Hk, !length_app. lia.
      * assumption.
      * intros _. assumption.
      * intros; congruence.
      * destruct (Hsw Hspn) as [Hsw1 Hsw2].
        exists ((mid ++ w) :: toks), mid', suf'.
        split.
        { rewrite Heq, Hslice. simpl. rewrite !length_app.
          rewrite <- !app_assoc. simpl. f_equal. lia. }
        split.
        { rewrite Hstr'. simpl. now rewrite <- !app_assoc. }
        split; [assumption|]. split; [assumption|].
        split.
        { constructor; [|assumption]. now apply loop_token_app. }
        split.
        { intros Hm. split; [|assumption].
          constructor; [|assumption]. now apply starts_with_space_app. }
        split; [exact Hsw1|]. intros _. assumption.
    + (* nothing to push: only before the first match *)
      assert (Hmw : mid = [] /\ w = []).
      { rewrite Hindex, Hk, Hlast in Hge.
        destruct mid, w; simpl in *; try lia. auto. }
      destruct Hmw as [-> ->]. rewrite (Hfirst eq_refl) in *.
      simpl in *.
      match goal with
      | IH : forall pre mid suf, _ |- _ =>
          destruct (IH [] sp rest)
            as (toks & mid' & suf' & Heq & Hstr' & Hm' & Hs' & Htoks
                & Hsw & _ & _)
      end.
      * simpl. congruence.
      * simpl. lia.
      * simpl. lia.
      * assumption.
      * intros _. assumption.
      * intros; congruence.
      * destruct (Hsw Hspn) as [Hsw1 Hsw2].
        exists toks, mid', suf'. simpl in *.
        split; [exact Heq|]. split; [exact Hstr'|].
        split; [assumption|]. split; [assumption|].
        split; [assumption|].
        split; [intros; congruence|].
        split; [|intros _; assumption].
        destruct toks; simpl; [constructor|].
        now inversion Hsw1.
  - (* no match *)
    exists [], mid, suf. simpl. rewrite app_nil_r, Nat.add_0_r.
    split; [now rewrite Hlast|]. split; [now rewrite app_nil_r|].
    split; [assumption|].
    split.
    { pose proof (regexp_exec_none _ _ e) as Hnone.
      rewrite Hk, Hstr, skipn_two_prefixes in Hnone. exact Hnone. }
    split; [constructor|].
    split; [intros Hm; split; [constructor|assumption]|].
    split; [constructor|]. congruence.
Qed.

(** C5: the tokens of the default splitter concatenate to the input.  Every
    token is a run of spaces followed by characters that are not spaces and
    is not empty; every token but the first starts with a space (the run of
    spaces is attached to the token that follows it) and every token but the
    last has a character that is not a space (a run of spaces is never cut),
    so the cuts are exactly the starts of the maximal runs of spaces. *)
Theorem defaultWordSplittingFunction_lossless (str_ : jsstring) :
  concat (_defaultWordSplittingFunction str_) = str_
  /\ Forall (fun t => t <> [] /\ token_shape t = true)
       (_defaultWordSplittingFunction str_)
  /\ Forall (fun t => starts_with_space t = true)
       (tl (_defaultWordSplittingFunction str_))
  /\ Forall (fun t => has_word t = true)
       (removelast (_defaultWordSplittingFunction str_)).
Proof.
  split; [apply defaultWordSplittingFunction_concat|].
  unfold _defaultWordSplittingFunction.
  match goal with
  | |- context [split_loop ?s ?k ?i ?l] =>
      destruct (split_loop_shape s k i l [] [] s)
        as (toks & mid' & suf' & Heq & Hstr & Hm & Hs & Htoks & _ & Htl
            & Hlast);
      try reflexivity; try congruence
  end.
  rewrite Heq. simpl in *.
  assert (Hshape : Forall (fun t => t <> [] /\ token_shape t = true) toks).
  { eapply Forall_impl; [|exact Htoks]. unfold loop_token. tauto. }
  assert (Hword : Forall (fun t => has_word t = true) toks).
  { eapply Forall_impl; [|exact Htoks]. unfold loop_token. tauto. }
  assert (Hlen : length str_
                 = length (concat toks) + length (mid' ++ suf')).
  { rewrite Hstr at 1. now rewrite length_app. }
  assert (Hslice : slice str_ (length (concat toks)) (length str_)
                   = mid' ++ suf').
  { pose proof (slice_middle (concat toks) (mid' ++ suf') []) as Hsl.
    rewrite app_nil_r, <- Hstr, <- Hlen in Hsl. exact Hsl. }
  destruct (Nat.ltb_spec (length (concat toks)) (length str_)) as [Hlt|Hge].
  - rewrite Hslice. split; [|split].
    + apply Forall_app. split; [assumption|]. constructor; [|constructor].
      split.
      * intros Hnil. rewrite Hnil in Hlen. simpl in Hlen. lia.
      * apply token_shape_app; assumption.
    + destruct toks as [|t toks]; simpl; [constructor|].
      apply Forall_app. split; [exact Htl|].
      constructor; [|constructor].
      apply starts_with_space_app; [assumption|]. apply Hlast. discriminate.
    + rewrite removelast_last. assumption.
  - split; [assumption|]. split; [assumption|].
    destruct toks as [|t toks] using rev_ind; [constructor|].
    rewrite removelast_last. apply Forall_app in Hword. tauto.
Qed.

(* ===================================================================== *)
(** * The newline pre-pass *)
(* ===================================================================== *)

Lemma push_fragments _part segs :
  forall done _currentLine,
    fold_left (push_fragment _part) segs (done, _currentLine)
    = match segs with
      | [] => (done, _currentLine)
      | seg :: segs' =>
          (done ++ (_currentLine ++ [set_text _part seg])
                   :: List.map (fun t => [set_text _part t]) segs',
           [])
      end.
Proof.
  induction segs as [|seg segs IH]; intros done _currentLine;
    [reflexivity|].
  simpl. rewrite IH. destruct segs as [|seg' segs]; [reflexivity|].
  simpl. now rewrite <- app_assoc.
Qed.

Lemma split_newline_nonempty s : split_newline s <> [].
Proof.
  induction s as [|c s IH]; simpl; [discriminate|].
  destruct (N.eqb c NEWLINE); [discriminate|].
  destruct (split_newline s); discriminate.
Qed.

(** The general form of the defect: a run whose text has a newline gives
    one group per segment and one more, empty, group. *)
Lemma newline_groups_trailing_group _part :
  includes_newline (text _part) = true ->
  newline_groups [_part]
  = List.map (fun t => [set_text _part t]) (split_newline (text _part))
    ++ [[]].
Proof.
  intros H. unfold newline_groups. simpl. unfold push_part. rewrite H.
  rewrite push_fragments.
  pose proof (split_newline_nonempty (text _part)) as Hne.
  destruct (split_newline (text _part)) as [|seg segs]; [congruence|].
  reflexivity.
Qed.

(** C1, evaluated where it fails: for the single run ["hello\nworld"] the
    pre-pass makes three groups, the third one empty, and every policy
    emits three lines, ["hello"], ["world"] and a line without runs; the
    plain-text path splits the same text in two. *)
Theorem breakStructuredTextLines_hello_world :
  newline_groups [hello_world]
  = [[plain (str "hello")]; [plain (str "world")]; []]
  /\ (forall mode,
        List.map line_texts
          (snd (_breakStructuredTextLines measure10
                  (example_block [hello_world] mode) (Fin 1000) context0))
        = [[str "hello"]; [str "world"]; []])
  /\ split_newline (text hello_world) = [str "hello"; str "world"].
Proof.
  split; [reflexivity|]. split; [|reflexivity].
  intros mode. destruct mode; vm_compute; reflexivity.
Qed.

(* ===================================================================== *)
(** * WordWrap *)
(* ===================================================================== *)

Section WordWrapProperties.

Variable measureText : jsstring -> jsstring -> number.
Variable this : TextBlock.

Local Abbreviation M := (measured measureText this).
Local Abbreviation restart := (restarted measureText this).

Lemma measured_text p : text (M p) = text p.
Proof. unfold measured. destruct (width p); reflexivity. Qed.

Lemma measured_is_measured p : is_measured (M p).
Proof.
  unfold measured, is_measured. destruct (width p) eqn:E; simpl; congruence.
Qed.

Lemma measured_id p : is_measured p -> M p = p.
Proof.
  unfold measured, is_measured. destruct (width p); [reflexivity|congruence].
Qed.

Lemma map_measured_id l : Forall is_measured l -> List.map M l = l.
Proof.
  induction 1 as [|p l Hp Hl IH]; simpl; [reflexivity|].
  now rewrite IH, measured_id.
Qed.

Lemma map_measured_all l : Forall is_measured (List.map M l).
Proof. induction l; simpl; constructor; auto using measured_is_measured. Qed.

Lemma restarted_text w : text (restart w) = trimStart (text w).
Proof. unfold restarted. now rewrite measured_text, measured_text. Qed.

(** The body of the loop, with the width adapter read through its
    specification. *)
Lemma wordwrap_step_spec width_ st _word :
  Forall is_measured (ww_testLine st) ->
  exists context',
    wordwrap_step measureText this width_ st _word
    = if ngt (sum_widths (ww_testLine st ++ [M _word])) width_
         && Nat.ltb 1 (length (ww_testLine st ++ [M _word]))
      then mkWW
             (ww_lines st
              ++ [ {| parts := _fuseStructuredTextParts (ww_testLine st);
                      lineWidth := Some (ww_testWidth st) |} ])
             (ww_testWidth st) (sum_widths [restart _word])
             [restart _word] context'
      else mkWW (ww_lines st) (ww_testWidth st)
             (sum_widths (ww_testLine st ++ [M _word]))
             (ww_testLine st ++ [M _word]) context'.
Proof.
  intros Hm. unfold wordwrap_step.
  destruct (_structuredTextWidth_spec measureText this
              (ww_testLine st ++ [_word]) (ww_context st))
    as (context1 & -> & _).
  rewrite map_app, (map_measured_id _ Hm). cbn [List.map].
  destruct (ngt (sum_widths (ww_testLine st ++ [M _word])) width_
            && Nat.ltb 1 (length (ww_testLine st ++ [M _word]))).
  - rewrite last_last, removelast_last.
    match goal with
    | |- context [_structuredTextWidth _ _ ?l ?c] =>
        destruct (_structuredTextWidth_spec measureText this l c)
          as (context2 & -> & _)
    end.
    exists context2. reflexivity.
  - exists context1. reflexivity.
Qed.

Lemma trim_heads_snoc done cur :
  trim_heads (done ++ [cur]) = trim_heads done ++ [current_shown done cur].
Proof.
  destruct done as [|c cs]; simpl; [reflexivity|].
  now rewrite map_app.
Qed.

Lemma trim_head_snoc cur w :
  cur <> [] -> trim_head (cur ++ [w]) = trim_head cur ++ [w].
Proof. destruct cur; simpl; congruence. Qed.

Lemma wordwrap_fold_partition width_ words :
  forall st done cur,
    Forall is_measured (ww_testLine st) ->
    Forall (fun c => c <> []) done ->
    Forall2 same_text (ww_lines st) (trim_heads done) ->
    List.map text (ww_testLine st) = List.map text (current_shown done cur) ->
    (done <> [] -> cur <> []) ->
    exists done' cur',
      concat done' ++ cur' = (concat done ++ cur) ++ words
      /\ Forall (fun c => c <> []) done'
      /\ Forall2 same_text
           (ww_lines (fold_left (wordwrap_step measureText this width_)
                        words st))
           (trim_heads done')
      /\ List.map text
           (ww_testLine (fold_left (wordwrap_step measureText this width_)
                           words st))
         = List.map text (current_shown done' cur')
      /\ (cur <> [] \/ words <> [] -> cur' <> []).
Proof.
  induction words as [|w ws IH]; intros st done cur Hm Hdone Hlines Hcur Hne.
  - exists done, cur. simpl. rewrite app_nil_r.
    repeat split; auto. intros [H|H]; congruence.
  - simpl.
    destruct (wordwrap_step_spec width_ st w Hm) as (context' & ->).
    destruct (ngt (sum_widths (ww_testLine st ++ [M w])) width_
              && Nat.ltb 1 (length (ww_testLine st ++ [M w]))) eqn:Hbreak.
    + (* the candidate is closed and [w] starts a new one *)
      apply andb_true_iff in Hbreak. destruct Hbreak as [_ Hlen].
      apply Nat.ltb_lt in Hlen. rewrite length_app in Hlen. simpl in Hlen.
      assert (Hcurne : cur <> []).
      { intros ->. destruct done; simpl in Hcur;
          destruct (ww_testLine st); simpl in *; try discriminate; lia. }
      destruct (IH (mkWW
                      (ww_lines st
                       ++ [ {| parts :=
                                 _fuseStructuredTextParts (ww_testLine st);
                               lineWidth := Some (ww_testWidth st) |} ])
                      (ww_testWidth st) (sum_widths [restart w])
                      [restart w] context')
                  (done ++ [cur]) [w])
        as (done' & cur' & Hcat & Hd & Hl & Hc & Hn).
      * simpl. constructor; [apply measured_is_measured | constructor].
      * apply Forall_app. split; [assumption|]. now constructor.
      * simpl. rewrite trim_heads_snoc. apply Forall2_app; [assumption|].
        constructor; [|constructor].
        unfold same_text. simpl. rewrite fuse_text.
        unfold concat_text. now rewrite Hcur.
      * cbn [ww_testLine List.map]. rewrite restarted_text.
        destruct done; reflexivity.
      * intros _. discriminate.
      * exists done', cur'. split.
        { rewrite Hcat, concat_app. simpl.
          now rewrite app_nil_r, <- !app_assoc. }
        repeat split; auto. intros _. apply Hn. left. discriminate.
    + (* [w] stays on the candidate *)
      destruct (IH (mkWW (ww_lines st) (ww_testWidth st)
                      (sum_widths (ww_testLine st ++ [M w]))
                      (ww_testLine st ++ [M w]) context')
                  done (cur ++ [w]))
        as (done' & cur' & Hcat & Hd & Hl & Hc & Hn).
      * simpl. apply Forall_app. split; [assumption|].
        constructor; [apply measured_is_measured | constructor].
      * assumption.
      * assumption.
      * simpl. rewrite map_app. simpl. rewrite measured_text, Hcur.
        destruct done as [|c cs]; simpl.
        { now rewrite map_app. }
        { rewrite trim_head_snoc by (apply Hne; discriminate).
          now rewrite map_app. }
      * intros _. destruct cur; discriminate.
      * exists done', cur'. split.
        { rewrite Hcat. now rewrite <- !app_assoc. }
        repeat split; auto. intros _. apply Hn. left.
        destruct cur; discriminate.
Qed.

(** C7: WordWrap is a total function, and on a non-empty token stream it
    cuts the stream into consecutive non-empty chunks, one per emitted line
    and in order: every token lies in exactly one chunk, and the text of a
    line is the concatenation of the texts of the tokens of its chunk, the
    first token of every line but the first being left-trimmed.  This holds
    for every target width. *)
Theorem wordwrap_places_every_token line width_ context :
  split_words this line <> [] ->
  exists chunks,
    concat chunks = split_words this line
    /\ Forall (fun c => c <> []) chunks
    /\ Forall2 (fun l chunk => concat_text (parts l) = concat_text chunk)
         (snd (_parseStructuredTextLineWordWrap measureText this line width_
                 context))
         (trim_heads chunks).
Proof.
  intros Hwords. unfold _parseStructuredTextLineWordWrap, wordwrap_words.
  destruct (wordwrap_fold_partition width_ (split_words this line)
              (mkWW [] (Fin 0) (Fin 0) [] context) [] [])
    as (done & cur & Hcat & Hd & Hl & Hc & Hn);
    simpl; try constructor; try congruence.
  simpl in Hcat. exists (done ++ [cur]). split.
  { rewrite concat_app. simpl. now rewrite app_nil_r. }
  split.
  { apply Forall_app. split; [assumption|]. constructor; [|constructor].
    apply Hn. now right. }
  rewrite trim_heads_snoc. apply Forall2_app; [exact Hl|].
  constructor; [|constructor].
  cbv beta. cbn [parts]. rewrite fuse_text. unfold concat_text.
  now rewrite Hc.
Qed.

(** ** The fit of the emitted lines *)

Lemma ngt_false_nle_any a b :
  a <> NaN -> b <> NaN -> ngt a b = false -> nle a b = true.
Proof.
  destruct a, b; simpl; try congruence. intros _ _ H.
  apply Z.leb_le. apply Z.ltb_ge in H. lia.
Qed.


Hypothesis measure_finite : forall f t, is_finite (measureText f t) = true.

Lemma restarted_measure w :
  width (restart w)
  = Some (measureText (font_of this w) (trimStart (text w))).
Proof.
  unfold restarted, measured, font_of. destruct (width w); reflexivity.
Qed.

Lemma restarted_width w :
  exists z, width (restart w) = Some (Fin z).
Proof.
  rewrite restarted_measure.
  pose proof (measure_finite (font_of this w) (trimStart (text w))) as H.
  destruct (measureText (font_of this w) (trimStart (text w)));
    try discriminate. eauto.
Qed.



Lemma split_words_finite line :
  Forall finite_if_cached line ->
  Forall finite_if_cached (split_words this line).
Proof.
  unfold split_words. intros H. apply Forall_forall. intros x Hx.
  apply in_flat_map in Hx. destruct Hx as (p & Hp & Hx).
  apply in_map_iff in Hx. destruct Hx as (t & <- & _).
  rewrite Forall_forall in H. exact (H p Hp).
Qed.


End WordWrapProperties.

Lemma wordwrap_places_every_token_witness :
  exists chunks,
    concat chunks
    = split_words (example_block [] WordWrap)
        [plain (str "hello big world"); red (str " and more") 90]
    /\ Forall (fun c => c <> []) chunks
    /\ Forall2 (fun l chunk => concat_text (parts l) = concat_text chunk)
         (snd (_parseStructuredTextLineWordWrap measure10
                 (example_block [] WordWrap)
                 [plain (str "hello big world"); red (str " and more") 90]
                 (Fin 0) context0))
         (trim_heads chunks).
Proof.
  apply (wordwrap_places_every_token measure10 (example_block [] WordWrap)).
  vm_compute. discriminate.
Defined.


(** And a single token can record more than the width measured for its own
    text: the words of the run [{text: "aa bb", width: 150}] inherit the
    cached width 150, so for the target 100 the line ["aa"] records 150
    while ["aa"] measures 20. *)
Example wordwrap_first_token_keeps_cached_width :
  let l :=
    snd (_parseStructuredTextLineWordWrap measure10
           (example_block [] WordWrap)
           [set_width (plain (str "aa bb")) (Some (Fin 150))] (Fin 100)
           context0) in
  List.map line_texts l = [[str "aa"]; [str "bb"]]
  /\ List.map lineWidth l = [Some (Fin 150); Some (Fin 20)]
  /\ measure10 (font_of (example_block [] WordWrap) (plain (str "aa")))
       (str "aa")
     = Fin 20.
Proof. vm_compute. repeat split. Qed.


(* ===================================================================== *)
(** * Ellipsis *)
(* ===================================================================== *)

Section EllipsisProperties.

Variable measureText : jsstring -> jsstring -> number.
Variable this : TextBlock.

(** ** The group reduced to empty *)

Lemma font_of_measured p : font_of this (measured measureText this p)
                           = font_of this p.
Proof. unfold measured. destruct (width p); reflexivity. Qed.

Lemma head_like_measured p0 line :
  head_like this p0 line ->
  head_like this p0 (List.map (measured measureText this) line).
Proof.
  intros (p & rest & -> & Ht & Hf). simpl. eexists _, _.
  split; [reflexivity|].
  now rewrite measured_text, font_of_measured.
Qed.

Lemma update_last_snoc f l x : update_last f (l ++ [x]) = l ++ [f x].
Proof.
  unfold update_last. rewrite rev_app_distr. simpl.
  now rewrite rev_involutive.
Qed.

Lemma update_last_head f p q rest :
  update_last f (p :: q :: rest) = p :: update_last f (q :: rest).
Proof.
  assert (Hne : q :: rest <> []) by discriminate.
  destruct (exists_last Hne) as [l [x Hx]]. rewrite Hx.
  change (p :: l ++ [x]) with ((p :: l) ++ [x]).
  now rewrite !update_last_snoc.
Qed.

Lemma head_like_update_last f p0 line :
  2 <= length line -> head_like this p0 line ->
  head_like this p0 (update_last f line).
Proof.
  intros Hlen (p & rest & -> & Ht & Hf).
  destruct rest as [|q rest]; [simpl in Hlen; lia|].
  rewrite update_last_head. eexists _, _. eauto.
Qed.

Lemma head_like_removelast p0 line :
  2 <= length line -> head_like this p0 line -> head_like this p0 (removelast line).
Proof.
  intros Hlen (p & rest & -> & Ht & Hf).
  destruct rest as [|q rest]; [simpl in Hlen; lia|].
  simpl. eexists _, _. eauto.
Qed.

(** The inner loop leaves the first run of a longer line alone. *)
Lemma ellipsis_characters_head p0 width_ characters line lineWidth_ context :
  2 <= length line -> head_like this p0 line ->
  head_like this p0
    (snd (fst (ellipsis_characters measureText this width_ characters line
                 lineWidth_ context))).
Proof.
  funelim (ellipsis_characters measureText this width_ characters line
             lineWidth_ context); intros Hlen Hhead; [|assumption].
  match goal with
  | |- context [_structuredTextWidth _ _ ?l ?c] =>
      destruct (_structuredTextWidth_spec measureText this l c)
        as (context1 & -> & _)
  end.
  match goal with
  | IH : Context * StructuredText -> _ |- _ => apply (IH (context1, []))
  end.
  - now rewrite length_map, update_last_length.
  - apply head_like_measured. now apply head_like_update_last.
Qed.

(** On a line of one run, the inner loop ends with a width that does not
    exceed the target, or with the width of the marker alone, or at once
    because there is no character. *)
Lemma ellipsis_characters_single width_ characters line lineWidth_ context :
  forall p,
    line = [p] ->
    ngt (snd (ellipsis_characters measureText this width_ characters line
                lineWidth_ context)) width_
    = false
    \/ snd (ellipsis_characters measureText this width_ characters line
              lineWidth_ context)
       = measureText (font_of this p) ELLIPSIS
    \/ (characters = []
        /\ snd (ellipsis_characters measureText this width_ characters line
                  lineWidth_ context)
           = lineWidth_).
Proof.
  funelim (ellipsis_characters measureText this width_ characters line
             lineWidth_ context); intros p Hline.
  - subst line. change [p] with ([] ++ [p]). rewrite update_last_snoc.
    cbn [app].
    match goal with
    | |- context [_structuredTextWidth _ _ ?l ?c] =>
        destruct (_structuredTextWidth_spec measureText this l c)
          as (context1 & -> & _)
    end.
    cbn [List.map].
    match goal with
    | IH : Context * StructuredText -> _
      |- context [ellipsis_characters _ _ _ _ [?q] ?lw ?c] =>
        destruct (IH (c, []) lw c [q] q eq_refl)
          as [Hfit|[Hmark|[Hnil Hsame]]]
    end.
    + now left.
    + right; left. rewrite Hmark. now rewrite font_of_measured.
    + right; left. rewrite Hsame, Hnil. unfold sum_widths, sum_widths_from.
      simpl. apply nadd_0_l.
  - simpl. pose proof e as He. apply andb_false_iff in He.
    destruct He as [He|He]; [|now left].
    right; right. split; [|reflexivity].
    apply negb_false_iff, Nat.eqb_eq in He. now apply length_zero_iff_nil.
Qed.

Lemma array_from_nonempty s : s <> [] -> array_from s <> [].
Proof.
  destruct s as [|c [|d s]]; simpl; try congruence.
  destruct (is_high_surrogate c && is_low_surrogate d); discriminate.
Qed.

Lemma ellipsis_characters_nil width_ line lineWidth_ context :
  ellipsis_characters measureText this width_ [] line lineWidth_ context
  = (context, line, lineWidth_).
Proof. now simp ellipsis_characters. Qed.

(** When the outer loop pops every run: the width recorded exceeds the
    target; it is the width of the marker alone, in the font of the first
    run, when that run has a text; and when the line is a single run
    without text, that run is popped without being measured again and the
    width recorded is the one the loop started with. *)
Lemma ellipsis_loop_emptied p0 width_ line lineWidth_ context :
  head_like this p0 line ->
  snd (fst (ellipsis_loop measureText this width_ line lineWidth_ context))
  = [] ->
  ngt (snd (ellipsis_loop measureText this width_ line lineWidth_ context))
    width_
  = true
  /\ (text p0 <> [] ->
      snd (ellipsis_loop measureText this width_ line lineWidth_ context)
      = measureText (font_of this p0) ELLIPSIS)
  /\ (text p0 = [] -> length line = 1 ->
      snd (ellipsis_loop measureText this width_ line lineWidth_ context)
      = lineWidth_).
Proof.
  funelim (ellipsis_loop measureText this width_ line lineWidth_ context);
    intros Hhead Hnil.
  - simpl in Hnil. subst line. destruct Hhead as (p & rest & Hl & _).
    discriminate.
  - pose proof (ellipsis_characters_length measureText this width_
                  (array_from (text (last line (plain [])))) line lineWidth_
                  context) as Hlen.
    match goal with
    | Hin : ellipsis_characters _ _ _ _ _ _ _ = (_, _, _) |- _ =>
        rewrite Hin in Hlen; simpl in Hlen
    end.
    destruct (Nat.le_gt_cases 2 (length line)) as [Hlong|Hshort].
    + (* another run is left *)
      assert (Hrest : head_like this p0 (removelast line1)).
      { apply head_like_removelast; [lia|].
        pose proof (ellipsis_characters_head p0 width_
                      (array_from (text (last line (plain [])))) line
                      lineWidth_ context Hlong Hhead) as Hh.
        match goal with
        | Hin : ellipsis_characters _ _ _ _ _ _ _ = (_, _, _) |- _ =>
            rewrite Hin in Hh
        end.
        exact Hh. }
      match goal with
      | IH : forall p : StructuredTextPart, _ |- _ =>
          destruct (IH p0 Hrest Hnil) as (IH1 & IH2 & _)
      end.
      split; [assumption|]. split; [assumption|]. intros _ Hone. lia.
    + (* the first run is popped *)
      destruct Hhead as (p & rest & Hl & Ht & Hf).
      destruct rest as [|q rest]; [|subst line; simpl in Hshort; lia].
      destruct line1 as [|p1 [|q1 rest1]]; try (subst line; discriminate).
      simpl. simp ellipsis_loop. simpl. split; [assumption|]. split.
      * intros Htext.
        pose proof (ellipsis_characters_single width_
                      (array_from (text (last line (plain [])))) line
                      lineWidth_ context p Hl) as Hs.
        match goal with
        | Hin : ellipsis_characters _ _ _ _ _ _ _ = (_, _, _) |- _ =>
            rewrite Hin in Hs
        end.
        simpl in Hs. rewrite Hf in Hs.
        destruct Hs as [Hfit|[Hmark|[Hchars _]]].
        -- congruence.
        -- exact Hmark.
        -- exfalso. subst line. simpl in Hchars.
           apply (array_from_nonempty (text p)); [congruence|assumption].
      * intros Htext _.
        match goal with
        | Hin : ellipsis_characters _ _ _ _ _ _ _ = (_, _, _) |- _ =>
            pose proof Hin as Hcall
        end.
        rewrite Hl in Hcall. cbn [last] in Hcall.
        rewrite Ht, Htext in Hcall. cbn [array_from] in Hcall.
        rewrite ellipsis_characters_nil in Hcall. congruence.
  - pose proof (ellipsis_characters_length measureText this width_
                  (array_from (text (last line (plain [])))) line lineWidth_
                  context) as Hlen.
    match goal with
    | Hin : ellipsis_characters _ _ _ _ _ _ _ = (_, _, _) |- _ =>
        rewrite Hin in Hlen; simpl in Hlen
    end.
    simpl in Hnil. subst line1. destruct Hhead as (p & rest & Hl & _).
    subst line. discriminate.
Qed.

End EllipsisProperties.

Example ellipsis_example :
  let l :=
    snd (_parseStructuredTextLineEllipsis measure10
           (example_block [] Ellipsis)
           [plain (str "abc"); red (str "defgh") 55] (Fin 45) context0) in
  line_texts l = [str "abc"; ELLIPSIS] /\ lineWidth l = Some (Fin 40).
Proof. vm_compute. split; reflexivity. Qed.

Example ellipsis_emptied_example :
  snd (_parseStructuredTextLineEllipsis measure10
         (example_block [] Ellipsis) [plain (str "abcdefgh")] (Fin 5)
         context0)
  = {| parts := []; lineWidth := Some (Fin 10) |}.
Proof. vm_compute. reflexivity. Qed.

(* ===================================================================== *)
(** * Further properties of the width adapter and of run fusion *)
(* ===================================================================== *)

Lemma width_reduce_cached measureText this contextSaved structuredText :
  Forall is_measured structuredText ->
  forall context acc,
    width_reduce measureText this contextSaved context structuredText acc
    = (context, structuredText, sum_widths_from acc structuredText).
Proof.
  induction 1 as [|p l Hp Hl IH]; intros context acc; simpl; [reflexivity|].
  unfold width_callback. unfold is_measured in Hp.
  destruct (width p) as [w|] eqn:E; [|congruence].
  rewrite IH. unfold sum_widths_from. simpl. rewrite ?E. reflexivity.
Qed.

(** X1: the width cache.  A second call of the adapter on the runs a first
    call returned gives the same runs and the same total and does not touch
    the context: no [save], no font change, no measurement. *)
Theorem structuredTextWidth_second_call_is_cached
    measureText this structuredText context :
  let '(context1, structuredText1, total1) :=
    _structuredTextWidth measureText this structuredText context in
  _structuredTextWidth measureText this structuredText1 context1
  = (context1, structuredText1, total1).
Proof.
  destruct (_structuredTextWidth_spec measureText this structuredText context)
    as (context1 & -> & _).
  unfold _structuredTextWidth.
  rewrite width_reduce_cached by apply map_measured_all.
  reflexivity.
Qed.

Lemma same_attributes_ext_r p r r' :
  attributes_of r = attributes_of r' ->
  same_attributes p r = same_attributes p r'.
Proof.
  unfold attributes_of, same_attributes. intros H.
  inversion H. congruence.
Qed.

Lemma fuse_loop_head rest :
  forall p, exists h t,
    fuse_loop p p [] rest = h :: t
    /\ attributes_of h = attributes_of p
    /\ adjacent_differ (h :: t) = true.
Proof.
  induction rest as [|q rest IH]; intros p.
  - exists p, []. repeat split.
  - rewrite fuse_loop_step. destruct (same_attributes p q) eqn:E.
    + destruct (IH (fuse_into p q)) as (h & t & -> & Ha & Hd).
      exists h, t. repeat split; [|assumption].
      now rewrite Ha, attributes_of_fuse_into.
    + destruct (IH q) as (h & t & -> & Ha & Hd).
      exists p, (h :: t). repeat split.
      cbn [adjacent_differ]. cbn [adjacent_differ] in Hd.
      rewrite (same_attributes_ext_r p h q Ha), E. exact Hd.
Qed.

Lemma fuse_loop_fixed rest :
  forall p, adjacent_differ (p :: rest) = true ->
            fuse_loop p p [] rest = p :: rest.
Proof.
  induction rest as [|q rest IH]; intros p H; [reflexivity|].
  rewrite fuse_loop_step. cbn [adjacent_differ] in H.
  apply andb_true_iff in H. destruct H as [Hpq Hrest].
  apply negb_true_iff in Hpq. rewrite Hpq. f_equal. now apply IH.
Qed.

(** X2: after fusion no two neighbouring runs have strictly equal override
    fields (nothing is left to merge), so fusing a second time changes
    nothing. *)
Theorem fuse_leaves_nothing_to_merge (structuredText : StructuredText) :
  adjacent_differ (_fuseStructuredTextParts structuredText) = true
  /\ _fuseStructuredTextParts (_fuseStructuredTextParts structuredText)
     = _fuseStructuredTextParts structuredText.
Proof.
  destruct structuredText as [|p rest]; [split; reflexivity|].
  rewrite fuse_cons. destruct (fuse_loop_head rest p) as (h & t & -> & _ & Hd).
  split; [exact Hd|]. rewrite fuse_cons. now apply fuse_loop_fixed.
Qed.

Lemma fuse_loop_length rest :
  forall p, 1 <= length (fuse_loop p p [] rest) <= S (length rest).
Proof.
  induction rest as [|q rest IH]; intros p; [simpl; lia|].
  rewrite fuse_loop_step. destruct (same_attributes p q).
  - specialize (IH (fuse_into p q)). simpl. lia.
  - specialize (IH q). simpl. lia.
Qed.

(** X3: fusion never makes the sequence longer, and its result is empty
    only for an empty input. *)
Theorem fuse_length (structuredText : StructuredText) :
  length (_fuseStructuredTextParts structuredText) <= length structuredText
  /\ (_fuseStructuredTextParts structuredText = [] <-> structuredText = []).
Proof.
  destruct structuredText as [|p rest].
  - repeat split; auto.
  - rewrite fuse_cons. pose proof (fuse_loop_length rest p) as Hlen.
    split; [simpl; lia|].
    split; [|discriminate]. intros H. rewrite H in Hlen. simpl in Hlen. lia.
Qed.

(** X4: only the font style and the font weight of a run reach the
    measurement: two unmeasured runs with the same text and the same two
    overrides get the same width, whatever their other attributes. *)
Theorem measurement_ignores_paint_attributes
    measureText this (p q : StructuredTextPart) context context' :
  text p = text q -> fontStyle p = fontStyle q ->
  fontWeight p = fontWeight q -> width p = None -> width q = None ->
  List.map width
    (snd (fst (_structuredTextWidth measureText this [p] context)))
  = List.map width
      (snd (fst (_structuredTextWidth measureText this [q] context')))
  /\ snd (_structuredTextWidth measureText this [p] context)
     = snd (_structuredTextWidth measureText this [q] context').
Proof.
  intros Ht Hs Hw Hp Hq.
  destruct (_structuredTextWidth_spec measureText this [p] context)
    as (c1 & -> & _).
  destruct (_structuredTextWidth_spec measureText this [q] context')
    as (c2 & -> & _).
  unfold sum_widths, sum_widths_from, measured, font_of, _inheritAttributes.
  simpl. rewrite Hp, Hq. simpl. rewrite Ht, Hs, Hw. split; reflexivity.
Qed.

Lemma measurement_ignores_paint_attributes_witness :
  snd (_structuredTextWidth measure10 (example_block [] Clip)
         [plain (str "ab")] context0)
  = snd (_structuredTextWidth measure10 (example_block [] Clip)
           [set_width (red (str "ab") 0) None] (save context0)).
Proof.
  apply (measurement_ignores_paint_attributes measure10
           (example_block [] Clip) (plain (str "ab"))
           (set_width (red (str "ab") 0) None) context0 (save context0));
    reflexivity.
Defined.
(* ===================================================================== *)
(** * Further properties of the line breaker *)
(* ===================================================================== *)

Lemma split_newline_clean s :
  Forall (fun seg => includes_newline seg = false) (split_newline s).
Proof.
  induction s as [|c s IH]; simpl; [repeat constructor|].
  destruct (N.eqb c NEWLINE) eqn:E.
  - constructor; [reflexivity|assumption].
  - destruct (split_newline s) as [|seg segs]; [repeat constructor|].
    + unfold includes_newline. cbn [existsb]. now rewrite N.eqb_sym, E.
    + inversion IH; subst. constructor; [|assumption].
      unfold includes_newline in *. cbn [existsb]. now rewrite N.eqb_sym, E.
Qed.

Lemma concat_split_newline s : concat (split_newline s) = remove_newlines s.
Proof.
  induction s as [|c s IH]; simpl; [reflexivity|].
  unfold remove_newlines in *. simpl.
  destruct (N.eqb c NEWLINE); simpl; [assumption|].
  destruct (split_newline s) as [|seg segs]; simpl in *; now rewrite <- IH.
Qed.

Lemma remove_newlines_clean s :
  includes_newline s = false -> remove_newlines s = s.
Proof.
  unfold includes_newline, remove_newlines.
  induction s as [|c s IH]; cbn [existsb filter]; intros H; [reflexivity|].
  apply orb_false_iff in H. destruct H as [Hc Hs].
  rewrite N.eqb_sym, Hc. cbn [negb]. now rewrite IH.
Qed.

Lemma concat_text_app l l' :
  concat_text (l ++ l') = concat_text l ++ concat_text l'.
Proof. unfold concat_text. now rewrite map_app, concat_app. Qed.

Lemma groups_text_snoc groups g :
  groups_text (groups ++ [g]) = groups_text groups ++ concat_text g.
Proof.
  unfold groups_text. rewrite map_app, concat_app. simpl.
  now rewrite app_nil_r.
Qed.

Lemma concat_text_single p : concat_text [p] = text p.
Proof. unfold concat_text. simpl. apply app_nil_r. Qed.

Lemma groups_text_app a b : groups_text (a ++ b) = groups_text a ++ groups_text b.
Proof. unfold groups_text. now rewrite map_app, concat_app. Qed.

Lemma groups_text_cons g gs :
  groups_text (g :: gs) = concat_text g ++ groups_text gs.
Proof. reflexivity. Qed.

Lemma groups_text_singletons _part segs :
  groups_text (List.map (fun t => [set_text _part t]) segs) = concat segs.
Proof.
  induction segs as [|t segs IH]; [reflexivity|].
  simpl. rewrite groups_text_cons, concat_text_single, IH. reflexivity.
Qed.

Lemma push_part_spec (done : list StructuredText)
    (_currentLine : StructuredText) _part :
  Forall (Forall clean_run) (done ++ [_currentLine]) ->
  exists done' _currentLine',
    push_part (done, _currentLine) _part = (done', _currentLine')
    /\ Forall (Forall clean_run) (done' ++ [_currentLine'])
    /\ groups_text (done' ++ [_currentLine'])
       = groups_text (done ++ [_currentLine])
         ++ remove_newlines (text _part)
    /\ length done <= length done'.
Proof.
  intros Hclean. apply Forall_app in Hclean. destruct Hclean as [Hd Hc].
  inversion Hc as [|? ? Hcur _]; subst.
  unfold push_part. destruct (includes_newline (text _part)) eqn:E.
  - rewrite push_fragments.
    pose proof (split_newline_clean (text _part)) as Hsegs.
    pose proof (concat_split_newline (text _part)) as Hcat.
    pose proof (split_newline_nonempty (text _part)) as Hne.
    destruct (split_newline (text _part)) as [|seg segs]; [congruence|].
    inversion Hsegs as [|? ? Hseg Hsegs']; subst.
    eexists _, _. split; [reflexivity|]. split; [|split].
    + apply Forall_app. split; [|repeat constructor].
      apply Forall_app. split; [assumption|]. constructor.
      * apply Forall_app. split; [assumption|]. now repeat constructor.
      * apply Forall_forall. intros g Hg. apply in_map_iff in Hg.
        destruct Hg as (t & <- & Ht). rewrite Forall_forall in Hsegs'.
        constructor; [|constructor]. apply Hsegs'. exact Ht.
    + rewrite !groups_text_snoc. change (concat_text []) with (@nil char).
      rewrite app_nil_r, groups_text_app, groups_text_cons.
      rewrite concat_text_app, concat_text_single, groups_text_singletons.
      rewrite <- Hcat. simpl. now rewrite <- !app_assoc.
    + rewrite length_app. simpl. lia.
  - eexists _, _. split; [reflexivity|]. split; [|split].
    + apply Forall_app. split; [assumption|]. constructor; [|constructor].
      apply Forall_app. split; [assumption|]. now repeat constructor.
    + rewrite !groups_text_snoc, concat_text_app, concat_text_single.
      rewrite remove_newlines_clean by assumption.
      now rewrite app_assoc.
    + lia.
Qed.

Lemma push_parts_spec structuredText :
  forall (done : list StructuredText) (_currentLine : StructuredText),
    Forall (Forall clean_run) (done ++ [_currentLine]) ->
    exists done' _currentLine',
      fold_left push_part structuredText (done, _currentLine)
      = (done', _currentLine')
      /\ Forall (Forall clean_run) (done' ++ [_currentLine'])
      /\ groups_text (done' ++ [_currentLine'])
         = groups_text (done ++ [_currentLine])
           ++ remove_newlines (concat_text structuredText).
Proof.
  induction structuredText as [|p l IH]; intros done cur H.
  - exists done, cur. simpl. rewrite app_nil_r. auto.
  - cbn [fold_left]. destruct (push_part_spec done cur p H)
      as (done1 & cur1 & -> & H1 & Ht & _).
    destruct (IH done1 cur1 H1) as (done2 & cur2 & -> & H2 & Ht2).
    exists done2, cur2. split; [reflexivity|]. split; [assumption|].
    rewrite Ht2, Ht. change (p :: l) with ([p] ++ l).
    rewrite concat_text_app, concat_text_single.
    unfold remove_newlines. rewrite filter_app.
    now rewrite <- app_assoc.
Qed.

Lemma newline_groups_spec (structuredText : StructuredText) :
  Forall (Forall clean_run) (newline_groups structuredText)
  /\ groups_text (newline_groups structuredText)
     = remove_newlines (concat_text structuredText).
Proof.
  unfold newline_groups. set (r := fold_left push_part _ _).
  destruct (push_parts_spec structuredText [] [])
    as (done & cur & Heq & Hclean & Htext).
  { repeat constructor. }
  change (r = (done, cur)) in Heq. rewrite Heq.
  split; [exact Hclean|]. exact Htext.
Qed.

(** X5: the newline pre-pass.  No run of any group has a newline in its
    text, and the texts of the groups, one after the other, are the texts
    of the input runs with the newlines removed. *)
Theorem newline_groups_clean (structuredText : StructuredText) :
  Forall (Forall (fun p => includes_newline (text p) = false))
    (newline_groups structuredText)
  /\ concat (List.map concat_text (newline_groups structuredText))
     = remove_newlines (concat_text structuredText).
Proof.
  exact (newline_groups_spec structuredText).
Qed.

Section BreakerProperties.

Variable measureText : jsstring -> jsstring -> number.
Variable this : TextBlock.

Local Abbreviation M := (measured measureText this).

Lemma concat_text_measured l : concat_text (List.map M l) = concat_text l.
Proof.
  unfold concat_text. rewrite map_map. f_equal. apply map_ext.
  intros p. apply measured_text.
Qed.

Lemma clip_fold groups :
  forall context lines,
  exists context',
    fold_left
      (fun (acc : Context * StructuredTextLines) _line =>
         let '(context1, lines) := acc in
         let '(context2, l) :=
           _parseStructuredTextLine measureText this _line context1 in
         (context2, lines ++ [l]))
      groups (context, lines)
    = (context',
       lines
       ++ List.map
            (fun g => {| parts := List.map M g;
                         lineWidth := Some (sum_widths (List.map M g)) |})
            groups).
Proof.
  induction groups as [|g groups IH]; intros context lines.
  - exists context. simpl. now rewrite app_nil_r.
  - cbn [fold_left]. unfold _parseStructuredTextLine at 2.
    destruct (_structuredTextWidth_spec measureText this g context)
      as (context1 & -> & _).
    cbv beta iota zeta.
    destruct (IH context1
                (lines
                 ++ [ {| parts := List.map M g;
                         lineWidth := Some (sum_widths (List.map M g)) |} ]))
      as (context2 & Heq).
    exists context2. etransitivity; [exact Heq|].
    simpl. now rewrite <- app_assoc.
Qed.

(** X6: in Clip mode every group of the pre-pass becomes exactly one line,
    whose recorded width is the sum of the widths of its runs; nothing is
    truncated: the texts of the lines, one after the other, are the texts of
    the input runs with the newlines removed. *)
Theorem clip_lines_reconstruct_text refWidth context :
  _textWrapping this = Clip ->
  length (snd (_breakStructuredTextLines measureText this refWidth context))
  = length (newline_groups (_structuredText this))
  /\ Forall (fun l => lineWidth l = Some (sum_widths (parts l)))
       (snd (_breakStructuredTextLines measureText this refWidth context))
  /\ concat
       (List.map (fun l => concat_text (parts l))
          (snd (_breakStructuredTextLines measureText this refWidth context)))
     = remove_newlines (concat_text (_structuredText this)).
Proof.
  intros Hmode. unfold _breakStructuredTextLines. rewrite Hmode.
  set (r := fold_left _ _ _).
  destruct (clip_fold (newline_groups (_structuredText this)) context [])
    as (context' & Heq).
  change (r = (context',
               [] ++ List.map
                       (fun g =>
                          {| parts := List.map M g;
                             lineWidth := Some (sum_widths (List.map M g)) |})
                       (newline_groups (_structuredText this)))) in Heq.
  rewrite Heq. cbn [snd app].
  split; [apply length_map|]. split.
  - apply Forall_forall. intros l Hl. apply in_map_iff in Hl.
    destruct Hl as (g & <- & _). reflexivity.
  - rewrite map_map. cbn [parts].
    destruct (newline_groups_spec (_structuredText this)) as [_ <-].
    unfold groups_text. f_equal. apply map_ext. intros g.
    apply concat_text_measured.
Qed.

Lemma ellipsis_fold_length refWidth groups :
  forall context lines,
    length
      (snd
         (fold_left
            (fun (acc : Context * StructuredTextLines) _line =>
               let '(context1, lines) := acc in
               let '(context2, l) :=
                 _parseStructuredTextLineEllipsis measureText this _line
                   refWidth context1 in
               (context2, lines ++ [l]))
            groups (context, lines)))
    = length lines + length groups.
Proof.
  induction groups as [|g groups IH]; intros context lines.
  - simpl. lia.
  - cbn [fold_left].
    destruct (_parseStructuredTextLineEllipsis measureText this g refWidth
                context) as [context2 l].
    rewrite IH, length_app. simpl. lia.
Qed.

Lemma wordwrap_fold_length refWidth groups :
  forall context lines,
    length lines + length groups
    <= length
         (snd
            (fold_left
               (fun (acc : Context * StructuredTextLines) _line =>
                  let '(context1, lines) := acc in
                  let '(context2, ls) :=
                    _parseStructuredTextLineWordWrap measureText this _line
                      refWidth context1 in
                  (context2, lines ++ ls))
               groups (context, lines))).
Proof.
  induction groups as [|g groups IH]; intros context lines.
  - simpl. lia.
  - cbn [fold_left].
    unfold _parseStructuredTextLineWordWrap at 2, wordwrap_words.
    match goal with
    | |- context [fold_left _ _ (?c, lines ++ ?ls ++ [?x])] =>
        specialize (IH c (lines ++ ls ++ [x]))
    end.
    rewrite !length_app in IH. simpl in *. lia.
Qed.

(** X7: the breaker always returns at least one line; Clip and Ellipsis
    return exactly one line per group of the pre-pass, WordWrap at least
    one per group. *)
Theorem breakStructuredTextLines_line_count refWidth context :
  1 <= length
         (snd (_breakStructuredTextLines measureText this refWidth context))
  /\ match _textWrapping this with
     | WordWrap =>
         length (newline_groups (_structuredText this))
         <= length
              (snd (_breakStructuredTextLines measureText this refWidth
                      context))
     | _ =>
         length
           (snd (_breakStructuredTextLines measureText this refWidth context))
         = length (newline_groups (_structuredText this))
     end.
Proof.
  assert (Hg : 1 <= length (newline_groups (_structuredText this))).
  { unfold newline_groups.
    destruct (fold_left push_part (_structuredText this) ([], []))
      as [done cur].
    rewrite length_app. simpl. lia. }
  unfold _breakStructuredTextLines.
  destruct (_textWrapping this).
  - set (r := fold_left _ _ _).
    destruct (clip_fold (newline_groups (_structuredText this)) context [])
      as (context' & Heq).
    change (r = (context',
                 [] ++ List.map
                         (fun g =>
                            {| parts := List.map M g;
                               lineWidth :=
                                 Some (sum_widths (List.map M g)) |})
                         (newline_groups (_structuredText this)))) in Heq.
    rewrite Heq. cbn [snd app]. rewrite length_map. split; [exact Hg|].
    reflexivity.
  - pose proof (wordwrap_fold_length refWidth
                  (newline_groups (_structuredText this)) context []) as H.
    simpl in H. split; [|exact H]. eapply Nat.le_trans; [exact Hg|exact H].
  - pose proof (ellipsis_fold_length refWidth
                  (newline_groups (_structuredText this)) context []) as H.
    simpl in H. split; [|exact H].
    eapply Nat.le_trans; [exact Hg|]. apply Nat.eq_le_incl. symmetry.
    exact H.
Qed.

End BreakerProperties.

Lemma clip_lines_reconstruct_text_witness :
  concat
    (List.map (fun l => concat_text (parts l))
       (snd (_breakStructuredTextLines measure10
               (example_block [hello_world; red (str "!") 3] Clip) (Fin 20)
               context0)))
  = remove_newlines (concat_text [hello_world; red (str "!") 3]).
Proof.
  apply (clip_lines_reconstruct_text measure10
           (example_block [hello_world; red (str "!") 3] Clip) (Fin 20)
           context0).
  reflexivity.
Defined.

(* ===================================================================== *)
(** * Further properties of the Ellipsis policy *)
(* ===================================================================== *)

Section EllipsisShape.

Variable measureText : jsstring -> jsstring -> number.
Variable this : TextBlock.

Local Abbreviation M := (measured measureText this).
Local Abbreviation cut := (truncated measureText this).

Lemma measured_cleared q t : M (set_width (set_text q t) None) = cut q t.
Proof. reflexivity. Qed.

Lemma cleared_truncated q t1 t2 :
  set_width (set_text (cut q t1) t2) None = set_width (set_text q t2) None.
Proof. reflexivity. Qed.

Lemma truncated_measured p t : cut (M p) t = cut p t.
Proof. unfold measured. destruct (width p); reflexivity. Qed.

Lemma truncated_is_measured q t : is_measured (cut q t).
Proof. unfold is_measured. simpl. discriminate. Qed.

Lemma ellipsis_loop_fits width_ line lineWidth_ context :
  ngt lineWidth_ width_ = false ->
  ellipsis_loop measureText this width_ line lineWidth_ context
  = (context, line, lineWidth_).
Proof.
  funelim (ellipsis_loop measureText this width_ line lineWidth_ context);
    intros Hfit; try reflexivity;
    pose proof e as He; rewrite Hfit, andb_false_r in He; discriminate.
Qed.

(** X8: when the measured group already fits, Ellipsis emits it as it is:
    the runs with their widths filled in, no marker, and the measured total
    as recorded width. *)
Theorem ellipsis_fitting_group_unchanged line refWidth context :
  ngt (sum_widths (List.map M line)) refWidth = false ->
  snd (_parseStructuredTextLineEllipsis measureText this line refWidth
         context)
  = {| parts := List.map M line;
       lineWidth := Some (sum_widths (List.map M line)) |}.
Proof.
  intros Hfit. unfold _parseStructuredTextLineEllipsis.
  destruct (_structuredTextWidth_spec measureText this line context)
    as (context1 & -> & _).
  now rewrite ellipsis_loop_fits.
Qed.

(** The inner loop either does nothing, or leaves the runs before the last
    one alone and the last one cut to a proper prefix of its characters,
    followed by the marker, with the total measured on that very line. *)
Lemma ellipsis_characters_shape width_ characters line lineWidth_ context :
  forall before q,
    line = before ++ [q] ->
    Forall is_measured before ->
    (snd (fst (ellipsis_characters measureText this width_ characters line
                 lineWidth_ context)) = line
     /\ snd (ellipsis_characters measureText this width_ characters line
               lineWidth_ context) = lineWidth_
     /\ (characters = [] \/ ngt lineWidth_ width_ = false))
    \/ (exists cs cs',
          characters = cs ++ cs' /\ cs' <> []
          /\ snd (fst (ellipsis_characters measureText this width_
                         characters line lineWidth_ context))
             = before ++ [cut q (join cs ++ ELLIPSIS)]
          /\ snd (ellipsis_characters measureText this width_ characters
                    line lineWidth_ context)
             = sum_widths (before ++ [cut q (join cs ++ ELLIPSIS)])).
Proof.
  funelim (ellipsis_characters measureText this width_ characters line
             lineWidth_ context); intros before q Hline Hbefore.
  - assert (Hne : characters <> []).
    { intros ->. discriminate. }
    destruct (exists_last Hne) as [cs0 [x Hx]].
    subst line. rewrite update_last_snoc.
    match goal with
    | |- context [_structuredTextWidth _ _ ?l ?c] =>
        destruct (_structuredTextWidth_spec measureText this l c)
          as (context1 & -> & _)
    end.
    rewrite map_app, (map_measured_id measureText this before Hbefore).
    cbn [List.map]. rewrite measured_cleared.
    right.
    match goal with
    | IH : Context * StructuredText -> _
      |- context [ellipsis_characters _ _ _ _ ?l ?lw ?c] =>
        destruct (IH (c, []) lw c l before
                    (cut q (join (removelast characters) ++ ELLIPSIS))
                    eq_refl Hbefore)
          as [(Hl & Hw & _)|(cs & cs' & Hcs & Hcs' & Hl & Hw)]
    end.
    + exists (removelast characters), [x].
      rewrite Hl, Hw. rewrite Hx, removelast_last.
      repeat split; congruence.
    + exists cs, (cs' ++ [x]).
      rewrite Hl, Hw. rewrite Hx, removelast_last in Hcs.
      split; [rewrite Hx, Hcs; now rewrite app_assoc|].
      split; [destruct cs'; discriminate|]. split; reflexivity.
  - left. simpl. repeat split.
    pose proof e as He. apply andb_false_iff in He.
    destruct He as [He|He]; [left|now right].
    apply negb_false_iff, Nat.eqb_eq in He. now apply length_zero_iff_nil.
Qed.

(** The outer loop ends with no run, or without having done anything, or
    with the runs before some run [q] untouched and [q] cut. *)
Lemma ellipsis_loop_shape width_ line lineWidth_ context :
  Forall is_measured line ->
  snd (fst (ellipsis_loop measureText this width_ line lineWidth_ context))
  = []
  \/ (snd (fst (ellipsis_loop measureText this width_ line lineWidth_
                  context)) = line
      /\ snd (ellipsis_loop measureText this width_ line lineWidth_ context)
         = lineWidth_
      /\ ngt lineWidth_ width_ = false)
  \/ (exists k q cs cs',
        nth_error line k = Some q
        /\ array_from (text q) = cs ++ cs' /\ cs' <> []
        /\ snd (fst (ellipsis_loop measureText this width_ line lineWidth_
                       context))
           = firstn k line ++ [cut q (join cs ++ ELLIPSIS)]
        /\ snd (ellipsis_loop measureText this width_ line lineWidth_
                  context)
           = sum_widths (firstn k line ++ [cut q (join cs ++ ELLIPSIS)])
        /\ ngt (snd (ellipsis_loop measureText this width_ line lineWidth_
                       context)) width_
           = false).
Proof.
  funelim (ellipsis_loop measureText this width_ line lineWidth_ context);
    intros Hline.
  - simpl. pose proof e as He. apply andb_false_iff in He.
    destruct He as [He|He]; [left|right; left; auto].
    apply negb_false_iff, Nat.eqb_eq in He. now apply length_zero_iff_nil.
  - assert (Hne : line <> []).
    { intros ->. discriminate. }
    destruct (exists_last Hne) as [before [q Hq]].
    assert (Hbefore : Forall is_measured before).
    { rewrite Hq in Hline. apply Forall_app in Hline. tauto. }
    pose proof (ellipsis_characters_shape width_
                  (array_from (text (last line (plain [])))) line lineWidth_
                  context before q Hq Hbefore) as Hin.
    match goal with
    | Hcall : ellipsis_characters _ _ _ _ _ _ _ = (_, _, _) |- _ =>
        rewrite Hcall in Hin; simpl in Hin
    end.
    assert (Hpop : removelast line1 = before).
    { destruct Hin as [(Hl & _)|(cs & cs' & _ & _ & Hl & _)]; rewrite Hl.
      - rewrite Hq. apply removelast_last.
      - apply removelast_last. }
    rewrite Hpop in *.
    match goal with
    | IH : Forall is_measured before -> _ |- _ =>
        destruct (IH Hbefore)
          as [Hnil|[(Hl & Hw & Hfit)|(k & p & cs & cs' & Hk & Hcs & Hcs'
                                      & Hl & Hw & Hfit)]]
    end.
    + now left.
    + congruence.
    + right; right. exists k, p, cs, cs'.
      assert (Hlt : k < length before).
      { apply nth_error_Some. congruence. }
      rewrite Hq. rewrite nth_error_app1 by assumption.
      rewrite firstn_app.
      replace (k - length before) with 0 by lia.
      rewrite firstn_0, app_nil_r. auto 10.
  - assert (Hne : line <> []).
    { intros ->. discriminate. }
    destruct (exists_last Hne) as [before [q Hq]].
    assert (Hbefore : Forall is_measured before).
    { rewrite Hq in Hline. apply Forall_app in Hline. tauto. }
    pose proof (ellipsis_characters_shape width_
                  (array_from (text (last line (plain [])))) line lineWidth_
                  context before q Hq Hbefore) as Hin.
    match goal with
    | Hcall : ellipsis_characters _ _ _ _ _ _ _ = (_, _, _) |- _ =>
        rewrite Hcall in Hin; simpl in Hin
    end.
    simpl. right; right.
    destruct Hin as [(Hl & Hw & Hstop)|(cs & cs' & Hcs & Hcs' & Hl & Hw)].
    + exfalso. pose proof e as He. apply andb_true_iff in He.
      destruct He as [_ Hgt].
      destruct Hstop as [Hchars|Hfit]; congruence.
    + exists (length before), q, cs, cs'.
      rewrite Hq in Hcs. rewrite last_last in Hcs.
      rewrite Hq, nth_error_app2, Nat.sub_diag by lia.
      rewrite firstn_app, firstn_all, Nat.sub_diag, firstn_0, app_nil_r.
      repeat split; auto; congruence.
Qed.

(** X9: when the measured group does not fit, Ellipsis emits either a line
    without runs, or the runs before some run [p] as they are, followed by
    [p] cut to a proper prefix of its characters plus the marker; in that
    case the recorded width is the sum of the widths of the emitted runs and
    does not exceed the target.  Runs after [p] are dropped. *)
Theorem ellipsis_truncation_shape line refWidth context :
  ngt (sum_widths (List.map M line)) refWidth = true ->
  parts (snd (_parseStructuredTextLineEllipsis measureText this line
                refWidth context)) = []
  \/ exists k p cs cs',
       nth_error line k = Some p
       /\ array_from (text p) = cs ++ cs' /\ cs' <> []
       /\ parts (snd (_parseStructuredTextLineEllipsis measureText this line
                        refWidth context))
          = List.map M (firstn k line) ++ [cut p (join cs ++ ELLIPSIS)]
       /\ lineWidth (snd (_parseStructuredTextLineEllipsis measureText this
                            line refWidth context))
          = Some (sum_widths
                    (List.map M (firstn k line)
                     ++ [cut p (join cs ++ ELLIPSIS)]))
       /\ ngt (sum_widths
                 (List.map M (firstn k line)
                  ++ [cut p (join cs ++ ELLIPSIS)])) refWidth
          = false.
Proof.
  intros Hwide. unfold _parseStructuredTextLineEllipsis.
  destruct (_structuredTextWidth_spec measureText this line context)
    as (context1 & -> & _).
  pose proof (ellipsis_loop_shape refWidth (List.map M line)
                (sum_widths (List.map M line)) context1
                (map_measured_all measureText this line)) as H.
  destruct (ellipsis_loop measureText this refWidth (List.map M line)
              (sum_widths (List.map M line)) context1)
    as [[context2 line2] lineWidth2].
  simpl in *.
  destruct H as [Hnil|[(_ & _ & Hfit)|(k & q & cs & cs' & Hk & Hcs & Hcs'
                                       & Hl & Hw & Hfit)]].
  - now left.
  - congruence.
  - right. rewrite nth_error_map in Hk.
    destruct (nth_error line k) as [p|] eqn:Ep; [|discriminate].
    simpl in Hk. inversion Hk; subst q.
    rewrite measured_text in Hcs. rewrite truncated_measured in Hl, Hw.
    rewrite firstn_map in Hl, Hw.
    exists k, p, cs, cs'. rewrite Hl. rewrite Hw in Hfit. rewrite Hw.
    auto 10.
Qed.

End EllipsisShape.

(* ===================================================================== *)
(** * Ellipsis: the width of the emitted line *)
(* ===================================================================== *)

Section EllipsisFit.

Variable measureText : jsstring -> jsstring -> number.
Variable this : TextBlock.
Hypothesis measure_finite : forall f t, is_finite (measureText f t) = true.

Local Abbreviation M := (measured measureText this).

Lemma truncated_finite q t :
  has_finite_width (truncated measureText this q t).
Proof.
  unfold has_finite_width, truncated.
  pose proof (measure_finite (font_of this q) t) as H.
  destruct (measureText (font_of this q) t) as [z| | |]; try discriminate.
  exists z. reflexivity.
Qed.

Lemma firstn_Forall {A} (P : A -> Prop) k l :
  Forall P l -> Forall P (firstn k l).
Proof.
  intros H. rewrite <- (firstn_skipn k l) in H.
  apply Forall_app in H. tauto.
Qed.

(** C8, amended: Ellipsis is a total function.  With finite measurement
    results, finite cached widths and a target that is not [NaN], a result
    that still has a run, the bare marker included, records the sum of the
    widths of its runs, and that sum is at most the target.  Otherwise no
    run is left; when the group had runs, the recorded width then exceeds
    the target: popping a run does not measure the line again, so the
    width of the line as it was before the pop remains.  That is the width
    of the marker alone, in the font of the first run, when that run has a
    text; a first run without text is popped as it is, and when it is the
    only run the recorded width is its own. *)
Theorem ellipsis_line_fits line refWidth context :
  refWidth <> NaN ->
  Forall finite_if_cached line ->
  (fits refWidth
     (snd (_parseStructuredTextLineEllipsis measureText this line refWidth
             context))
   /\ lineWidth
        (snd (_parseStructuredTextLineEllipsis measureText this line refWidth
                context))
      = Some
          (sum_widths
             (parts
                (snd (_parseStructuredTextLineEllipsis measureText this line
                        refWidth context)))))
  \/ (parts
        (snd (_parseStructuredTextLineEllipsis measureText this line refWidth
                context))
      = []
      /\ forall p0 rest,
           line = p0 :: rest ->
           exists w,
             lineWidth
               (snd (_parseStructuredTextLineEllipsis measureText this line
                       refWidth context))
             = Some w
             /\ ngt w refWidth = true
             /\ (text p0 <> [] ->
                 w = measureText (font_of this p0) ELLIPSIS)
             /\ (text p0 = [] -> rest = [] -> width (M p0) = Some w)).
Proof.
  intros Hn Hline. unfold _parseStructuredTextLineEllipsis.
  destruct (_structuredTextWidth_spec measureText this line context)
    as (context1 & -> & _).
  pose proof (measured_all_finite measureText this line measure_finite Hline)
    as Hfin.
  pose proof (ellipsis_loop_shape measureText this refWidth (List.map M line)
                (sum_widths (List.map M line)) context1
                (map_measured_all measureText this line)) as Hshape.
  pose proof (fun p0 =>
                ellipsis_loop_emptied measureText this p0 refWidth
                  (List.map M line) (sum_widths (List.map M line)) context1)
    as Hempty.
  destruct (ellipsis_loop measureText this refWidth (List.map M line)
              (sum_widths (List.map M line)) context1)
    as [[context2 line2] lineWidth2].
  cbn [fst snd parts lineWidth] in *.
  destruct Hshape as [Hnil|[(Hl & Hw & Hfit)
                           |(k & q & cs & cs' & _ & _ & _ & Hl & Hw & Hfit)]].
  - (* every run was popped *)
    right. split; [assumption|]. intros p0 rest Hp0.
    destruct (Hempty p0) as (Hgt & Hmark & Hstale); [|assumption|].
    { apply head_like_measured. subst line. eexists _, _. eauto. }
    exists lineWidth2. split; [reflexivity|]. split; [assumption|].
    split; [assumption|]. intros Htext Hrest. subst rest line.
    rewrite Hstale by (assumption || reflexivity).
    cbn [List.map]. unfold sum_widths, sum_widths_from. cbn [fold_left].
    inversion Hfin as [|? ? [z Hz] _]; subst. rewrite Hz.
    cbn [nadd_opt]. now rewrite nadd_0_l.
  - (* nothing was cut *)
    left. subst line2 lineWidth2. split; [|reflexivity].
    exists (sum_widths (List.map M line)). split; [reflexivity|].
    apply ngt_false_nle_any; [|assumption|assumption].
    now apply sum_widths_not_NaN.
  - (* a run was cut *)
    left. subst line2. split; [|now rewrite Hw].
    exists lineWidth2. split; [reflexivity|].
    apply ngt_false_nle_any; [|assumption|assumption].
    rewrite Hw. apply sum_widths_not_NaN. apply Forall_app. split.
    + now apply firstn_Forall.
    + constructor; [apply truncated_finite|constructor].
Qed.

End EllipsisFit.

Lemma ellipsis_line_fits_witness :
  fits (Fin 45)
    (snd (_parseStructuredTextLineEllipsis measure10
            (example_block [] Ellipsis)
            [plain (str "abc"); red (str "defgh") 55] (Fin 45) context0)).
Proof.
  destruct (ellipsis_line_fits measure10 (example_block [] Ellipsis)
              (fun f t => eq_refl)
              [plain (str "abc"); red (str "defgh") 55] (Fin 45) context0)
    as [[H _]|[H _]].
  - discriminate.
  - repeat constructor.
  - exact H.
  - vm_compute in H. discriminate.
Defined.

(** C8 as stated fails.  The group of the single run
    [{text: "", width: 50}] and the target 15: the run has no character to
    remove, it is popped, and the line without runs records the width 50,
    although the marker alone, of width 10, fits.  And for a target [NaN]
    the test of the loop is false at once: the group is returned whole,
    and no width is at most [NaN]. *)
Lemma ellipsis_emptied_line_keeps_stale_width :
  (snd (_parseStructuredTextLineEllipsis measure10
          (example_block [] Ellipsis)
          [set_width (plain []) (Some (Fin 50))] (Fin 15) context0)
   = {| parts := []; lineWidth := Some (Fin 50) |}
   /\ nle (Fin 50) (Fin 15) = false
   /\ nle (measure10 (font_of (example_block [] Ellipsis) (plain []))
             ELLIPSIS) (Fin 15)
      = true)
  /\ (line_texts
        (snd (_parseStructuredTextLineEllipsis measure10
                (example_block [] Ellipsis) [plain (str "abcdef")] NaN
                context0))
      = [str "abcdef"]
      /\ ~ fits NaN
            (snd (_parseStructuredTextLineEllipsis measure10
                    (example_block [] Ellipsis) [plain (str "abcdef")] NaN
                    context0))).
Proof.
  split; [vm_compute; repeat split|]. split; [vm_compute; reflexivity|].
  intros (w & _ & Hle). destruct w; discriminate.
Qed.

Lemma ellipsis_fitting_group_unchanged_witness :
  snd (_parseStructuredTextLineEllipsis measure10
         (example_block [] Ellipsis) [plain (str "abc"); red (str "de") 25]
         (Fin 55) context0)
  = {| parts :=
         List.map (measured measure10 (example_block [] Ellipsis))
           [plain (str "abc"); red (str "de") 25];
       lineWidth :=
         Some (sum_widths
                 (List.map (measured measure10 (example_block [] Ellipsis))
                    [plain (str "abc"); red (str "de") 25])) |}.
Proof.
  apply ellipsis_fitting_group_unchanged. reflexivity.
Defined.

Lemma ellipsis_truncation_shape_witness :
  parts (snd (_parseStructuredTextLineEllipsis measure10
                (example_block [] Ellipsis)
                [plain (str "abc"); red (str "defgh") 55] (Fin 45)
                context0)) = []
  \/ exists k p cs cs',
       nth_error [plain (str "abc"); red (str "defgh") 55] k = Some p
       /\ array_from (text p) = cs ++ cs' /\ cs' <> []
       /\ parts (snd (_parseStructuredTextLineEllipsis measure10
                        (example_block [] Ellipsis)
                        [plain (str "abc"); red (str "defgh") 55] (Fin 45)
                        context0))
          = List.map (measured measure10 (example_block [] Ellipsis))
              (firstn k [plain (str "abc"); red (str "defgh") 55])
            ++ [truncated measure10 (example_block [] Ellipsis) p
                  (join cs ++ ELLIPSIS)]
       /\ lineWidth (snd (_parseStructuredTextLineEllipsis measure10
                            (example_block [] Ellipsis)
                            [plain (str "abc"); red (str "defgh") 55]
                            (Fin 45) context0))
          = Some (sum_widths
                    (List.map (measured measure10 (example_block [] Ellipsis))
                       (firstn k [plain (str "abc"); red (str "defgh") 55])
                     ++ [truncated measure10 (example_block [] Ellipsis) p
                           (join cs ++ ELLIPSIS)]))
       /\ ngt (sum_widths
                 (List.map (measured measure10 (example_block [] Ellipsis))
                    (firstn k [plain (str "abc"); red (str "defgh") 55])
                  ++ [truncated measure10 (example_block [] Ellipsis) p
                        (join cs ++ ELLIPSIS)])) (Fin 45)
          = false.
Proof.
  apply ellipsis_truncation_shape. reflexivity.
Defined.

(* ===================================================================== *)
(** * Further properties of the WordWrap policy *)
(* ===================================================================== *)

Section WordWrapMore.

Variable measureText : jsstring -> jsstring -> number.
Variable this : TextBlock.

Local Abbreviation M := (measured measureText this).

Lemma wordwrap_fold_no_break width_ ws :
  forall st pre,
    ww_testLine st = List.map M pre ->
    (forall k, 1 <= k <= length ws ->
               ngt (sum_widths (List.map M (pre ++ firstn k ws))) width_
               = false
               \/ length (pre ++ firstn k ws) <= 1) ->
    ww_lines (fold_left (wordwrap_step measureText this width_) ws st)
    = ww_lines st
    /\ ww_testLine (fold_left (wordwrap_step measureText this width_) ws st)
       = List.map M (pre ++ ws)
    /\ (ws <> [] ->
        ww_testWidth (fold_left (wordwrap_step measureText this width_) ws st)
        = sum_widths (List.map M (pre ++ ws))).
Proof.
  induction ws as [|w ws IH]; intros st pre Hline Hfit.
  - simpl. rewrite app_nil_r. repeat split; auto. congruence.
  - cbn [fold_left].
    assert (Hm : Forall is_measured (ww_testLine st)).
    { rewrite Hline. apply map_measured_all. }
    destruct (wordwrap_step_spec measureText this width_ st w Hm)
      as (context' & ->).
    assert (Hsnoc : ww_testLine st ++ [M w] = List.map M (pre ++ [w])).
    { rewrite Hline, map_app. reflexivity. }
    rewrite Hsnoc.
    assert (Hno : ngt (sum_widths (List.map M (pre ++ [w]))) width_
                  && Nat.ltb 1 (length (List.map M (pre ++ [w])))
                  = false).
    { destruct (Hfit 1) as [H|H]; [simpl; lia| |].
      - simpl in H. now rewrite H.
      - simpl in H. rewrite length_map.
        apply andb_false_iff. right. apply Nat.ltb_ge. exact H. }
    rewrite Hno.
    destruct (IH (mkWW (ww_lines st) (ww_testWidth st)
                    (sum_widths (List.map M (pre ++ [w])))
                    (List.map M (pre ++ [w])) context')
                (pre ++ [w]) eq_refl) as (H1 & H2 & H3).
    { intros k Hk. rewrite <- app_assoc. apply (Hfit (S k)). simpl. lia. }
    rewrite <- app_assoc in H2, H3. simpl in H2, H3.
    split; [exact H1|]. split; [exact H2|]. intros _.
    destruct ws as [|w' ws]; [|apply H3; discriminate].
    reflexivity.
Qed.

(** X10: when the measured width of no prefix of two or more words exceeds
    the target, WordWrap breaks nothing: it emits one line, the fusion of
    all the measured words, with their total as recorded width. *)
Theorem wordwrap_single_line_when_fitting line width_ context :
  (forall k, 2 <= k <= length (split_words this line) ->
             ngt (sum_widths
                    (List.map M (firstn k (split_words this line)))) width_
             = false) ->
  snd (_parseStructuredTextLineWordWrap measureText this line width_ context)
  = [ {| parts :=
           _fuseStructuredTextParts (List.map M (split_words this line));
         lineWidth :=
           Some (sum_widths (List.map M (split_words this line))) |} ].
Proof.
  intros Hfit. unfold _parseStructuredTextLineWordWrap, wordwrap_words.
  destruct (wordwrap_fold_no_break width_ (split_words this line)
              (mkWW [] (Fin 0) (Fin 0) [] context) [] eq_refl)
    as (H1 & H2 & H3).
  { intros k Hk. simpl. destruct (Nat.le_gt_cases 2 k) as [H|H].
    - left. apply Hfit. lia.
    - right. rewrite length_firstn. lia. }
  simpl in *. rewrite H1, H2. simpl. do 2 f_equal.
  destruct (split_words this line) as [|w ws] eqn:E; [reflexivity|].
  rewrite H3 by discriminate. reflexivity.
Qed.

Hypothesis measure_finite : forall f t, is_finite (measureText f t) = true.

Lemma wordwrap_fold_coherent width_ ws :
  forall st,
    Forall finite_if_cached ws ->
    Forall has_finite_width (ww_testLine st) ->
    ww_testWidth st = sum_widths (ww_testLine st) ->
    Forall coherent_line (ww_lines st) ->
    Forall has_finite_width
      (ww_testLine (fold_left (wordwrap_step measureText this width_) ws st))
    /\ ww_testWidth (fold_left (wordwrap_step measureText this width_) ws st)
       = sum_widths
           (ww_testLine
              (fold_left (wordwrap_step measureText this width_) ws st))
    /\ Forall coherent_line
         (ww_lines (fold_left (wordwrap_step measureText this width_) ws st)).
Proof.
  induction ws as [|w ws IH]; intros st Hws Hfin Hw Hlines; [auto|].
  cbn [fold_left]. inversion Hws as [|? ? Hwf Hws']; subst.
  assert (Hm : Forall is_measured (ww_testLine st)).
  { eapply Forall_impl; [|exact Hfin]. intros p [z Hz].
    unfold is_measured. congruence. }
  destruct (wordwrap_step_spec measureText this width_ st w Hm)
    as (context' & ->).
  pose proof (measured_finite measureText this w measure_finite Hwf) as HMw.
  destruct (ngt (sum_widths (ww_testLine st ++ [M w])) width_
            && Nat.ltb 1 (length (ww_testLine st ++ [M w]))).
  - apply IH; simpl; auto.
    + destruct (restarted_width measureText this measure_finite w)
        as [z Hz].
      constructor; [exists z; exact Hz|constructor].
    + apply Forall_app. split; [assumption|].
      constructor; [|constructor].
      exists (ww_testLine st). cbn [parts lineWidth].
      split; [assumption|]. split; [reflexivity|]. now rewrite Hw.
  - apply IH; simpl; auto.
    apply Forall_app. split; [assumption|]. now repeat constructor.
Qed.

(** X11: with finite measurement results and cached widths, the runs of
    every line WordWrap emits are the fusion of words that each carry a
    finite width, and the recorded width of the line is the left-to-right
    sum of the widths of these words, taken before fusion. *)
Theorem wordwrap_recorded_width_is_sum line width_ context :
  Forall finite_if_cached line ->
  Forall
    (fun l =>
       exists ws,
         Forall has_finite_width ws
         /\ parts l = _fuseStructuredTextParts ws
         /\ lineWidth l = Some (sum_widths ws))
    (snd (_parseStructuredTextLineWordWrap measureText this line width_
            context)).
Proof.
  intros Hline. unfold _parseStructuredTextLineWordWrap, wordwrap_words.
  destruct (wordwrap_fold_coherent width_ (split_words this line)
              (mkWW [] (Fin 0) (Fin 0) [] context))
    as (Hfin & Hw & Hlines); simpl; auto.
  { now apply split_words_finite. }
  apply Forall_app. split; [exact Hlines|]. constructor; [|constructor].
  eexists. cbn [parts lineWidth].
  split; [exact Hfin|]. split; [reflexivity|]. now rewrite Hw.
Qed.

End WordWrapMore.

Lemma wordwrap_single_line_when_fitting_witness :
  snd (_parseStructuredTextLineWordWrap measure10
         (example_block [] WordWrap) [red (str "AB") 20; red (str "CD") 20]
         PosInf context0)
  = [ {| parts :=
           _fuseStructuredTextParts
             (List.map (measured measure10 (example_block [] WordWrap))
                (split_words (example_block [] WordWrap)
                   [red (str "AB") 20; red (str "CD") 20]));
         lineWidth :=
           Some (sum_widths
                   (List.map (measured measure10 (example_block [] WordWrap))
                      (split_words (example_block [] WordWrap)
                         [red (str "AB") 20; red (str "CD") 20]))) |} ].
Proof.
  apply wordwrap_single_line_when_fitting.
  intros k Hk.
  destruct (sum_widths
              (List.map (measured measure10 (example_block [] WordWrap))
                 (firstn k
                    (split_words (example_block [] WordWrap)
                       [red (str "AB") 20; red (str "CD") 20]))));
    reflexivity.
Defined.

Lemma wordwrap_recorded_width_is_sum_witness :
  Forall
    (fun l =>
       exists ws,
         Forall has_finite_width ws
         /\ parts l = _fuseStructuredTextParts ws
         /\ lineWidth l = Some (sum_widths ws))
    (snd (_parseStructuredTextLineWordWrap measure10
            (example_block [] WordWrap)
            [plain (str "hello big world"); red (str " and more") 90]
            (Fin 100) context0)).
Proof.
  apply (wordwrap_recorded_width_is_sum measure10 (example_block [] WordWrap)).
  - intros f t. reflexivity.
  - repeat constructor.
Defined.

(** The recorded width is the sum over the words, not over the fused
    runs: with the cached widths 0.1, 0.2 and 0.3, the last two runs
    merging, the line records 0.6000000000000001 while the widths of its
    two runs sum to 0.6. *)
Example wordwrap_recorded_width_rounds :
  let l :=
    snd (_parseStructuredTextLineWordWrap measure10
           (example_block [] WordWrap)
           [ set_width (red (str "a") 0)
               (Some (binary64 3602879701896397 (-55)));
             set_width (blue (str "b") 0)
               (Some (binary64 3602879701896397 (-54)));
             set_width (blue (str "c") 0)
               (Some (binary64 5404319552844595 (-54))) ]
           PosInf context0) in
  List.map line_texts l = [[str "a"; str "bc"]]
  /\ List.map lineWidth l = [Some (binary64 1351079888211149 (-51))]
  /\ List.map (fun x => sum_widths (parts x)) l
     = [binary64 5404319552844595 (-53)].
Proof. vm_compute. repeat split. Qed.

Example wordwrap_fuses_red_runs :
  List.map line_texts
    (snd (_parseStructuredTextLineWordWrap measure10
            (example_block [] WordWrap)
            [red (str "AB") 20; red (str "CD") 20] PosInf context0))
  = [[str "ABCD"]].
Proof. vm_compute. reflexivity. Qed.

(* ===================================================================== *)
(** * The plain-text path *)
(* ===================================================================== *)

Lemma split_newline_char s : split_newline s = split_char NEWLINE s.
Proof.
  induction s as [|c s IH]; simpl; [reflexivity|]. now rewrite IH.
Qed.

Lemma split_char_nonempty sep s : split_char sep s <> [].
Proof.
  induction s as [|c s IH]; simpl; [discriminate|].
  destruct (N.eqb c sep); [discriminate|].
  destruct (split_char sep s); discriminate.
Qed.

Lemma join_sep_cons sep x rest :
  rest <> [] -> join_sep sep (x :: rest) = x ++ sep ++ join_sep sep rest.
Proof. destruct rest; [congruence|reflexivity]. Qed.

Lemma join_split_char sep s : join_sep [sep] (split_char sep s) = s.
Proof.
  induction s as [|c s IH]; [reflexivity|].
  cbn [split_char]. pose proof (split_char_nonempty sep s) as Hne.
  destruct (N.eqb c sep) eqn:E.
  - apply N.eqb_eq in E. subst c.
    rewrite join_sep_cons by assumption. now rewrite IH.
  - destruct (split_char sep s) as [|seg segs]; [congruence|].
    destruct segs as [|seg' segs].
    + simpl in *. now rewrite IH.
    + rewrite join_sep_cons by discriminate.
      rewrite join_sep_cons in IH by discriminate.
      rewrite <- IH. reflexivity.
Qed.

Lemma join_sep_merge sep l a b tail :
  join_sep sep (l ++ (a ++ sep ++ b) :: tail)
  = join_sep sep (l ++ a :: b :: tail).
Proof.
  induction l as [|x l IH].
  - simpl. destruct tail; [reflexivity|]. now rewrite <- !app_assoc.
  - change ((x :: l) ++ ?r) with (x :: (l ++ r)).
    cbn [join_sep]. rewrite IH.
    destruct l; reflexivity.
Qed.

Section PlainTextProperties.

Variable measureBox : jsstring -> jsstring -> number * number.
Variable this : TextBlock.

Local Abbreviation measure := (measure_line measureBox).

Local Abbreviation plain_line_ok := (plain_line_holds measureBox).

Lemma plain_wordwrap_fold words width_ context ws :
  forall st,
    0 < pw_n st -> incl ws words ->
    Forall (plain_line_ok words width_ context) (pw_lines st) ->
    plain_line_ok words width_ context
      {| plain_text := pw_line st; plain_width := pw_lineWidth st |} ->
    Forall (plain_line_ok words width_ context)
      (pw_lines (fold_left (plain_wordwrap_step measureBox width_ context)
                   ws st)
       ++ [ {| plain_text :=
                 pw_line (fold_left
                            (plain_wordwrap_step measureBox width_ context)
                            ws st);
               plain_width :=
                 pw_lineWidth (fold_left
                                 (plain_wordwrap_step measureBox width_
                                    context) ws st) |} ])
    /\ forall tail,
         join_sep [SPACE]
           (List.map plain_text
              (pw_lines (fold_left
                           (plain_wordwrap_step measureBox width_ context)
                           ws st))
            ++ pw_line (fold_left
                          (plain_wordwrap_step measureBox width_ context)
                          ws st) :: tail)
         = join_sep [SPACE]
             (List.map plain_text (pw_lines st)
              ++ pw_line st :: ws ++ tail).
Proof.
  induction ws as [|w ws IH]; intros st Hn Hincl Hlines Hcur.
  - simpl. split; [|reflexivity].
    apply Forall_app. split; [assumption|].
    constructor; [assumption|constructor].
  - cbn [fold_left]. unfold plain_wordwrap_step at 2 4 6 8 10.
    assert (Hpos : Nat.ltb 0 (pw_n st) = true) by now apply Nat.ltb_lt.
    rewrite Hpos, andb_true_r.
    assert (Hw : In w words) by (apply Hincl; now left).
    assert (Hws : incl ws words).
    { intros y Hy. apply Hincl. now right. }
    destruct (ngt (measure context (pw_line st ++ [SPACE] ++ w)) width_)
      eqn:Hgt.
    + destruct (IH (mkPW
                      (pw_lines st
                       ++ [ {| plain_text := pw_line st;
                               plain_width := pw_lineWidth st |} ])
                      w (measure context w) (S (pw_n st))))
        as [H1 H2]; simpl; auto; try lia.
      * apply Forall_app. split; [assumption|].
        constructor; [assumption|constructor].
      * split; [reflexivity|]. now right.
      * split; [exact H1|]. intros tail. rewrite H2.
        cbn [pw_lines pw_line]. rewrite map_app. simpl.
        now rewrite <- app_assoc.
    + destruct (IH (mkPW (pw_lines st) (pw_line st ++ [SPACE] ++ w)
                      (measure context (pw_line st ++ [SPACE] ++ w))
                      (S (pw_n st))))
        as [H1 H2]; simpl; auto; try lia.
      * split; [reflexivity|]. left. exact Hgt.
      * split; [exact H1|]. intros tail. rewrite H2.
        cbn [pw_lines pw_line]. apply (join_sep_merge [SPACE]).
Qed.

(** What [_parseLineWordWrap] returns, for a non-empty array of words. *)
Lemma parseLineWordWrap_spec line width_ context :
  plain_words this line <> [] ->
  Forall (plain_line_ok (plain_words this line) width_ context)
    (_parseLineWordWrap measureBox this line width_ context)
  /\ join_sep [SPACE]
       (List.map plain_text
          (_parseLineWordWrap measureBox this line width_ context))
     = join_sep [SPACE] (plain_words this line).
Proof.
  intros Hne. unfold _parseLineWordWrap.
  destruct (plain_words this line) as [|w ws] eqn:E; [congruence|].
  cbn [fold_left]. unfold plain_wordwrap_step at 2 4 6 8 10.
  cbn [pw_n Nat.ltb Nat.leb andb]. rewrite andb_false_r.
  destruct (plain_wordwrap_fold (w :: ws) width_ context ws
              (mkPW [] w (measure context w) 1))
    as [H1 H2]; simpl; auto.
  - intros y Hy. now right.
  - split; [reflexivity|]. right. now left.
  - split; [exact H1|]. rewrite map_app. cbn [List.map plain_text].
    rewrite (H2 []). simpl. now rewrite app_nil_r.
Qed.

(** X12: with the default splitting of a plain line at its spaces, joining
    the texts of the lines [_parseLineWordWrap] emits with a space gives the
    line back: a break replaces exactly one space. *)
Theorem plain_wordwrap_round_trip line width_ context :
  wordSplittingFunction this = None ->
  join_sep [SPACE]
    (List.map plain_text
       (_parseLineWordWrap measureBox this line width_ context))
  = line.
Proof.
  intros Hdefault.
  destruct (parseLineWordWrap_spec line width_ context) as [_ H].
  - unfold plain_words. rewrite Hdefault. apply split_char_nonempty.
  - rewrite H. unfold plain_words. rewrite Hdefault.
    apply join_split_char.
Qed.

(** X13: every line [_parseLineWordWrap] emits records the width measured
    for its own text; that width does not exceed the target unless the line
    is a single word.  (A splitter that returns no word is the one case
    left out.) *)
Theorem plain_wordwrap_lines_fit line width_ context :
  plain_words this line <> [] ->
  Forall
    (fun l =>
       plain_width l = measure context (plain_text l)
       /\ (ngt (plain_width l) width_ = false
           \/ In (plain_text l) (plain_words this line)))
    (_parseLineWordWrap measureBox this line width_ context).
Proof.
  intros Hne. exact (proj1 (parseLineWordWrap_spec line width_ context Hne)).
Qed.

End PlainTextProperties.

Lemma plain_wordwrap_round_trip_witness :
  join_sep [SPACE]
    (List.map plain_text
       (_parseLineWordWrap box10 (example_block [] WordWrap)
          (str "one two  three") (Fin 70) context0))
  = str "one two  three".
Proof. apply plain_wordwrap_round_trip. reflexivity. Defined.

Lemma plain_wordwrap_lines_fit_witness :
  Forall
    (fun l =>
       plain_width l = measure_line box10 context0 (plain_text l)
       /\ (ngt (plain_width l) (Fin 70) = false
           \/ In (plain_text l)
                (plain_words (example_block [] WordWrap)
                   (str "one two  three"))))
    (_parseLineWordWrap box10 (example_block [] WordWrap)
       (str "one two  three") (Fin 70) context0).
Proof. apply plain_wordwrap_lines_fit. vm_compute. discriminate. Defined.

Example plain_wordwrap_example :
  List.map plain_text
    (_parseLineWordWrap box10 (example_block [] WordWrap)
       (str "one two  three") (Fin 70) context0)
  = [str "one two"; str " three"].
Proof. vm_compute. reflexivity. Qed.

Lemma array_from_pair a b s :
  array_from (a :: b :: s)
  = if is_high_surrogate a && is_low_surrogate b
    then [a; b] :: array_from s
    else [a] :: array_from (b :: s).
Proof. reflexivity. Qed.

Lemma array_from_snoc_aux n : forall s c,
  length s <= n -> is_low_surrogate c = false ->
  array_from (s ++ [c]) = array_from s ++ [[c]].
Proof.
  induction n as [|n IH]; intros s c Hlen Hc.
  - destruct s; [reflexivity|simpl in Hlen; lia].
  - destruct s as [|a [|b s]].
    + reflexivity.
    + simpl. now rewrite Hc, andb_false_r.
    + change ((a :: b :: s) ++ [c]) with (a :: b :: (s ++ [c])).
      rewrite !array_from_pair. simpl in Hlen.
      destruct (is_high_surrogate a && is_low_surrogate b).
      * rewrite (IH s c) by (assumption || lia). reflexivity.
      * change (b :: s ++ [c]) with ((b :: s) ++ [c]).
        rewrite (IH (b :: s) c) by (assumption || simpl; lia).
        reflexivity.
Qed.

Lemma array_from_snoc s c :
  is_low_surrogate c = false ->
  array_from (s ++ [c]) = array_from s ++ [[c]].
Proof. apply (array_from_snoc_aux (length s)). lia. Qed.

Section PlainEllipsisProperties.

Variable measureBox : jsstring -> jsstring -> number * number.

Local Abbreviation measure := (measure_line measureBox).

Lemma plain_ellipsis_characters_shape width_ context characters line
    lineWidth_ :
  (plain_ellipsis_characters measureBox width_ context characters line
     lineWidth_ = (line, lineWidth_)
   /\ (characters = [] \/ ngt lineWidth_ width_ = false))
  \/ (exists cs cs',
        characters = cs ++ cs' /\ cs' <> []
        /\ plain_ellipsis_characters measureBox width_ context characters
             line lineWidth_
           = (join cs ++ str "...", measure context (join cs ++ str "..."))
        /\ (cs = []
            \/ ngt (measure context (join cs ++ str "...")) width_ = false)).
Proof.
  funelim (plain_ellipsis_characters measureBox width_ context characters
             line lineWidth_).
  - assert (Hne : characters <> []).
    { intros ->. discriminate. }
    destruct (exists_last Hne) as [cs0 [x Hx]].
    right.
    match goal with
    | IH : _ \/ _ |- _ =>
        destruct IH as [(Heq & Hstop)|(cs & cs' & Hcs & Hcs' & Heq & Hstop)]
    end.
    + exists (removelast characters), [x]. rewrite Heq.
      split; [rewrite Hx at 1; now rewrite Hx, removelast_last|].
      split; [discriminate|]. split; [reflexivity|exact Hstop].
    + exists cs, (cs' ++ [x]). rewrite Heq.
      rewrite Hx, removelast_last in Hcs.
      split; [rewrite Hx, Hcs; now rewrite app_assoc|].
      split; [destruct cs'; discriminate|]. split; [reflexivity|exact Hstop].
  - left. split; [reflexivity|].
    pose proof e as He. apply andb_false_iff in He.
    destruct He as [He|He]; [left|now right].
    apply negb_false_iff, Nat.eqb_eq in He. now apply length_zero_iff_nil.
Qed.

Lemma plain_ellipsis_characters_fits width_ context characters line
    lineWidth_ :
  ngt lineWidth_ width_ = false ->
  plain_ellipsis_characters measureBox width_ context characters line
    lineWidth_
  = (line, lineWidth_).
Proof.
  funelim (plain_ellipsis_characters measureBox width_ context characters
             line lineWidth_); intros Hfit; [|reflexivity].
  pose proof e as He. rewrite Hfit, andb_false_r in He. discriminate.
Qed.

(** X14: [_parseLineEllipsis] where [Array.from] exists.  A line that fits
    is returned as it is.  A line that does not is cut to a prefix of its
    characters followed by three full stops (the marker first appended is
    popped at once); the width returned is the width measured for the text
    returned, and it does not exceed the target unless nothing but the full
    stops is left. *)
Theorem plain_ellipsis_result line width_ context :
  (ngt (measure context line) width_ = false
   /\ _parseLineEllipsis measureBox true line width_ context
      = {| plain_text := line; plain_width := measure context line |})
  \/ (ngt (measure context line) width_ = true
      /\ exists cs cs',
           array_from line = cs ++ cs'
           /\ plain_text (_parseLineEllipsis measureBox true line width_
                            context)
              = join cs ++ str "..."
           /\ plain_width (_parseLineEllipsis measureBox true line width_
                             context)
              = measure context (join cs ++ str "...")
           /\ (cs = []
               \/ ngt (measure context (join cs ++ str "...")) width_
                  = false)).
Proof.
  unfold _parseLineEllipsis.
  destruct (ngt (measure context line) width_) eqn:Hgt.
  - right. split; [reflexivity|].
    destruct (plain_ellipsis_characters_shape width_ context
                (array_from (line ++ ELLIPSIS)) (line ++ ELLIPSIS)
                (measure context line))
      as [(_ & [Hnil|Hfit])|(cs & cs' & Hcs & Hcs' & -> & Hstop)].
    + exfalso. apply (array_from_nonempty (line ++ ELLIPSIS)); [|exact Hnil].
      destruct line; discriminate.
    + congruence.
    + unfold ELLIPSIS in Hcs. rewrite array_from_snoc in Hcs by reflexivity.
      destruct (exists_last Hcs') as [cs'' [x Hx]]. subst cs'.
      rewrite app_assoc in Hcs. apply app_inj_tail in Hcs.
      destruct Hcs as [Hcs _].
      exists cs, cs''. simpl. auto.
  - left. split; [reflexivity|].
    now rewrite plain_ellipsis_characters_fits.
Qed.

End PlainEllipsisProperties.

Section PlainLegacyProperties.

Variable measureBox : jsstring -> jsstring -> number * number.

Local Abbreviation measure := (measure_line measureBox).

Lemma plain_ellipsis_legacy_fits width_ context line lineWidth_ :
  ngt lineWidth_ width_ = false ->
  plain_ellipsis_legacy measureBox width_ context line lineWidth_
  = (line, lineWidth_).
Proof.
  funelim (plain_ellipsis_legacy measureBox width_ context line lineWidth_);
    intros Hfit; [|reflexivity].
  pose proof e as He. rewrite Hfit, andb_false_r in He. discriminate.
Qed.

Lemma plain_ellipsis_legacy_shape width_ context line lineWidth_ :
  forall pre,
    line = pre ++ ELLIPSIS ->
    (plain_ellipsis_legacy measureBox width_ context line lineWidth_
     = (line, lineWidth_)
     /\ (length line <= 2 \/ ngt lineWidth_ width_ = false))
    \/ (exists pre' rest,
          pre = pre' ++ rest /\ rest <> []
          /\ plain_ellipsis_legacy measureBox width_ context line lineWidth_
             = (pre' ++ ELLIPSIS, measure context (pre' ++ ELLIPSIS))
          /\ (length (pre' ++ ELLIPSIS) <= 2
              \/ ngt (measure context (pre' ++ ELLIPSIS)) width_ = false)).
Proof.
  funelim (plain_ellipsis_legacy measureBox width_ context line lineWidth_);
    intros pre Hline.
  - pose proof e as He. apply andb_true_iff in He. destruct He as [Hlen _].
    apply Nat.ltb_lt in Hlen. subst line.
    assert (Hpre : 2 <= length pre).
    { rewrite length_app in Hlen. simpl in Hlen. lia. }
    assert (Hcut : firstn (length (pre ++ ELLIPSIS) - 2) (pre ++ ELLIPSIS)
                   = firstn (length pre - 1) pre).
    { rewrite length_app. simpl.
      replace (length pre + 1 - 2) with (length pre - 1) by lia.
      rewrite firstn_app.
      replace (length pre - 1 - length pre) with 0 by lia.
      now rewrite firstn_0, app_nil_r. }
    assert (Hrest : skipn (length pre - 1) pre <> []).
    { intros Hnil. apply (f_equal (@length char)) in Hnil.
      rewrite length_skipn in Hnil. simpl in Hnil. lia. }
    right. rewrite Hcut in *.
    match goal with
    | IH : forall pre0, _ -> _ |- _ =>
        destruct (IH (firstn (length pre - 1) pre) eq_refl)
          as [(Heq & Hstop)
             |(pre' & rest & Hsplit & Hne & Heq & Hstop)]
    end.
    + exists (firstn (length pre - 1) pre), (skipn (length pre - 1) pre).
      rewrite firstn_skipn. auto.
    + exists pre', (rest ++ skipn (length pre - 1) pre).
      split.
      { rewrite app_assoc, <- Hsplit. symmetry. apply firstn_skipn. }
      split; [destruct rest; [congruence|discriminate]|]. auto.
  - left. split; [reflexivity|].
    pose proof e as He. apply andb_false_iff in He.
    destruct He as [He|He]; [left|now right].
    now apply Nat.ltb_ge in He.
Qed.

(** X15: [_parseLineEllipsis] where [Array.from] is missing.  A line that
    fits is returned as it is.  Otherwise the text returned is a prefix of
    the line followed by the marker, and either it has at most two code
    units or the measured width does not exceed the target; when the loop
    cut something, the width returned is the width measured for the text
    returned. *)
Theorem plain_ellipsis_legacy_result line width_ context :
  (ngt (measure context line) width_ = false
   /\ _parseLineEllipsis measureBox false line width_ context
      = {| plain_text := line; plain_width := measure context line |})
  \/ (ngt (measure context line) width_ = true
      /\ exists pre rest,
           line = pre ++ rest
           /\ plain_text (_parseLineEllipsis measureBox false line width_
                            context)
              = pre ++ ELLIPSIS
           /\ (length (pre ++ ELLIPSIS) <= 2
               \/ ngt (plain_width
                         (_parseLineEllipsis measureBox false line width_
                            context)) width_
                  = false)
           /\ (rest <> [] ->
               plain_width (_parseLineEllipsis measureBox false line width_
                              context)
               = measure context (pre ++ ELLIPSIS))).
Proof.
  unfold _parseLineEllipsis.
  destruct (ngt (measure context line) width_) eqn:Hgt.
  - right. split; [reflexivity|].
    destruct (plain_ellipsis_legacy_shape width_ context (line ++ ELLIPSIS)
                (measure context line) line eq_refl)
      as [(-> & Hstop)|(pre & rest & Hsplit & Hne & -> & Hstop)].
    + exists line, []. simpl. rewrite app_nil_r.
      split; [reflexivity|]. split; [reflexivity|].
      split; [|congruence].
      destruct Hstop as [H|H]; [now left|congruence].
    + exists pre, rest. simpl. auto.
  - left. split; [reflexivity|].
    now rewrite plain_ellipsis_legacy_fits.
Qed.

End PlainLegacyProperties.

Section BreakLinesProperties.

Variable measureBox : jsstring -> jsstring -> number * number.
Variable this : TextBlock.
Variable Array_from_available : bool.
Variable measureText : jsstring -> jsstring -> number.

(** X16: the plain-text path in Clip mode.  The context is left as it is,
    and the lines are the segments of the text between its newlines, each
    with the width measured for it: joining their texts with a newline
    gives the text back. *)
Theorem plain_clip_round_trip _text refWidth context :
  _textWrapping this = Clip ->
  exists lines,
    _breakLines measureBox this Array_from_available measureText _text false
      refWidth context
    = (context, inl lines)
    /\ join_sep [NEWLINE] (List.map plain_text lines) = _text
    /\ Forall
         (fun l =>
            plain_width l = measure_line measureBox context (plain_text l))
         lines.
Proof.
  intros Hmode. unfold _breakLines. rewrite Hmode.
  eexists. split; [reflexivity|]. split.
  - rewrite map_map. cbn [_parseLine plain_text]. rewrite map_id.
    rewrite split_newline_char. apply join_split_char.
  - apply Forall_forall. intros l Hl. apply in_map_iff in Hl.
    destruct Hl as (t & <- & _). reflexivity.
Qed.

(** X17: on the plain-text path every mode leaves the context as it is and
    returns at least one line per segment of the text between its newlines,
    Clip and Ellipsis exactly one. *)
Theorem plain_break_line_count _text refWidth context :
  exists lines,
    _breakLines measureBox this Array_from_available measureText _text false
      refWidth context
    = (context, inl lines)
    /\ 1 <= length lines
    /\ match _textWrapping this with
       | WordWrap => length (split_newline _text) <= length lines
       | _ => length lines = length (split_newline _text)
       end.
Proof.
  unfold _breakLines.
  assert (Hseg : 1 <= length (split_newline _text)).
  { pose proof (split_newline_nonempty _text).
    destruct (split_newline _text); [congruence|simpl; lia]. }
  assert (Hww : forall segs,
             length segs
             <= length
                  (flat_map
                     (fun _line =>
                        _parseLineWordWrap measureBox this _line refWidth
                          context) segs)).
  { induction segs as [|seg segs IH]; [simpl; lia|].
    simpl. rewrite length_app. unfold _parseLineWordWrap at 1.
    rewrite length_app. simpl. lia. }
  destruct (_textWrapping this); eexists; (split; [reflexivity|]).
  - rewrite length_map. split; [exact Hseg|reflexivity].
  - split; [|apply Hww]. eapply Nat.le_trans; [exact Hseg|apply Hww].
  - rewrite length_map. split; [exact Hseg|reflexivity].
Qed.

End BreakLinesProperties.

Lemma plain_clip_round_trip_witness :
  exists lines,
    _breakLines box10 (example_block [] Clip) true measure10
      (text hello_world) false (Fin 20) context0
    = (context0, inl lines)
    /\ join_sep [NEWLINE] (List.map plain_text lines) = text hello_world
    /\ Forall
         (fun l => plain_width l = measure_line box10 context0 (plain_text l))
         lines.
Proof. apply plain_clip_round_trip. reflexivity. Defined.

Example plain_clip_hello_world :
  _breakLines box10 (example_block [] Clip) true measure10
    (text hello_world) false (Fin 20) context0
  = (context0,
     inl [ {| plain_text := str "hello"; plain_width := Fin 50 |};
           {| plain_text := str "world"; plain_width := Fin 50 |} ]).
Proof. vm_compute. reflexivity. Qed.

(* ===================================================================== *)
(** * The metrics of a run *)
(* ===================================================================== *)

Lemma metrics_fold_fields ms :
  forall m,
    StructuredTextMetrics.width
      (fold_left StructuredTextMetrics.fuseWithRightPart ms m)
    = fold_left nadd (List.map StructuredTextMetrics.width ms)
        (StructuredTextMetrics.width m)
    /\ StructuredTextMetrics.computed
         (fold_left StructuredTextMetrics.fuseWithRightPart ms m)
       = forallb StructuredTextMetrics.computed (m :: ms)
    /\ StructuredTextMetrics.x
         (fold_left StructuredTextMetrics.fuseWithRightPart ms m)
       = StructuredTextMetrics.x m
    /\ StructuredTextMetrics.baselineY
         (fold_left StructuredTextMetrics.fuseWithRightPart ms m)
       = StructuredTextMetrics.baselineY m.
Proof.
  induction ms as [|k ms IH]; intros m.
  - simpl. rewrite andb_true_r. auto.
  - cbn [fold_left List.map]. destruct (IH
      (StructuredTextMetrics.fuseWithRightPart m k)) as (H1 & H2 & H3 & H4).
    rewrite H1, H2, H3, H4.
    unfold StructuredTextMetrics.fuseWithRightPart.
    destruct (StructuredTextMetrics.computed m) eqn:Em,
             (StructuredTextMetrics.computed k) eqn:Ek;
      cbn -[nadd]; rewrite ?Em, ?Ek; repeat split; reflexivity.
Qed.

(** X18: fusing a sequence of metrics into a first one, from left to right,
    gives the sum of the widths; the result is computed exactly when all of
    them are; [x] and [baselineY] stay those of the first one. *)
Theorem metrics_fuse_sequence (m : StructuredTextMetrics.t)
    (ms : list StructuredTextMetrics.t) :
  StructuredTextMetrics.width
    (fold_left StructuredTextMetrics.fuseWithRightPart ms m)
  = fold_left nadd (List.map StructuredTextMetrics.width ms)
      (StructuredTextMetrics.width m)
  /\ StructuredTextMetrics.computed
       (fold_left StructuredTextMetrics.fuseWithRightPart ms m)
     = forallb StructuredTextMetrics.computed (m :: ms)
  /\ StructuredTextMetrics.x
       (fold_left StructuredTextMetrics.fuseWithRightPart ms m)
     = StructuredTextMetrics.x m
  /\ StructuredTextMetrics.baselineY
       (fold_left StructuredTextMetrics.fuseWithRightPart ms m)
     = StructuredTextMetrics.baselineY m.
Proof. apply metrics_fold_fields. Qed.

Lemma metrics_fold_height ms :
  forall m z,
    StructuredTextMetrics.computed m = true ->
    StructuredTextMetrics.height m = Fin z ->
    forallb StructuredTextMetrics.computed ms = true ->
    Forall (fun k => is_finite (StructuredTextMetrics.height k) = true) ms ->
    exists z',
      StructuredTextMetrics.height
        (fold_left StructuredTextMetrics.fuseWithRightPart ms m) = Fin z'
      /\ (z <= z')%Z
      /\ Forall
           (fun k => nle (StructuredTextMetrics.height k) (Fin z') = true) ms
      /\ In (Fin z') (List.map StructuredTextMetrics.height (m :: ms)).
Proof.
  induction ms as [|k ms IH]; intros m z Hc Hh Hcs Hfin.
  - exists z. simpl. repeat split; auto; lia.
  - cbn [fold_left]. simpl in Hcs. apply andb_true_iff in Hcs.
    destruct Hcs as [Hk Hcs]. inversion Hfin as [|? ? Hkf Hfin']; subst.
    destruct (StructuredTextMetrics.height k) as [zk| | |] eqn:Ek;
      try discriminate.
    assert (Hstep :
              StructuredTextMetrics.computed
                (StructuredTextMetrics.fuseWithRightPart m k) = true
              /\ StructuredTextMetrics.height
                   (StructuredTextMetrics.fuseWithRightPart m k)
                 = Fin (Z.max z zk)).
    { unfold StructuredTextMetrics.fuseWithRightPart.
      rewrite Hc, Hk, Hh, Ek. simpl. split; [reflexivity|].
      destruct (Z.ltb_spec z zk); f_equal; lia. }
    destruct Hstep as [Hc1 Hh1].
    destruct (IH _ (Z.max z zk) Hc1 Hh1 Hcs Hfin')
      as (z' & Hz' & Hle & Hall & Hin).
    exists z'. split; [exact Hz'|]. split; [lia|]. split.
    + constructor; [|exact Hall]. rewrite Ek. simpl. apply Z.leb_le. lia.
    + simpl in Hin. destruct Hin as [Hin|Hin].
      * inversion Hin as [Hmax]. simpl. rewrite Hh, Ek.
        destruct (Z.max_spec z zk) as [[_ Hm]|[_ Hm]]; rewrite Hm in *.
        -- right; left. congruence.
        -- left. congruence.
      * simpl. right. right. exact Hin.
Qed.

(** X19: when all the metrics fused are computed and their heights finite,
    the height of the result is the greatest of their heights. *)
Theorem metrics_fuse_height_is_max (m : StructuredTextMetrics.t)
    (ms : list StructuredTextMetrics.t) :
  forallb StructuredTextMetrics.computed (m :: ms) = true ->
  Forall (fun k => is_finite (StructuredTextMetrics.height k) = true)
    (m :: ms) ->
  In (StructuredTextMetrics.height
        (fold_left StructuredTextMetrics.fuseWithRightPart ms m))
    (List.map StructuredTextMetrics.height (m :: ms))
  /\ Forall
       (fun k =>
          nle (StructuredTextMetrics.height k)
            (StructuredTextMetrics.height
               (fold_left StructuredTextMetrics.fuseWithRightPart ms m))
          = true)
       (m :: ms).
Proof.
  intros Hc Hfin. simpl in Hc. apply andb_true_iff in Hc.
  destruct Hc as [Hm Hms]. inversion Hfin as [|? ? Hmf Hfin']; subst.
  destruct (StructuredTextMetrics.height m) as [z| | |] eqn:Em;
    try discriminate.
  destruct (metrics_fold_height ms m z Hm Em Hms Hfin')
    as (z' & -> & Hle & Hall & Hin).
  split.
  - exact Hin.
  - constructor; [|exact Hall]. rewrite Em. simpl. now apply Z.leb_le.
Qed.

Lemma metrics_fuse_height_is_max_witness :
  In (StructuredTextMetrics.height
        (fold_left StructuredTextMetrics.fuseWithRightPart
           [StructuredTextMetrics.mk (Fin 5) true (Fin 9) (Fin 1) (Fin 30);
            StructuredTextMetrics.mk (Fin 7) true (Fin 9) (Fin 1) (Fin 20)]
           (StructuredTextMetrics.mk (Fin 3) true (Fin 0) (Fin 2) (Fin 10))))
    (List.map StructuredTextMetrics.height
       [StructuredTextMetrics.mk (Fin 3) true (Fin 0) (Fin 2) (Fin 10);
        StructuredTextMetrics.mk (Fin 5) true (Fin 9) (Fin 1) (Fin 30);
        StructuredTextMetrics.mk (Fin 7) true (Fin 9) (Fin 1) (Fin 20)]).
Proof.
  apply (metrics_fuse_height_is_max
           (StructuredTextMetrics.mk (Fin 3) true (Fin 0) (Fin 2) (Fin 10))
           [StructuredTextMetrics.mk (Fin 5) true (Fin 9) (Fin 1) (Fin 30);
            StructuredTextMetrics.mk (Fin 7) true (Fin 9) (Fin 1) (Fin 20)]).
  - reflexivity.
  - repeat constructor.
Defined.

(* ===================================================================== *)
(** * Painting a line of runs *)
(* ===================================================================== *)

Section PaintingProperties.

Variable this : TextBlock.
Variable _currentMeasure_left : number.
Variable _currentMeasure_width : number.
Variable _textHorizontalAlignment : HorizontalAlignment.
Variable halfThickness : number.
Variable lineThroughYOffset : number.
Variable half : number -> number.

Local Abbreviation draw_part_ :=
  (draw_part this _currentMeasure_left halfThickness lineThroughYOffset).
Local Abbreviation draw_parts_ :=
  (draw_parts this _currentMeasure_left halfThickness lineThroughYOffset).

Lemma fill_texts_app ops ops' :
  fill_texts (ops ++ ops') = fill_texts ops ++ fill_texts ops'.
Proof. apply flat_map_app. Qed.

Lemma setContextAttributes_ops attr :
  fill_texts (_setContextAttributes this attr) = []
  /\ existsb is_stroke (_setContextAttributes this attr) = false.
Proof.
  unfold _setContextAttributes.
  destruct (number_truthy (attr_shadowBlur attr)
            || number_truthy (attr_shadowOffsetX attr)
            || number_truthy (attr_shadowOffsetY attr)),
           (string_truthy (attr_shadowColor attr)),
           (number_truthy (attr_outlineWidth attr)); split; reflexivity.
Qed.

Lemma draw_part_skipped y_ x_ part :
  width_truthy (width part) = false -> draw_part_ y_ x_ part = ([], x_).
Proof.
  unfold draw_part, width_truthy. destruct (width part) as [w|];
    [|reflexivity].
  intros ->. reflexivity.
Qed.

Lemma draw_part_painted y_ x_ part :
  width_truthy (width part) = true ->
  fill_texts (fst (draw_part_ y_ x_ part))
  = [(text part, nadd _currentMeasure_left x_, y_)]
  /\ snd (draw_part_ y_ x_ part) = nadd_opt x_ (width part).
Proof.
  unfold draw_part, width_truthy. destruct (width part) as [w|];
    [|discriminate].
  intros ->. cbn [negb fst snd nadd_opt]. split; [|reflexivity].
  rewrite !fill_texts_app.
  rewrite (proj1 (setContextAttributes_ops (_inheritAttributes this part))).
  destruct (number_truthy (attr_outlineWidth (_inheritAttributes this part))),
           (attr_underline (_inheritAttributes this part)),
           (attr_lineThrough (_inheritAttributes this part)); reflexivity.
Qed.

Lemma draw_parts_fill_texts y_ l :
  forall x_,
    fill_texts (draw_parts_ y_ x_ l)
    = placed _currentMeasure_left y_ x_ (painted l).
Proof.
  induction l as [|p l IH]; intros x_; [reflexivity|].
  cbn [draw_parts]. unfold painted. cbn [filter]. fold (painted l).
  destruct (width_truthy (width p)) eqn:E.
  - destruct (draw_part_painted y_ x_ p E) as [Hf Hx].
    destruct (draw_part_ y_ x_ p) as [ops x1]. simpl in Hf, Hx.
    rewrite fill_texts_app, Hf, IH, Hx. reflexivity.
  - rewrite (draw_part_skipped y_ x_ p E). apply IH.
Qed.

(** X20: the texts [_drawStructuredText] fills are those of the runs with a
    width that is neither absent nor zero nor [NaN], in their order, all at
    the height [y]; the first starts at the origin chosen by the alignment
    and each next one where the one before it ends. *)
Theorem drawStructuredText_fill_positions structuredText textWidth y_ :
  fill_texts
    (_drawStructuredText this _currentMeasure_left _currentMeasure_width
       _textHorizontalAlignment halfThickness lineThroughYOffset half
       structuredText textWidth y_)
  = placed _currentMeasure_left y_
      (draw_origin _currentMeasure_width _textHorizontalAlignment half
         textWidth)
      (painted structuredText).
Proof. unfold _drawStructuredText. apply draw_parts_fill_texts. Qed.

Lemma draw_parts_skip y_ before part rest :
  width_truthy (width part) = false ->
  forall x_,
    draw_parts_ y_ x_ (before ++ part :: rest)
    = draw_parts_ y_ x_ (before ++ rest).
Proof.
  intros Hskip. induction before as [|p before IH]; intros x_.
  - cbn [app draw_parts]. now rewrite (draw_part_skipped y_ x_ part Hskip).
  - cbn [app draw_parts]. destruct (draw_part_ y_ x_ p) as [ops x1].
    now rewrite IH.
Qed.

(** X21: a run whose width is absent, zero or [NaN] is not painted at all,
    whatever its text: the painter issues the very operations it issues for
    the line without that run. *)
Theorem drawStructuredText_skips_run_without_width
    before part rest textWidth y_ :
  width_truthy (width part) = false ->
  _drawStructuredText this _currentMeasure_left _currentMeasure_width
    _textHorizontalAlignment halfThickness lineThroughYOffset half
    (before ++ part :: rest) textWidth y_
  = _drawStructuredText this _currentMeasure_left _currentMeasure_width
      _textHorizontalAlignment halfThickness lineThroughYOffset half
      (before ++ rest) textWidth y_.
Proof. intros H. unfold _drawStructuredText. now apply draw_parts_skip. Qed.

Lemma draw_part_no_stroke y_ x_ part :
  number_truthy (attr_outlineWidth (_inheritAttributes this part)) = false ->
  existsb is_stroke (fst (draw_part_ y_ x_ part)) = false.
Proof.
  intros Hout. unfold draw_part. destruct (width part) as [w|];
    [|reflexivity].
  destruct (number_truthy w); [|reflexivity]. cbn [negb fst].
  rewrite Hout. rewrite !existsb_app.
  rewrite (proj2 (setContextAttributes_ops (_inheritAttributes this part))).
  destruct (attr_underline (_inheritAttributes this part)),
           (attr_lineThrough (_inheritAttributes this part)); reflexivity.
Qed.

(** X22: a resolved outline width of zero suppresses every stroke: when no
    run of the line resolves to an outline width that is truthy, the
    painter calls neither [strokeText] nor [strokeRect]. *)
Theorem drawStructuredText_no_stroke_without_outline
    structuredText textWidth y_ :
  Forall
    (fun part =>
       number_truthy (attr_outlineWidth (_inheritAttributes this part))
       = false)
    structuredText ->
  existsb is_stroke
    (_drawStructuredText this _currentMeasure_left _currentMeasure_width
       _textHorizontalAlignment halfThickness lineThroughYOffset half
       structuredText textWidth y_)
  = false.
Proof.
  intros H. unfold _drawStructuredText.
  generalize (draw_origin _currentMeasure_width _textHorizontalAlignment half
                textWidth).
  induction H as [|p l Hp Hl IH]; intros x_; [reflexivity|].
  cbn [draw_parts]. pose proof (draw_part_no_stroke y_ x_ p Hp) as Hs.
  destruct (draw_part_ y_ x_ p) as [ops x1]. simpl in Hs.
  now rewrite existsb_app, Hs, IH.
Qed.

End PaintingProperties.

Lemma drawStructuredText_skips_run_without_width_witness :
  _drawStructuredText (example_block [] Clip) (Fin 5) (Fin 100)
    HORIZONTAL_ALIGNMENT_LEFT (Fin 1) (Fin (-6)) (fun a => a)
    ([red (str "AB") 20] ++ plain (str "lost") :: [blue (str "E") 9])
    (Fin 29) (Fin 40)
  = _drawStructuredText (example_block [] Clip) (Fin 5) (Fin 100)
      HORIZONTAL_ALIGNMENT_LEFT (Fin 1) (Fin (-6)) (fun a => a)
      ([red (str "AB") 20] ++ [blue (str "E") 9]) (Fin 29) (Fin 40).
Proof.
  apply drawStructuredText_skips_run_without_width. reflexivity.
Defined.

Lemma drawStructuredText_no_stroke_without_outline_witness :
  existsb is_stroke
    (_drawStructuredText (example_block [] Clip) (Fin 5) (Fin 100)
       HORIZONTAL_ALIGNMENT_LEFT (Fin 1) (Fin (-6)) (fun a => a)
       [red (str "AB") 20; blue (str "E") 9] (Fin 29) (Fin 40))
  = false.
Proof.
  apply drawStructuredText_no_stroke_without_outline.
  repeat constructor.
Defined.

Example drawStructuredText_example :
  fill_texts
    (_drawStructuredText (example_block [] Clip) (Fin 5) (Fin 100)
       HORIZONTAL_ALIGNMENT_RIGHT (Fin 1) (Fin (-6)) (fun a => a)
       [red (str "AB") 20; plain (str "lost"); blue (str "E") 9]
       (Fin 29) (Fin 40))
  = [(str "AB", Fin 76, Fin 40); (str "E", Fin 96, Fin 40)].
Proof. vm_compute. reflexivity. Qed.
